(** * Places gateway: cache, dispatcher, field-mask fallback and batch fan-out

    A shallow embedding of the two handler files of the repository,
    [src/api/places.ts] and the second, unnamed handler file
    ([src/unnamed/part_000]), and the proofs of the properties the
    specification states about them.

    Conventions of the embedding.
    - A JavaScript string is a [string]: one [ascii] per code unit.
    - A decoded JSON payload is a [Json] value; numbers are integers.
    - The module-level [CACHE] is a JavaScript [Map]; it is a list of
      bindings kept in the Map's iteration order (the order in which the
      keys were inserted), without duplicate keys.
    - [Date.now()] is an argument of the pure cache functions and an oracle
      ([clock]) of the handlers; the provider is an oracle ([upstream]). *)

From Stdlib Require Import List String Ascii ZArith Bool Lia Arith.
From Stdlib Require Import Permutation Sorted OrderedTypeEx.
Import ListNotations.

Local Open Scope string_scope.
Local Open Scope Z_scope.

Set Implicit Arguments.
Set Warnings "-register-all".

(** ** JSON values *)

Inductive Json : Type :=
| JNull
| JBool (b : bool)
| JNum (n : Z)
| JStr (s : string)
| JArr (l : list Json)
| JObj (l : list (string * Json)).

(** JavaScript truthiness of a decoded JSON value ([if (cached)]). *)
Definition truthy (j : Json) : bool :=
  match j with
  | JNull => false
  | JBool b => b
  | JNum n => negb (n =? 0)
  | JStr s => negb (s =? "")%string
  | JArr _ => true
  | JObj _ => true
  end.

(** ** The cache: [CACHE], [put], [get]

    The two files declare the same three definitions. *)

Record Entry : Type := mkEntry { data : Json; until : Z }.

Definition Cache : Type := list (string * Entry).

(** [Map.prototype.get] *)
Fixpoint Map_get (k : string) (c : Cache) : option Entry :=
  match c with
  | [] => None
  | (k', e) :: c' => if (k =? k')%string then Some e else Map_get k c'
  end.

(** [Map.prototype.set]: an existing key keeps its place in the iteration
    order and gets the new value, a new key goes to the end. *)
Fixpoint Map_set (k : string) (e : Entry) (c : Cache) : Cache :=
  match c with
  | [] => [(k, e)]
  | (k', e') :: c' =>
      if (k =? k')%string then (k, e) :: c' else (k', e') :: Map_set k e c'
  end.

(** [Map.prototype.delete] *)
Fixpoint Map_delete (k : string) (c : Cache) : Cache :=
  match c with
  | [] => []
  | (k', e') :: c' =>
      if (k =? k')%string then c' else (k', e') :: Map_delete k c'
  end.

(** [Map.prototype.size] *)
Definition Map_size (c : Cache) : Z := Z.of_nat (List.length c).

(** [Map.prototype.keys] *)
Definition Map_keys (c : Cache) : list string := map fst c.

(** The literal [5000] of [put]. *)
Definition MAX_ENTRIES : Z := 5000.

(** [put]: [now] is the value of [Date.now()].
<<
const put = (k, v, ttlSec = 3600) => {
  CACHE.set(k, { data: v, until: Date.now() + ttlSec * 1000 });
  if (CACHE.size > 5000) {
    const firstKey = CACHE.keys().next().value;
    CACHE.delete(firstKey);
  }
};
>> *)
Definition put (now : Z) (k : string) (v : Json) (ttlSec : Z) (c : Cache)
  : Cache :=
  let c1 := Map_set k (mkEntry v (now + ttlSec * 1000)) c in
  if Map_size c1 >? MAX_ENTRIES then
    match Map_keys c1 with
    | firstKey :: _ => Map_delete firstKey c1
    | [] => c1
    end
  else c1.

(** [get]: the result is the returned value ([JNull] for [null]) and the
    cache afterwards.
<<
const get = (k) => {
  const e = CACHE.get(k);
  if (!e) return null;
  if (Date.now() > e.until) { CACHE.delete(k); return null; }
  return e.data;
};
>> *)
Definition get (now : Z) (k : string) (c : Cache) : Json * Cache :=
  match Map_get k c with
  | None => (JNull, c)
  | Some e =>
      if now >? until e then (JNull, Map_delete k c) else (data e, c)
  end.

(** ** String helpers of the JavaScript runtime *)

(** [s.slice(n)] *)
Fixpoint slice (n : nat) (s : string) : string :=
  match n, s with
  | O, _ => s
  | S n', String _ s' => slice n' s'
  | S _, EmptyString => EmptyString
  end.

(** [s.startsWith(p)] *)
Definition startsWith (p s : string) : bool := prefix p s.

(** [l.join(sep)] *)
Definition join (sep : string) (l : list string) : string := concat sep l.

(** [l.sort()] with the default comparator: the elements in ascending order
    of their code units.  The order is total and antisymmetric on strings,
    so the sorted array does not depend on the sorting algorithm. *)
Fixpoint sort_insert (x : string) (l : list string) : list string :=
  match l with
  | [] => [x]
  | y :: l' => if (x <=? y)%string then x :: l else y :: sort_insert x l'
  end.

Fixpoint sort (l : list string) : list string :=
  match l with
  | [] => []
  | x :: l' => sort_insert x (sort l')
  end.

(** Case folding of the [i] flag of a regular expression without the [u]
    flag: a code unit is compared through its upper-case form, and a code
    unit above 127 never folds onto an ASCII one. *)
Definition canonicalize (a : ascii) : ascii :=
  let n := nat_of_ascii a in
  if (Nat.leb 97 n && Nat.leb n 122)%bool then ascii_of_nat (n - 32)%nat else a.

Fixpoint string_map (f : ascii -> ascii) (s : string) : string :=
  match s with
  | EmptyString => EmptyString
  | String a s' => String (f a) (string_map f s')
  end.

(** [s.includes(p)] *)
Fixpoint includes (p s : string) : bool :=
  (prefix p s
   || match s with
      | EmptyString => false
      | String _ s' => includes p s'
      end)%bool.

(** [/Error expanding 'fields' parameter/i.test(bodyText)] *)
Definition fieldsErrorTest (bodyText : string) : bool :=
  includes (string_map canonicalize "Error expanding 'fields' parameter")
           (string_map canonicalize bodyText).

Definition hexDigit (n : nat) : ascii :=
  match String.get n "0123456789ABCDEF" with
  | Some a => a
  | None => "0"%char
  end.

Definition percent (n : nat) : string :=
  String "%" (String (hexDigit (n / 16)%nat)
                (String (hexDigit (n mod 16)%nat) "")).

(** The UTF-8 bytes of a code unit below 256, percent-encoded. *)
Definition percentUtf8 (n : nat) : string :=
  if Nat.ltb n 128 then percent n
  else percent (192 + n / 64)%nat ++ percent (128 + n mod 64)%nat.

Definition isAlnum (n : nat) : bool :=
  ((Nat.leb 48 n && Nat.leb n 57)
   || (Nat.leb 65 n && Nat.leb n 90)
   || (Nat.leb 97 n && Nat.leb n 122))%bool.

Definition inString (a : ascii) (s : string) : bool :=
  existsb (Ascii.eqb a) (list_ascii_of_string s).

Fixpoint string_flat_map (f : ascii -> string) (s : string) : string :=
  match s with
  | EmptyString => EmptyString
  | String a s' => f a ++ string_flat_map f s'
  end.

(** [encodeURIComponent(s)] *)
Definition encodeURIComponent (s : string) : string :=
  string_flat_map
    (fun a =>
       let n := nat_of_ascii a in
       if (isAlnum n || inString a "-_.!~*'()")%bool then String a ""
       else percentUtf8 n)
    s.

(** The serializer of [URLSearchParams.prototype.toString]. *)
Definition formEncode (s : string) : string :=
  string_flat_map
    (fun a =>
       let n := nat_of_ascii a in
       if (isAlnum n || inString a "*-._")%bool then String a ""
       else if Nat.eqb n 32 then "+"
       else percentUtf8 n)
    s.

Definition URLSearchParams_toString (ps : list (string * string)) : string :=
  join "&" (map (fun p => formEncode (fst p) ++ "=" ++ formEncode (snd p)) ps).

(** ** Configuration constants of the handlers *)

Definition ALLOWED : list string :=
  ["searchText"; "nearbySearch"; "details"; "autocomplete"; "batchDetails";
   "health"].

(** [ALLOWED.has(action)] *)
Definition ALLOWED_has (action : string) : bool :=
  existsb (String.eqb action) ALLOWED.

Definition GOOGLE_PLACES_BASE : string := "https://places.googleapis.com/v1".

(** ** Requests, responses and the environment of a handler *)

(** An outbound call [fetch(url, { method, headers, body })]; the body is the
    value given to [JSON.stringify]. *)
Record Fetch : Type := mkFetch {
  f_method : string;
  f_url : string;
  f_headers : list (string * string);
  f_body : option Json
}.

(** What [await r.json()] gives: the decoded body, or the exception. *)
Inductive Decoded : Type :=
| Payload (j : Json)
| SyntaxError (message : string).

(** The provider's response [r]: [r.status], [await r.text()],
    [await r.json()].  The last two are given side by side: [r_json] is what
    decoding the body gives. *)
Record Response : Type := mkResponse {
  r_status : Z;
  r_text : string;
  r_json : Decoded
}.

(** [r.ok] *)
Definition r_ok (r : Response) : bool :=
  ((200 <=? r_status r) && (r_status r <=? 299))%bool.

(** [await fetch(...)] resolves with a response or rejects. *)
Inductive FetchOutcome : Type :=
| Resolved (r : Response)
| Rejected (message : string).

(** [req.body.placeIds]: missing, an array of identifiers, or any value for
    which [Array.isArray] is false. *)
Inductive PlaceIds : Type :=
| PlaceIds_undefined
| PlaceIds_array (ids : list string)
| PlaceIds_other.

(** [req.body], with the properties the handlers read.  [None] is
    [undefined]; a property that is there has the type the handlers expect
    of it ([placeIds], which the handlers test with [Array.isArray],
    apart). *)
Record Body : Type := mkBody {
  b_action : option string;
  b_placeId : option string;
  b_placeIds : PlaceIds;
  b_fields : option (list string);
  b_textQuery : option string;
  b_regionCode : option string;
  b_pageSize : option Json;
  b_languageCode : option string;
  b_includedType : option string;
  b_lat : option Json;
  b_lng : option Json;
  b_radius : option Json;
  b_maxResultCount : option Json;
  b_input : option string;
  b_types : option string
}.

(** [{}] *)
Definition noBody : Body :=
  mkBody None None PlaceIds_undefined None None None None None None None None
         None None None None.

(** The inbound request: [req.method], [req.query.action],
    [req.headers['x-gateway-key']], [req.body]. *)
Record Request : Type := mkRequest {
  q_method : string;
  q_action : option string;
  q_gateway_key : option string;
  q_body : option Body
}.

(** The response sent: [res.status(code)], the headers set, and the value
    given to [res.json] ([None] for [res.end()]). *)
Record Res : Type := mkRes {
  res_status : Z;
  res_headers : list (string * string);
  res_body : option Json
}.

Definition CORS : list (string * string) :=
  [("Access-Control-Allow-Origin", "*");
   ("Access-Control-Allow-Headers", "Content-Type, x-gateway-key");
   ("Access-Control-Allow-Methods", "POST, GET, OPTIONS")].

(** [process.env], the clock and the provider.  [clock n] is the value of
    [Date.now()] at the [n]-th operation on the cache.  [upstream n f] is
    the provider's answer to the call [f] made as the [n]-th outbound call
    of one lookup (0 for the first call, 1 for the call after it). *)
Record Env : Type := mkEnv {
  GATEWAY_TOKEN : option string;
  GOOGLE_PLACES_API_KEY : option string;
  clock : nat -> Z;
  upstream : nat -> Fetch -> FetchOutcome
}.

(** The state a handler runs in: the cache, the number of operations ([get]
    and [put]) made on it so far, and the outbound calls issued so far. *)
Record World : Type := mkWorld {
  CACHE : Cache;
  ticks : nat;
  sent : list Fetch
}.

(** ** A state and exception monad for the handlers *)

Inductive Outcome (A : Type) : Type :=
| Returned (a : A)
| Thrown (message : string).

Arguments Thrown {A} message.

Definition M (A : Type) : Type := World -> Outcome A * World.

Definition ret {A : Type} (a : A) : M A := fun w => (Returned a, w).

Definition throw {A : Type} (message : string) : M A :=
  fun w => (Thrown message, w).

Definition bind {A B : Type} (m : M A) (k : A -> M B) : M B :=
  fun w =>
    match m w with
    | (Returned a, w') => k a w'
    | (Thrown e, w') => (Thrown e, w')
    end.

(** [try { m } catch (e) { h(e) }] *)
Definition try_catch {A : Type} (m : M A) (h : string -> M A) : M A :=
  fun w =>
    match m w with
    | (Returned a, w') => (Returned a, w')
    | (Thrown e, w') => h e w'
    end.

Notation "x <- m ;; k" := (bind m (fun x => k))
  (at level 61, m at next level, right associativity).
Notation "m ;;; k" := (bind m (fun _ => k))
  (at level 61, right associativity).

(** JavaScript truthiness of an optional string. *)
Definition nonEmpty (s : option string) : bool :=
  match s with
  | Some s => negb (s =? "")%string
  | None => false
  end.

(** [a || b] on optional strings. *)
Definition orElse (a b : option string) : option string :=
  if nonEmpty a then a else b.

(** [a === b] on optional strings. *)
Definition strictEq (a b : option string) : bool :=
  match a, b with
  | Some x, Some y => (x =? y)%string
  | None, None => true
  | _, _ => false
  end.

(** [x == null] *)
Definition isNullish (x : option Json) : bool :=
  match x with
  | None => true
  | Some JNull => true
  | Some _ => false
  end.

(** An object literal; a property whose value is [undefined] is left out, as
    [JSON.stringify] and [res.json] do. *)
Fixpoint definedProps (ps : list (string * option Json))
  : list (string * Json) :=
  match ps with
  | [] => []
  | (k, Some v) :: ps' => (k, v) :: definedProps ps'
  | (_, None) :: ps' => definedProps ps'
  end.

Definition object (ps : list (string * option Json)) : Json :=
  JObj (definedProps ps).

Definition optStr (s : option string) : option Json := option_map JStr s.

Section Runtime.

Variable env : Env.

(** [get(k)] on [CACHE]. *)
Definition cacheGet (k : string) : M Json :=
  fun w =>
    let (v, c) := get (clock env (ticks w)) k (CACHE w) in
    (Returned v, mkWorld c (S (ticks w)) (sent w)).

(** [put(k, v, ttlSec)] on [CACHE]. *)
Definition cachePut (k : string) (v : Json) (ttlSec : Z) : M unit :=
  fun w =>
    (Returned tt,
     mkWorld (put (clock env (ticks w)) k v ttlSec (CACHE w))
             (S (ticks w)) (sent w)).

(** [CACHE.size] *)
Definition cacheSize : M Z := fun w => (Returned (Map_size (CACHE w)), w).

(** Issuing the call [f]. *)
Definition issue (f : Fetch) : M unit :=
  fun w => (Returned tt, mkWorld (CACHE w) (ticks w) (sent w ++ [f])).

(** The promise of the [n]-th call of a lookup settling. *)
Definition settle (n : nat) (f : Fetch) : M Response :=
  match upstream env n f with
  | Resolved r => ret r
  | Rejected e => throw e
  end.

(** [await fetch(...)] *)
Definition fetch (n : nat) (f : Fetch) : M Response :=
  issue f ;;; settle n f.

(** [await r.json()] *)
Definition json (r : Response) : M Json :=
  match r_json r with
  | Payload j => ret j
  | SyntaxError e => throw e
  end.

(** [res.status(code).json(body)] *)
Definition respond (code : Z) (body : Json) : M Res :=
  ret (mkRes code CORS (Some body)).

Definition error (code : Z) (name : string) : M Res :=
  respond code (JObj [("error", JStr name)]).

(** [res.status(r.status).json({ error: 'google_error', body })] *)
Definition google_error (status : Z) (bodyText : string) : M Res :=
  respond status
          (JObj [("error", JStr "google_error"); ("body", JStr bodyText)]).

End Runtime.

(** ** [Promise.all(ids.map(callback))]

    An [async] callback runs synchronously up to its first [await]; what it
    does after that runs when the awaited promise has settled.  A callback
    is therefore a computation that either returns its value at once or
    hands back the rest of its body.  The rest of a body runs in one piece:
    after its first [await] a callback of the handlers reads nothing that a
    sibling writes, and the provider's answer depends on the call alone, so
    only the order in which the callbacks finish is left to the
    environment. *)

Definition Async : Type := M (Json + M Json).

Inductive Promise : Type :=
| Pending (rest : M Json)
| Fulfilled (v : Json)
| Failed (message : string).

(** Calling a callback: its synchronous part. *)
Definition call (m : Async) (w : World) : Promise * World :=
  match m w with
  | (Returned (inl v), w') => (Fulfilled v, w')
  | (Returned (inr rest), w') => (Pending rest, w')
  | (Thrown e, w') => (Failed e, w')
  end.

(** [ids.map(callback)] *)
Fixpoint mapCall (callback : string -> Async) (ids : list string) (w : World)
  : list Promise * World :=
  match ids with
  | [] => ([], w)
  | pid :: ids' =>
      let (p, w1) := call (callback pid) w in
      let (ps, w2) := mapCall callback ids' w1 in
      (p :: ps, w2)
  end.

Fixpoint update {A : Type} (i : nat) (x : A) (l : list A) : list A :=
  match l, i with
  | [], _ => []
  | _ :: l', O => x :: l'
  | y :: l', S i' => y :: update i' x l'
  end.

(** The first rejection, which is the one [Promise.all] rejects with. *)
Definition firstFailed (ps : list Promise) : option string :=
  match find (fun p => match p with Failed _ => true | _ => false end) ps with
  | Some (Failed e) => Some e
  | _ => None
  end.

Definition noteFailure (err : option string) (e : string) : option string :=
  match err with
  | Some e0 => Some e0
  | None => Some e
  end.

(** The awaited promise of callback [i] settles and the callback runs to its
    end.  Nothing happens when callback [i] has finished already.  A
    callback of [src/api/places.ts] awaits again after its first call (the
    text of the body, the call made again, the decoded body); here all of
    that is one step, so a schedule orders the callbacks as wholes and does
    not alternate between two of them.  The finer interleavings differ from
    these in how the order of the calls made again relates to the order of
    the entries in the Map; the statements of this file about a batch are
    about its response, about its calls or about its cache, and none
    relates the two orders. *)
Definition resume (i : nat) (st : list Promise * option string * World)
  : list Promise * option string * World :=
  let '(ps, err, w) := st in
  match nth_error ps i with
  | Some (Pending rest) =>
      match rest w with
      | (Returned v, w') => (update i (Fulfilled v) ps, err, w')
      | (Thrown e, w') => (update i (Failed e) ps, noteFailure err e, w')
      end
  | _ => st
  end.

Definition value (p : Promise) : Json :=
  match p with
  | Fulfilled v => v
  | _ => JNull
  end.

(** [await Promise.all(ids.map(callback))].  The callbacks finish in the
    order [order] (indices into [ids]); the callbacks [order] leaves out
    finish after those, in the order of [ids], so that every list is a
    schedule and every order of completion is the schedule of some list.
    The result is the array of the values in the order of [ids], or the
    exception of the first rejection; the state is the one reached when all
    callbacks have finished. *)
Definition Promise_all (order : list nat) (callback : string -> Async)
           (ids : list string) : M (list Json) :=
  fun w =>
    let (ps, w1) := mapCall callback ids w in
    let '(ps', err, w2) :=
      fold_left (fun st i => resume i st)
                (order ++ seq 0 (List.length ids))
                (ps, firstFailed ps, w1) in
    match err with
    | Some e => (Thrown e, w2)
    | None => (Returned (map value ps'), w2)
    end.

(** ** The operations the two files share *)

Section Shared.

Variable env : Env.

Definition orDefault {A : Type} (d : A) (x : option A) : A :=
  match x with
  | Some a => a
  | None => d
  end.

(** [if (!r.ok) return ...google_error...; const json = await r.json();
    return res.json({ data: json });] *)
Definition passThrough (r : Response) : M Res :=
  if negb (r_ok r) then google_error (r_status r) (r_text r)
  else j <- json r ;; respond 200 (JObj [("data", j)]).

(** [action === 'searchText'] *)
Definition searchText (GOOGLE_API_KEY : string) (b : Body) : M Res :=
  if negb (nonEmpty (b_textQuery b)) then error 400 "textQuery_required"
  else
    let body :=
      object [("textQuery", optStr (b_textQuery b));
              ("regionCode", optStr (b_regionCode b));
              ("pageSize", Some (orDefault (JNum 10) (b_pageSize b)));
              ("languageCode", optStr (b_languageCode b));
              ("includedType", optStr (b_includedType b))] in
    let url := GOOGLE_PLACES_BASE ++ "/text:search" in
    r <- fetch env 0
           (mkFetch "POST" url
                    [("X-Goog-Api-Key", GOOGLE_API_KEY);
                     ("Content-Type", "application/json")]
                    (Some body)) ;;
    passThrough r.

(** [action === 'nearbySearch'] *)
Definition nearbySearch (GOOGLE_API_KEY : string) (b : Body) : M Res :=
  if (isNullish (b_lat b) || isNullish (b_lng b))%bool
  then error 400 "lat_lng_required"
  else
    let url := GOOGLE_PLACES_BASE ++ "/places:searchNearby" in
    let body :=
      object
        [("locationRestriction",
          Some (object
            [("circle",
              Some (object
                [("center",
                  Some (object [("latitude", b_lat b);
                                ("longitude", b_lng b)]));
                 ("radius",
                  Some (orDefault (JNum 1000) (b_radius b)))]))]));
         ("includedTypes",
          if nonEmpty (b_includedType b)
          then Some (JArr [orDefault JNull (optStr (b_includedType b))])
          else None);
         ("maxResultCount",
          Some (orDefault (JNum 20) (b_maxResultCount b)))] in
    r <- fetch env 0
           (mkFetch "POST" url
                    [("X-Goog-Api-Key", GOOGLE_API_KEY);
                     ("Content-Type", "application/json")]
                    (Some body)) ;;
    passThrough r.

(** [...(x ? { name: x } : {})] *)
Definition spreadIf (name : string) (x : option string)
  : list (string * string) :=
  if nonEmpty x then [(name, orDefault "" x)] else [].

(** [action === 'autocomplete'] *)
Definition autocomplete (GOOGLE_API_KEY : string) (b : Body) : M Res :=
  if negb (nonEmpty (b_input b)) then error 400 "input_required"
  else
    let params :=
      ([("input", orDefault "" (b_input b))]
         ++ spreadIf "languageCode" (b_languageCode b)
         ++ spreadIf "regionCode" (b_regionCode b)
         ++ spreadIf "types" (b_types b))%list in
    let url :=
      "https://places.googleapis.com/v1/places:autocomplete?"
        ++ URLSearchParams_toString params in
    r <- fetch env 0
           (mkFetch "GET" url [("X-Goog-Api-Key", GOOGLE_API_KEY)] None) ;;
    passThrough r.

(** The outbound GET of a detail lookup:
<<
`${GOOGLE_PLACES_BASE}/places/${encodeURIComponent(id)}?fields=${encodeURIComponent(fields.join(','))}`
>> with the headers [X-Goog-Api-Key] and [X-Goog-FieldMask]. *)
Definition detailsFetch (GOOGLE_API_KEY id : string) (fields : list string)
  : Fetch :=
  mkFetch "GET"
          (GOOGLE_PLACES_BASE ++ "/places/" ++ encodeURIComponent id
             ++ "?fields=" ++ encodeURIComponent (join "," fields))
          [("X-Goog-Api-Key", GOOGLE_API_KEY);
           ("X-Goog-FieldMask", join "," fields)]
          None.

(** The per-item entries of a batch response. *)
Definition itemSuccess (id : string) (j : Json) (cached : bool) : Json :=
  JObj [("placeId", JStr id); ("data", j); ("cached", JBool cached)].

Definition itemError (id : string) (status : Z) (bodyText : string) : Json :=
  JObj [("placeId", JStr id); ("error", JBool true);
        ("status", JNum status); ("body", JStr bodyText)].

(** [(req.query.action || req.body?.action || '').toString()], for an action
    that is a string or is missing, which is what [Request] can hold.  The
    call of [toString] stands before the [try] block: for an action that is
    an object with a property [toString] that cannot be called it throws,
    and the handler ends without a response.  No value of [Request] is such
    a request, and no statement about [Request] covers one. *)
Definition actionOf (req : Request) : string :=
  orDefault ""
    (orElse (orElse (q_action req)
                    (match q_body req with
                     | Some b => b_action b
                     | None => None
                     end))
            (Some "")).

(** [!process.env.GATEWAY_TOKEN || gatewayKey !== process.env.GATEWAY_TOKEN] *)
Definition unauthorized (req : Request) : bool :=
  (negb (nonEmpty (GATEWAY_TOKEN env))
   || negb (strictEq (q_gateway_key req) (GATEWAY_TOKEN env)))%bool.

(** The part of [handler] that is the same in the two files; [routes] is
    the body of the [try] block. *)
Definition dispatch (routes : string -> string -> Body -> M Res)
           (req : Request) : M Res :=
  if (q_method req =? "OPTIONS")%string then ret (mkRes 204 CORS None)
  else
    let action := actionOf req in
    if negb (ALLOWED_has action) then error 400 "invalid_action"
    else if unauthorized req then error 401 "unauthorized"
    else if (action =? "health")%string then
      n <- cacheSize ;;
      respond 200 (JObj [("ok", JBool true); ("cacheEntries", JNum n)])
    else
      match GOOGLE_PLACES_API_KEY env with
      | None => error 500 "missing_google_api_key"
      | Some GOOGLE_API_KEY =>
          if (GOOGLE_API_KEY =? "")%string
          then error 500 "missing_google_api_key"
          else
            try_catch
              (routes GOOGLE_API_KEY action (orDefault noBody (q_body req)))
              (fun message =>
                 respond 500 (JObj [("error", JStr "gateway_exception");
                                    ("message", JStr message)]))
      end.

End Shared.

(** ** [src/api/places.ts] *)

Module Places.

(** [id?.startsWith('places/') ? id.slice(7) : id] *)
Definition normalizeId (id : string) : string :=
  if startsWith "places/" id then slice 7 id else id.

Definition DEFAULT_FIELDS : list string :=
  ["id"; "displayName"; "formattedAddress"; "rating"; "userRatingCount";
   "reviews.rating"; "reviews.text"; "reviews.publishTime";
   "reviews.relativePublishTimeDescription";
   "reviews.authorAttribution.displayName";
   "reviews.authorAttribution.uri";
   "reviews.authorAttribution.photoUri"].

(** [`details:${rawId}:${fields.slice().sort().join(',')}`] *)
Definition cacheKeyOf (rawId : string) (fields : list string) : string :=
  "details:" ++ rawId ++ ":" ++ join "," (sort fields).

Section Handler.

Variable env : Env.

(** The callback of [placeIds.map] in the [batchDetails] branch. *)
Definition batchItem (GOOGLE_API_KEY : string) (fields : list string)
           (pid : string) : Async :=
  let rawId := normalizeId pid in
  let cacheKey := cacheKeyOf rawId fields in
  cached <- cacheGet env cacheKey ;;
  if truthy cached then ret (inl (itemSuccess rawId cached true))
  else
    let f := detailsFetch GOOGLE_API_KEY rawId fields in
    issue f ;;;
    ret (inr
      (let finish (r : Response) : M Json :=
         if negb (r_ok r)
         then ret (itemError rawId (r_status r) (r_text r))
         else
           j <- json r ;;
           cachePut env cacheKey j 3600 ;;;
           ret (itemSuccess rawId j false) in
       r <- settle env 0 f ;;
       if negb (r_ok r) then
         let bodyText := r_text r in
         if ((r_status r =? 400) && fieldsErrorTest bodyText)%bool then
           r' <- fetch env 1
                   (detailsFetch GOOGLE_API_KEY rawId DEFAULT_FIELDS) ;;
           finish r'
         else ret (itemError rawId (r_status r) bodyText)
       else finish r)).

(** [action === 'batchDetails'] *)
Definition batchDetails (order : list nat) (GOOGLE_API_KEY : string)
           (b : Body) : M Res :=
  let placeIds :=
    match b_placeIds b with
    | PlaceIds_undefined => PlaceIds_array []
    | p => p
    end in
  let fields := orDefault DEFAULT_FIELDS (b_fields b) in
  match placeIds with
  | PlaceIds_array ids =>
      if Nat.eqb (List.length ids) 0 then error 400 "placeIds_required"
      else if Nat.ltb 50 (List.length ids)
      then error 400 "too_many_placeIds_max_50"
      else
        results <- Promise_all order
                     (batchItem GOOGLE_API_KEY fields) ids ;;
        respond 200 (JObj [("results", JArr results)])
  | _ => error 400 "placeIds_required"
  end.

(** [action === 'details'] *)
Definition details (GOOGLE_API_KEY : string) (b : Body) : M Res :=
  let fields := orDefault DEFAULT_FIELDS (b_fields b) in
  if negb (nonEmpty (b_placeId b)) then error 400 "placeId_required"
  else
    let rawId := normalizeId (orDefault "" (b_placeId b)) in
    let cacheKey := cacheKeyOf rawId fields in
    cached <- cacheGet env cacheKey ;;
    if truthy cached
    then respond 200 (JObj [("data", cached); ("cached", JBool true)])
    else
      let finish (r : Response) : M Res :=
        if negb (r_ok r) then google_error (r_status r) (r_text r)
        else
          j <- json r ;;
          cachePut env cacheKey j 3600 ;;;
          respond 200 (JObj [("data", j); ("cached", JBool false)]) in
      r <- fetch env 0 (detailsFetch GOOGLE_API_KEY rawId fields) ;;
      if negb (r_ok r) then
        let bodyText := r_text r in
        if ((r_status r =? 400) && fieldsErrorTest bodyText)%bool then
          let fields := DEFAULT_FIELDS in
          r' <- fetch env 1 (detailsFetch GOOGLE_API_KEY rawId fields) ;;
          finish r'
        else google_error (r_status r) bodyText
      else finish r.

(** The body of the [try] block. *)
Definition routes (order : list nat) (GOOGLE_API_KEY action : string)
           (b : Body) : M Res :=
  if (action =? "batchDetails")%string
  then batchDetails order GOOGLE_API_KEY b
  else if (action =? "details")%string then details GOOGLE_API_KEY b
  else if (action =? "searchText")%string
  then searchText env GOOGLE_API_KEY b
  else if (action =? "nearbySearch")%string
  then nearbySearch env GOOGLE_API_KEY b
  else if (action =? "autocomplete")%string
  then autocomplete env GOOGLE_API_KEY b
  else error 400 "unhandled_action".

(** [export default async function handler(req, res)]; [order] is the
    order in which the lookups of a batch finish. *)
Definition handler (order : list nat) (req : Request) : M Res :=
  dispatch env (routes order) req.

End Handler.

End Places.

(** ** The second handler file ([src/unnamed/part_000]) *)

Module Part000.

(** The literal default of [fields], written out in both branches. *)
Definition defaultFields : list string :=
  ["id"; "displayName"; "formattedAddress"; "rating"; "userRatingCount";
   "reviews"].

(** [`details:${id}:${fields.sort().join(',')}`] *)
Definition cacheKeyOf (id : string) (fields : list string) : string :=
  "details:" ++ id ++ ":" ++ join "," (sort fields).

Section Handler.

Variable env : Env.

(** The callback of [placeIds.map].  [fields.sort()] sorts the array
    that all callbacks share in place: from there on [fields] is the
    sorted array, in this callback and in the ones after it, for which
    sorting it again changes nothing. *)
Definition batchItem (GOOGLE_API_KEY : string) (fields : list string)
           (pid : string) : Async :=
  let cacheKey := cacheKeyOf pid fields in
  let fields := sort fields in
  cached <- cacheGet env cacheKey ;;
  if truthy cached then ret (inl (itemSuccess pid cached true))
  else
    let f := detailsFetch GOOGLE_API_KEY pid fields in
    issue f ;;;
    ret (inr
      (r <- settle env 0 f ;;
       if negb (r_ok r)
       then ret (itemError pid (r_status r) (r_text r))
       else
         j <- json r ;;
         cachePut env cacheKey j 3600 ;;;
         ret (itemSuccess pid j false))).

(** [action === 'batchDetails'] *)
Definition batchDetails (order : list nat) (GOOGLE_API_KEY : string)
           (b : Body) : M Res :=
  let placeIds :=
    match b_placeIds b with
    | PlaceIds_undefined => PlaceIds_array []
    | p => p
    end in
  let fields := orDefault defaultFields (b_fields b) in
  match placeIds with
  | PlaceIds_array ids =>
      if Nat.eqb (List.length ids) 0 then error 400 "placeIds_required"
      else if Nat.ltb 50 (List.length ids)
      then error 400 "too_many_placeIds_max_50"
      else
        results <- Promise_all order
                     (batchItem GOOGLE_API_KEY fields) ids ;;
        respond 200 (JObj [("results", JArr results)])
  | _ => error 400 "placeIds_required"
  end.

(** [action === 'details'] *)
Definition details (GOOGLE_API_KEY : string) (b : Body) : M Res :=
  let fields := orDefault defaultFields (b_fields b) in
  if negb (nonEmpty (b_placeId b)) then error 400 "placeId_required"
  else
    let placeId := orDefault "" (b_placeId b) in
    let cacheKey := cacheKeyOf placeId fields in
    let fields := sort fields in
    cached <- cacheGet env cacheKey ;;
    if truthy cached
    then respond 200 (JObj [("data", cached); ("cached", JBool true)])
    else
      r <- fetch env 0 (detailsFetch GOOGLE_API_KEY placeId fields) ;;
      if negb (r_ok r) then google_error (r_status r) (r_text r)
      else
        j <- json r ;;
        cachePut env cacheKey j 3600 ;;;
        respond 200 (JObj [("data", j); ("cached", JBool false)]).

(** The body of the [try] block. *)
Definition routes (order : list nat) (GOOGLE_API_KEY action : string)
           (b : Body) : M Res :=
  if (action =? "batchDetails")%string
  then batchDetails order GOOGLE_API_KEY b
  else if (action =? "details")%string then details GOOGLE_API_KEY b
  else if (action =? "searchText")%string
  then searchText env GOOGLE_API_KEY b
  else if (action =? "nearbySearch")%string
  then nearbySearch env GOOGLE_API_KEY b
  else if (action =? "autocomplete")%string
  then autocomplete env GOOGLE_API_KEY b
  else error 400 "unhandled_action".

Definition handler (order : list nat) (req : Request) : M Res :=
  dispatch env (routes order) req.

End Handler.

End Part000.

(** ** Histories of the cache

    The cache of a process is the one its [put]s and [get]s have built from
    the empty [Map]. *)

Inductive CacheOp : Type :=
| OpPut (now : Z) (k : string) (v : Json) (ttlSec : Z)
| OpGet (now : Z) (k : string).

Definition step (c : Cache) (o : CacheOp) : Cache :=
  match o with
  | OpPut now k v ttlSec => put now k v ttlSec c
  | OpGet now k => snd (get now k c)
  end.

Definition run (ops : list CacheOp) : Cache := fold_left step ops [].

(** [k] is a key of the cache. *)
Definition Map_has (k : string) (c : Cache) : bool :=
  match Map_get k c with
  | Some _ => true
  | None => false
  end.

(** When the entries of a cache were inserted: a history is followed
    together with, for every key, the index of the operation that inserted the
    entry the cache holds for it.  An entry is inserted by the operation
    before which its key is absent and after which it is present; writing to
    a key that is present inserts nothing. *)
Definition track (st : Cache * (string -> option nat) * nat) (o : CacheOp)
  : Cache * (string -> option nat) * nat :=
  let '(c, born, i) := st in
  let c' := step c o in
  (c',
   fun k => if Map_has k c' then (if Map_has k c then born k else Some i)
            else None,
   S i).

Definition tracked (ops : list CacheOp)
  : Cache * (string -> option nat) * nat :=
  fold_left track ops ([], fun _ => None, O).

(** [insertedAt ops k]: the index in [ops] of the operation that inserted
    the entry of [k] that the cache holds after [ops]. *)
Definition insertedAt (ops : list CacheOp) (k : string) : option nat :=
  snd (fst (tracked ops)) k.

(** A well-formed cache: no key twice, and within the capacity. *)
Definition wf (c : Cache) : Prop :=
  NoDup (Map_keys c) /\ Map_size c <= MAX_ENTRIES.

(** Under the insertion times [born], the entry of [k1] was inserted before
    the entry of [k2]. *)
Definition insertedBefore (born : string -> option nat) (k1 k2 : string)
  : Prop :=
  exists b1 b2, born k1 = Some b1 /\ born k2 = Some b2 /\ (b1 < b2)%nat.

(** The invariant of [track]: the cache is well formed, every key of the
    cache has an insertion time below the current index, and the keys are
    in the order of their insertion times. *)
Definition tracks (st : Cache * (string -> option nat) * nat) : Prop :=
  let '(c, born, i) := st in
  wf c
  /\ (forall k, In k (Map_keys c) -> exists b, born k = Some b /\ (b < i)%nat)
  /\ StronglySorted (insertedBefore born) (Map_keys c).

(** The order of the default comparator of [sort]. *)
Definition le_string (a b : string) : Prop := (a <=? b)%string = true.


(** The request [req] gets to the [try] block as the action [action]: it is
    not a CORS preflight, its action is [action], it carries the gateway
    token, and the provider key [key] is configured. *)
Definition dispatched (env : Env) (req : Request) (action key : string)
  : Prop :=
  q_method req <> "OPTIONS"
  /\ actionOf req = action
  /\ unauthorized env req = false
  /\ GOOGLE_PLACES_API_KEY env = Some key
  /\ key <> "".

(** [res.status(code).json({ error: name })] as a value. *)
Definition errorRes (code : Z) (name : string) : Res :=
  mkRes code CORS (Some (JObj [("error", JStr name)])).

(** [req.body || {}] *)
Definition bodyOf (req : Request) : Body := orDefault noBody (q_body req).

(** ** Sample environments and requests *)

(** A server with both tokens set, a clock that stands still, and the
    provider [up]. *)
Definition sampleEnv (up : nat -> Fetch -> FetchOutcome) : Env :=
  mkEnv (Some "tok") (Some "gkey") (fun _ => 0) up.

Definition unreachable : nat -> Fetch -> FetchOutcome :=
  fun _ _ => Rejected "down".

(** A POST carrying the gateway token [tok]. *)
Definition post (b : Body) : Request :=
  mkRequest "POST" None (Some "tok") (Some b).

(** [{ action: 'batchDetails', placeIds, fields }] *)
Definition batchBody (ids : list string) (fields : option (list string))
  : Body :=
  mkBody (Some "batchDetails") None (PlaceIds_array ids) fields None None
         None None None None None None None None None.

(** [{ action: 'details', placeId, fields }] *)
Definition detailsBody (id : string) (fields : option (list string)) : Body :=
  mkBody (Some "details") (Some id) PlaceIds_undefined fields None None
         None None None None None None None None None.

(** The state of a process that has just started. *)
Definition freshWorld : World := mkWorld [] 0 [].

(** [res.status(status).json({ error: 'google_error', body })] as a value. *)
Definition googleErrorRes (status : Z) (bodyText : string) : Res :=
  mkRes status CORS
        (Some (JObj [("error", JStr "google_error"); ("body", JStr bodyText)])).

(** [res.json({ data, cached })] as a value. *)
Definition dataRes (j : Json) (cached : bool) : Res :=
  mkRes 200 CORS (Some (JObj [("data", j); ("cached", JBool cached)])).

(** The lookup of [cacheKey] in the state [w] misses: [get] returns a value
    that is not truthy. *)
Definition misses (env : Env) (w : World) (cacheKey : string) : Prop :=
  truthy (fst (get (clock env (ticks w)) cacheKey (CACHE w))) = false.

(** The state after [get(cacheKey)] in the state [w]. *)
Definition afterGet (env : Env) (w : World) (cacheKey : string) : World :=
  mkWorld (snd (get (clock env (ticks w)) cacheKey (CACHE w)))
          (S (ticks w)) (sent w).

(** The state after issuing the calls [fs]. *)
Definition afterCalls (w : World) (fs : list Fetch) : World :=
  mkWorld (CACHE w) (ticks w) (sent w ++ fs).

(** The state after [put(cacheKey, j, 3600)] in the state [w]. *)
Definition afterPut (env : Env) (w : World) (cacheKey : string) (j : Json)
  : World :=
  mkWorld (put (clock env (ticks w)) cacheKey j 3600 (CACHE w))
          (S (ticks w)) (sent w).

(** The response is a field-mask error: [r.status === 400] and the body
    matches the pattern. *)
Definition isFieldMaskError (r : Response) : bool :=
  ((r_status r =? 400) && fieldsErrorTest (r_text r))%bool.

(** ** What a lookup ends with *)

(** In [src/api/places.ts] a detail lookup ends with the first response, or,
    when that one is a field-mask error, with the response to the call made
    again with [DEFAULT_FIELDS]. *)
Definition lookupPlaces (env : Env) (key rawId : string)
           (fields : list string) : FetchOutcome :=
  match upstream env 0 (detailsFetch key rawId fields) with
  | Resolved r =>
      if (negb (r_ok r) && isFieldMaskError r)%bool
      then upstream env 1 (detailsFetch key rawId Places.DEFAULT_FIELDS)
      else Resolved r
  | Rejected e => Rejected e
  end.

(** In the second handler file a detail lookup ends with the first
    response; the call carries the sorted field list. *)
Definition lookupPart000 (env : Env) (key id : string)
           (fields : list string) : FetchOutcome :=
  upstream env 0 (detailsFetch key id (sort fields)).

(** The calls a lookup of [src/api/places.ts] sends after its first one. *)
Definition secondCalls (env : Env) (key rawId : string)
           (fields : list string) : list Fetch :=
  match upstream env 0 (detailsFetch key rawId fields) with
  | Resolved r =>
      if (negb (r_ok r) && isFieldMaskError r)%bool
      then [detailsFetch key rawId Places.DEFAULT_FIELDS]
      else []
  | Rejected _ => []
  end.

(** The entry of the identifier [id] in a batch response, given the value
    [cached] that [get] returned to its callback and what its lookup ends
    with.  A truthy [cached] is answered at once, in a success entry with
    [cached: true], and no lookup is made.  Otherwise the entry is the one
    of the lookup: a success entry with the decoded payload of a 2xx
    response and [cached: false], or an error entry with the status and body
    of a response that is not 2xx.  A rejected call and a 2xx body that does
    not decode throw: there is no entry. *)
Definition entryOf (id : string) (cached : Json) (out : FetchOutcome)
  : option Json :=
  if truthy cached then Some (itemSuccess id cached true)
  else
    match out with
    | Rejected _ => None
    | Resolved r =>
        if r_ok r then
          match r_json r with
          | Payload j => Some (itemSuccess id j false)
          | SyntaxError _ => None
          end
        else Some (itemError id (r_status r) (r_text r))
    end.

(** [v] is that entry. *)
Definition itemEntry (id : string) (cached : Json) (out : FetchOutcome)
           (v : Json) : Prop :=
  entryOf id cached out = Some v.

(** [results] are the entries of the identifiers [ids] of a batch that
    starts with the cache [c] at the tick [t] of the clock.  [placeIds.map]
    runs the callbacks one after the other up to their first [await]: the
    callback of an identifier calls [get] after the callbacks of the
    identifiers before it have done so, and before any lookup has ended and
    stored its payload.  [idOf pid] is the identifier the entry carries,
    [keyOf pid] the cache key and [lookup pid] what the lookup ends with. *)
Fixpoint batchEntries (env : Env) (idOf keyOf : string -> string)
         (lookup : string -> FetchOutcome) (ids : list string) (c : Cache)
         (t : nat) (results : list Json) : Prop :=
  match ids, results with
  | [], [] => True
  | pid :: ids', v :: results' =>
      itemEntry (idOf pid) (fst (get (clock env t) (keyOf pid) c))
                (lookup pid) v
      /\ batchEntries env idOf keyOf lookup ids'
                      (snd (get (clock env t) (keyOf pid) c)) (S t) results'
  | _, _ => False
  end.

(** The provider answers every call, and the body of every 2xx response
    decodes. *)
Definition answers (env : Env) : Prop :=
  forall n f, exists r,
    upstream env n f = Resolved r
    /\ (r_ok r = true -> exists j, r_json r = Payload j).

(** [v] is a success entry [{ placeId, data, cached }]. *)
Definition isSuccessEntry (id : string) (v : Json) : Prop :=
  exists j cached, v = itemSuccess id j cached.

(** [v] is an error entry [{ placeId, error: true, status, body }]. *)
Definition isErrorEntry (id : string) (v : Json) : Prop :=
  exists status bodyText, v = itemError id status bodyText.

(** The promise [p] is settled with the value [v], or will be whenever it
    is resumed. *)
Definition yields (p : Promise) (v : Json) : Prop :=
  p = Fulfilled v
  \/ exists rest, p = Pending rest
                  /\ forall w, exists w', rest w = (Returned v, w').

(** What the callback of a batch does once its lookup has ended with [out],
    in the state [w]: an error entry for a response that is not ok;
    otherwise the payload is decoded, stored under [cacheKey] for an hour,
    and returned in a success entry.  A rejected call and a body that does
    not decode throw. *)
Definition finishItem (env : Env) (id cacheKey : string) (out : FetchOutcome)
           (w : World) : Outcome Json * World :=
  match out with
  | Rejected e => (Thrown e, w)
  | Resolved r =>
      if r_ok r then
        match r_json r with
        | Payload j =>
            (Returned (itemSuccess id j false), afterPut env w cacheKey j)
        | SyntaxError e => (Thrown e, w)
        end
      else (Returned (itemError id (r_status r) (r_text r)), w)
  end.

(** The same for the [details] branch. *)
Definition finishDetails (env : Env) (cacheKey : string) (out : FetchOutcome)
           (w : World) : Outcome Res * World :=
  match out with
  | Rejected e => (Thrown e, w)
  | Resolved r =>
      if r_ok r then
        match r_json r with
        | Payload j => (Returned (dataRes j false), afterPut env w cacheKey j)
        | SyntaxError e => (Thrown e, w)
        end
      else (Returned (googleErrorRes (r_status r) (r_text r)), w)
  end.

(** [res.json({ results })] as a value. *)
Definition batchRes (results : list Json) : Res :=
  mkRes 200 CORS (Some (JObj [("results", JArr results)])).

(** A provider that knows every place but [ChIJbad], for which it answers
    404. *)
Definition oneUnknown : nat -> Fetch -> FetchOutcome :=
  fun _ f =>
    if includes "/places/ChIJbad?" (f_url f)
    then Resolved (mkResponse 404 "not found" (SyntaxError "Unexpected token"))
    else Resolved (mkResponse 200 "{}" (Payload (JObj [("id", JStr "x")]))).

(** A provider that rejects the field [bogus] with the field-mask error and
    answers every other call with a place. *)
Definition rejectsBogus : nat -> Fetch -> FetchOutcome :=
  fun _ f =>
    if includes "bogus" (f_url f)
    then Resolved
           (mkResponse 400
              "Error expanding 'fields' parameter. Cannot find matching fields for path 'bogus'."
              (SyntaxError "Unexpected token"))
    else Resolved (mkResponse 200 "{}" (Payload (JObj [("id", JStr "x")]))).

(** The 400 of [rejectsBogus] and the payload of its 200. *)
Definition bogusError : Response :=
  mkResponse 400
    "Error expanding 'fields' parameter. Cannot find matching fields for path 'bogus'."
    (SyntaxError "Unexpected token").

Definition place : Json := JObj [("id", JStr "x")].

Definition placeFound : Response := mkResponse 200 "{}" (Payload place).

(** A provider that cannot be reached for [ChIJbad] and knows every other
    place. *)
Definition oneUnreachable : nat -> Fetch -> FetchOutcome :=
  fun _ f =>
    if includes "/places/ChIJbad?" (f_url f)
    then Rejected "request to https://places.googleapis.com failed"
    else Resolved placeFound.

(** A provider whose 200 for [ChIJbad] has a body that is not JSON. *)
Definition oneGarbled : nat -> Fetch -> FetchOutcome :=
  fun _ f =>
    if includes "/places/ChIJbad?" (f_url f)
    then Resolved (mkResponse 200 "<html>" (SyntaxError "Unexpected token <"))
    else Resolved placeFound.

(** [res.status(500).json({ error: 'gateway_exception', message })] as a
    value. *)
Definition exceptionRes (message : string) : Res :=
  mkRes 500 CORS
        (Some (JObj [("error", JStr "gateway_exception");
                     ("message", JStr message)])).

(** A server without provider key. *)
Definition noProviderKey : Env :=
  mkEnv (Some "tok") None (fun _ => 0) unreachable.

(** A CORS preflight for the action [action]: an OPTIONS request, which
    carries no gateway key. *)
Definition preflight (action : string) : Request :=
  mkRequest "OPTIONS" (Some action) None None.

(** The number of callbacks that have not finished. *)
Definition pendingCount (ps : list Promise) : nat :=
  List.length
    (filter (fun p => match p with Pending _ => true | _ => false end) ps).

(** A callback that has not finished sends at most [k] more calls. *)
Definition sendsAtMost (k : nat) (p : Promise) : Prop :=
  match p with
  | Pending rest =>
      forall w,
        (List.length (sent (snd (rest w))) <= List.length (sent w) + k)%nat
  | _ => True
  end.

(** ** A cache at its capacity *)

(** The keys [""], ["k"], ["kk"], ... *)
Fixpoint keyOf (n : nat) : string :=
  match n with
  | O => ""
  | S n' => String "k" (keyOf n')
  end.

(** [n] entries put under the first [n] of these keys, in this order. *)
Definition fill (n : nat) : list CacheOp :=
  map (fun i => OpPut 0 (keyOf i) JNull 3600) (seq 0 n).

(** ** The handlers keep the cache well formed *)

(** The computation [m] leaves a well-formed cache well formed. *)
Definition keeps {A : Type} (m : M A) : Prop :=
  forall w, wf (CACHE w) -> wf (CACHE (snd (m w))).

Definition keepsPromise (p : Promise) : Prop :=
  match p with
  | Pending rest => keeps rest
  | _ => True
  end.

(** The same for a callback, and for the rest of its body. *)
Definition keepsAsync (m : Async) : Prop :=
  forall w, wf (CACHE w) ->
            wf (CACHE (snd (call m w))) /\ keepsPromise (fst (call m w)).

(** ** What a computation returns, and what it sends *)

(** Whatever [m] returns satisfies [Q]. *)
Definition returnsOnly {A : Type} (Q : A -> Prop) (m : M A) : Prop :=
  forall w,
    match fst (m w) with
    | Returned a => Q a
    | Thrown _ => True
    end.

(** [m] does not touch the cache. *)
Definition cacheUntouched {A : Type} (m : M A) : Prop :=
  forall w, CACHE (snd (m w)) = CACHE w /\ ticks (snd (m w)) = ticks w.

(** The response is not the [unhandled_action] of the last line of the
    [try] block. *)
Definition handled (res : Res) : Prop :=
  res_body res <> Some (JObj [("error", JStr "unhandled_action")]).

(** What the responses of the handlers have in common: the three CORS
    headers, and a body that is not [unhandled_action]. *)
Definition wellShaped (res : Res) : Prop :=
  res_headers res = CORS /\ handled res.

(** The response is one of the handler's own errors: its body is
    [{ error: name }] and nothing else. *)
Definition ownError (res : Res) : Prop :=
  exists name, res_body res = Some (JObj [("error", JStr name)]).

(** When [m] answers with one of the handler's own errors it has left the
    state as it was. *)
Definition rejectsEarly (m : M Res) : Prop :=
  forall w,
    match m w with
    | (Returned res, w') => ownError res -> w' = w
    | (Thrown _, _) => True
    end.

(** The request [req] has passed the method, action and gateway-key checks
    as the action [action]. *)
Definition accepted (env : Env) (req : Request) (action : string) : Prop :=
  q_method req <> "OPTIONS"
  /\ actionOf req = action
  /\ unauthorized env req = false.

(** [res.json({ ok: true, cacheEntries })] as a value. *)
Definition healthRes (cacheEntries : Z) : Res :=
  mkRes 200 CORS
        (Some (JObj [("ok", JBool true); ("cacheEntries", JNum cacheEntries)])).

(** The request [req] with the property [action] of its body set to [a]. *)
Definition withBodyAction (a : option string) (req : Request) : Request :=
  mkRequest (q_method req) (q_action req) (q_gateway_key req)
    (match q_body req with
     | Some b =>
         Some (mkBody a (b_placeId b) (b_placeIds b) (b_fields b)
                      (b_textQuery b) (b_regionCode b) (b_pageSize b)
                      (b_languageCode b) (b_includedType b) (b_lat b)
                      (b_lng b) (b_radius b) (b_maxResultCount b)
                      (b_input b) (b_types b))
     | None => None
     end).

(** [{ action: 'health' }] and the bodies of the three searches. *)
Definition healthRequest : Request :=
  mkRequest "GET" (Some "health") (Some "tok") None.

Definition searchBody (action : string) (textQuery : option string)
           (lat lng : option Json) (input : option string) : Body :=
  mkBody (Some action) None PlaceIds_undefined None textQuery None None None
         None lat lng None None input None.

(** ** The three searches *)

(** [res.json({ data })] as a value. *)
Definition searchRes (j : Json) : Res :=
  mkRes 200 CORS (Some (JObj [("data", j)])).

(** What a search answers, given how its one call ends: the payload of a 2xx
    response, the status and body of any other response, and 500
    [gateway_exception] when the call is rejected or the 2xx body does not
    decode. *)
Definition relayRes (out : FetchOutcome) : Res :=
  match out with
  | Rejected e => exceptionRes e
  | Resolved r =>
      if r_ok r then
        match r_json r with
        | Payload j => searchRes j
        | SyntaxError e => exceptionRes e
        end
      else googleErrorRes (r_status r) (r_text r)
  end.

(** [j.name] *)
Definition prop (name : string) (j : Json) : option Json :=
  match j with
  | JObj ps =>
      option_map snd (find (fun p => (fst p =? name)%string) ps)
  | _ => None
  end.

(** [j.a.b.c], for the path [[a; b; c]]. *)
Fixpoint path (names : list string) (j : Json) : option Json :=
  match names with
  | [] => Some j
  | name :: names' =>
      match prop name j with
      | Some j' => path names' j'
      | None => None
      end
  end.

(** [&name=value] when [x] is a non-empty string, nothing otherwise. *)
Definition queryParam (name : string) (x : option string) : string :=
  if nonEmpty x then "&" ++ name ++ "=" ++ formEncode (orDefault "" x)
  else "".

(** ** The calls a computation sends *)

(** Whatever [m] does, it only appends calls to the log of the calls sent,
    and each call it appends satisfies [P]. *)
Definition adds {A : Type} (P : Fetch -> Prop) (m : M A) : Prop :=
  forall w,
  exists calls,
    sent (snd (m w)) = (sent w ++ calls)%list /\ Forall P calls.

Definition addsPromise (P : Fetch -> Prop) (p : Promise) : Prop :=
  match p with
  | Pending rest => adds P rest
  | _ => True
  end.

(** The same for a callback, and for the rest of its body. *)
Definition addsAsync (P : Fetch -> Prop) (m : Async) : Prop :=
  forall w,
    (exists calls,
        sent (snd (call m w)) = (sent w ++ calls)%list /\ Forall P calls)
    /\ addsPromise P (fst (call m w)).

(** A call to the provider made with the key [key]: its URL is below
    [GOOGLE_PLACES_BASE], the key travels in the [X-Goog-Api-Key] header, and
    the method is GET without a body or POST with one. *)
Definition outbound (key : string) (f : Fetch) : Prop :=
  startsWith (GOOGLE_PLACES_BASE ++ "/") (f_url f) = true
  /\ In ("X-Goog-Api-Key", key) (f_headers f)
  /\ ((f_method f = "GET" /\ f_body f = None)
      \/ (f_method f = "POST" /\ f_body f <> None)).

(** A call to the provider made with the key of the environment. *)
Definition outboundOf (env : Env) (f : Fetch) : Prop :=
  exists key,
    GOOGLE_PLACES_API_KEY env = Some key /\ key <> "" /\ outbound key f.

(** ** A sequence of requests *)

(** The state after the handler [handler] has served the requests [reqs] one
    after the other, starting in the state [w].  Each request comes with the
    environment it is served in (configuration, clock, provider) and the
    order in which its lookups finish. *)
Fixpoint serve (handler : Env -> list nat -> Request -> M Res)
         (reqs : list (Env * list nat * Request)) (w : World) : World :=
  match reqs with
  | [] => w
  | (env, order, req) :: reqs' =>
      serve handler reqs' (snd (handler env order req w))
  end.

(** ** What a failed lookup leaves in the cache *)

(** The cache [c'] is the cache [c], or [c] without the entry of one key. *)
Definition atMostDeleted (c c' : Cache) : Prop :=
  c' = c \/ exists k, c' = Map_delete k c.

(** Unless [m] answers 200, it writes nothing into the cache. *)
Definition writesOnSuccess (m : M Res) : Prop :=
  forall w,
    match m w with
    | (Returned res, w') =>
        res_status res <> 200 -> atMostDeleted (CACHE w) (CACHE w')
    | (Thrown _, w') => atMostDeleted (CACHE w) (CACHE w')
    end.

(** A state whose cache holds the payload [null] for the fields [[a]] of
    [ChIJabc]. *)
Definition holdsNull : World :=
  mkWorld [("details:ChIJabc:a", mkEntry JNull 100)] 0 [].

(** ** Characters of an encoded component *)

(** The characters [encodeURIComponent] produces: letters, digits, the marks
    it leaves alone, and the percent sign of an escape. *)
Definition urlSafe (a : ascii) : bool :=
  (isAlnum (nat_of_ascii a) || inString a "-_.!~*'()%")%bool.

(** The characters the serializer of [URLSearchParams] produces. *)
Definition formSafe (a : ascii) : bool :=
  (isAlnum (nat_of_ascii a) || inString a "*-._+%")%bool.

(** Every character of [s] satisfies [p]. *)
Definition allChars (p : ascii -> bool) (s : string) : bool :=
  forallb p (list_ascii_of_string s).

(** ** The calls of a batch *)

(** The call a lookup of [src/api/places.ts] makes again, for some
    identifier. *)
Definition madeAgain (key : string) (f : Fetch) : Prop :=
  exists rawId, f = detailsFetch key rawId Places.DEFAULT_FIELDS.

(** No call at all. *)
Definition noCall (f : Fetch) : Prop := False.

(** ** The payload a batch stores *)






(** The characters [encodeURIComponent] leaves as they are: letters, digits
    and the marks [- _ . ! ~ * ' ( )]. *)
Definition unreserved (a : ascii) : bool :=
  (isAlnum (nat_of_ascii a) || inString a "-_.!~*'()")%bool.
(** ** Proofs *)

Unset Implicit Arguments.

(** *** The Map operations *)

Lemma Map_get_set_same k e c : Map_get k (Map_set k e c) = Some e.
Proof.
  induction c as [|[k' e'] c IH]; simpl.
  - now rewrite String.eqb_refl.
  - destruct (k =? k')%string eqn:E; simpl; rewrite ?String.eqb_refl; auto.
    now rewrite E.
Qed.


Lemma Map_set_absent k e c :
  Map_get k c = None -> Map_set k e c = (c ++ [(k, e)])%list.
Proof.
  induction c as [|[k' e'] c IH]; simpl; auto.
  destruct (k =? k')%string; [discriminate|].
  intros H. now rewrite IH.
Qed.

Lemma Map_set_present_length k e c :
  Map_get k c <> None -> List.length (Map_set k e c) = List.length c.
Proof.
  induction c as [|[k' e'] c IH]; simpl; [congruence|].
  destruct (k =? k')%string; simpl; auto.
Qed.

Lemma Map_set_present_keys k e c :
  Map_get k c <> None -> Map_keys (Map_set k e c) = Map_keys c.
Proof.
  induction c as [|[k' e'] c IH]; simpl; [congruence|].
  destruct (k =? k')%string eqn:E; simpl.
  - apply String.eqb_eq in E. now subst.
  - intros H. now rewrite IH.
Qed.

Lemma Map_get_None_keys k c : Map_get k c = None <-> ~ In k (Map_keys c).
Proof.
  induction c as [|[k' e'] c IH]; simpl.
  - tauto.
  - destruct (k =? k')%string eqn:E.
    + apply String.eqb_eq in E. subst. split; [discriminate | tauto].
    + apply String.eqb_neq in E. rewrite IH. split.
      * intros H [A|A]; [congruence | tauto].
      * tauto.
Qed.

Lemma Map_get_delete_same k c :
  NoDup (Map_keys c) -> Map_get k (Map_delete k c) = None.
Proof.
  induction c as [|[k' e'] c IH]; simpl; auto.
  intros ND. inversion ND as [|? ? NI ND']; subst.
  destruct (k =? k')%string eqn:E; simpl.
  - apply String.eqb_eq in E. subst. now apply Map_get_None_keys.
  - rewrite E. auto.
Qed.

Lemma Map_get_delete_other k k' c :
  k' <> k -> Map_get k' (Map_delete k c) = Map_get k' c.
Proof.
  intros N. induction c as [|[k0 e0] c IH]; simpl; auto.
  destruct (k =? k0)%string eqn:E; simpl.
  - apply String.eqb_eq in E. subst k0.
    apply String.eqb_neq in N. now rewrite N.
  - now rewrite IH.
Qed.

Lemma Map_delete_absent k c : Map_get k c = None -> Map_delete k c = c.
Proof.
  induction c as [|[k' e'] c IH]; simpl; auto.
  destruct (k =? k')%string; [discriminate|].
  intros H. now rewrite IH.
Qed.

Lemma Map_delete_keys_incl k c k' :
  In k' (Map_keys (Map_delete k c)) -> In k' (Map_keys c).
Proof.
  induction c as [|[k0 e0] c IH]; simpl; auto.
  destruct (k =? k0)%string; simpl; tauto.
Qed.

Lemma Map_delete_NoDup k c :
  NoDup (Map_keys c) -> NoDup (Map_keys (Map_delete k c)).
Proof.
  induction c as [|[k0 e0] c IH]; simpl; auto.
  intros ND. inversion ND as [|? ? NI ND']; subst.
  destruct (k =? k0)%string; simpl; auto.
  constructor; auto.
  intros A. apply NI. eapply Map_delete_keys_incl; eauto.
Qed.

Lemma Map_delete_length k c :
  (List.length (Map_delete k c) <= List.length c)%nat.
Proof.
  induction c as [|[k0 e0] c IH]; simpl; auto.
  destruct (k =? k0)%string; simpl; lia.
Qed.

Lemma Map_set_NoDup k e c :
  NoDup (Map_keys c) -> NoDup (Map_keys (Map_set k e c)).
Proof.
  intros ND. destruct (Map_get k c) eqn:G.
  - rewrite Map_set_present_keys; [auto | congruence].
  - rewrite (Map_set_absent _ _ _ G). unfold Map_keys. rewrite map_app. simpl.
    apply NoDup_app; auto.
    + constructor; [tauto | constructor].
    + intros a Ha [Hb|[]]. subst a.
      apply Map_get_None_keys in G. contradiction.
Qed.

(** *** The cache stays well formed and within its capacity *)

Lemma Map_size_app c x : Map_size (c ++ [x])%list = Map_size c + 1.
Proof. unfold Map_size. rewrite length_app. simpl. lia. Qed.

(** What [put] does to a well-formed cache: it writes the entry, and evicts
    the first entry exactly when the key is new and the cache is full. *)
Lemma put_cases now k v ttlSec c :
  wf c ->
  let e := mkEntry v (now + ttlSec * 1000) in
  (Map_size (Map_set k e c) <= MAX_ENTRIES
   /\ put now k v ttlSec c = Map_set k e c)
  \/ (Map_size (Map_set k e c) > MAX_ENTRIES
      /\ Map_get k c = None
      /\ Map_size c = MAX_ENTRIES
      /\ exists k0 e0 rest,
           c = (k0, e0) :: rest /\ k0 <> k
           /\ put now k v ttlSec c = (rest ++ [(k, e)])%list).
Proof.
  intros [ND SZ] e. unfold put. fold e.
  destruct (Map_size (Map_set k e c) >? MAX_ENTRIES) eqn:G.
  - right. apply Z.gtb_lt in G.
    destruct (Map_get k c) eqn:P.
    + exfalso. unfold Map_size in *.
      rewrite Map_set_present_length in G by congruence. lia.
    + rewrite (Map_set_absent k e c P) in *.
      rewrite Map_size_app in *.
      split; [lia|]. split; [reflexivity|]. split; [lia|].
      destruct c as [|[k0 e0] rest].
      * unfold Map_size, MAX_ENTRIES in *. simpl in *. lia.
      * exists k0, e0, rest. split; [reflexivity|].
        simpl in P. destruct (k =? k0)%string eqn:E; [discriminate|].
        apply String.eqb_neq in E. split; [congruence|].
        simpl. now rewrite String.eqb_refl.
  - left. split; [|reflexivity].
    destruct (Z.gtb_spec (Map_size (Map_set k e c)) MAX_ENTRIES); [discriminate | lia].
Qed.

Lemma put_wf now k v ttlSec c : wf c -> wf (put now k v ttlSec c).
Proof.
  intros W. destruct (put_cases now k v ttlSec c W) as [[S E]|(S & P & F & k0 & e0 & rest & C & N & E)];
    rewrite E.
  - split; auto. apply Map_set_NoDup, W.
  - destruct W as [ND SZ]. subst c.
    pose proof (Map_set_NoDup k (mkEntry v (now + ttlSec * 1000)) _ ND) as ND'.
    rewrite (Map_set_absent _ _ _ P) in ND'. simpl in ND'.
    inversion ND'; subst. split; auto.
    rewrite Map_size_app. unfold Map_size in *. simpl in *. lia.
Qed.

Lemma get_wf now k c : wf c -> wf (snd (get now k c)).
Proof.
  intros [ND SZ]. unfold get.
  destruct (Map_get k c) as [e|]; simpl; [|split; auto].
  destruct (now >? until e); simpl; split; auto.
  - now apply Map_delete_NoDup.
  - pose proof (Map_delete_length k c). unfold Map_size in *. lia.
Qed.

Lemma step_wf c o : wf c -> wf (step c o).
Proof. destruct o; simpl; [apply put_wf | apply get_wf]. Qed.

Lemma fold_step_wf ops c : wf c -> wf (fold_left step ops c).
Proof.
  revert c. induction ops as [|o ops IH]; simpl; auto.
  intros c W. apply IH, step_wf, W.
Qed.

Lemma run_wf ops : wf (run ops).
Proof.
  apply fold_step_wf. split; [constructor | unfold Map_size, MAX_ENTRIES; simpl; lia].
Qed.

Lemma put_get_entry now k v ttlSec c :
  wf c ->
  Map_get k (put now k v ttlSec c) = Some (mkEntry v (now + ttlSec * 1000)).
Proof.
  intros W.
  destruct (put_cases now k v ttlSec c W)
    as [[_ E]|(_ & P & _ & k0 & e0 & rest & C & N & E)]; rewrite E.
  - apply Map_get_set_same.
  - subst c. simpl in P.
    destruct (k =? k0)%string; [discriminate|].
    rewrite <- (Map_set_absent _ _ _ P). apply Map_get_set_same.
Qed.

Lemma evict_keys_incl c k :
  In k (Map_keys (match Map_keys c with
                  | firstKey :: _ => Map_delete firstKey c
                  | [] => c
                  end)) ->
  In k (Map_keys c).
Proof.
  destruct c as [|[k1 e1] r]; simpl; auto.
  rewrite String.eqb_refl. auto.
Qed.

Lemma put_keys now k0 v ttlSec c k :
  In k (Map_keys (put now k0 v ttlSec c)) -> In k (Map_keys c) \/ k = k0.
Proof.
  unfold put. set (e := mkEntry v (now + ttlSec * 1000)).
  intros H.
  assert (H' : In k (Map_keys (Map_set k0 e c))).
  { destruct (Map_size (Map_set k0 e c) >? MAX_ENTRIES); auto.
    now apply evict_keys_incl. }
  clear H. destruct (Map_get k0 c) eqn:G.
  - rewrite Map_set_present_keys in H' by congruence. auto.
  - rewrite (Map_set_absent _ _ _ G) in H'. unfold Map_keys in H'.
    rewrite map_app, in_app_iff in H'. simpl in H'. intuition congruence.
Qed.

Lemma step_keys c o k :
  In k (Map_keys (step c o)) ->
  In k (Map_keys c) \/ exists now v ttlSec, o = OpPut now k v ttlSec.
Proof.
  destruct o as [now k0 v ttlSec|now k0]; simpl.
  - intros H. destruct (put_keys _ _ _ _ _ _ H) as [A|A]; auto.
    right. subst. eauto.
  - unfold get. destruct (Map_get k0 c) as [e|]; simpl; auto.
    destruct (now >? until e); simpl; auto.
    intros H. left. eapply Map_delete_keys_incl; eauto.
Qed.

Lemma fold_step_keys ops c k :
  In k (Map_keys (fold_left step ops c)) ->
  In k (Map_keys c) \/ exists now v ttlSec, In (OpPut now k v ttlSec) ops.
Proof.
  revert c. induction ops as [|o ops IH]; simpl; auto.
  intros c H. destruct (IH _ H) as [A|(n & v & t & A)].
  - destruct (step_keys _ _ _ A) as [B|(n & v & t & B)]; auto.
    right. exists n, v, t. auto.
  - right. exists n, v, t. auto.
Qed.

Lemma never_stored_absent ops k :
  (forall now v ttlSec, ~ In (OpPut now k v ttlSec) ops) ->
  Map_get k (run ops) = None.
Proof.
  intros H. apply Map_get_None_keys. intros A.
  destruct (fold_step_keys _ _ _ A) as [[]|(n & v & t & B)].
  exact (H _ _ _ B).
Qed.

(** C2. A value that has just been put is what [get] returns for its key
    (at the time of the [put], and at any time up to the expiry); once the
    TTL has elapsed [get] returns [null] and the entry is deleted, the other
    entries being left as they are; for a key that was never stored [get]
    returns [null] and leaves the cache as it is.  The cache is any cache
    the process can have built, the TTL is not negative. *)
Theorem put_then_get_returns_value
        (ops : list CacheOp) (now now' : Z) (k : string) (v : Json)
        (ttlSec : Z) :
  0 <= ttlSec ->
  let c := run ops in
  let c1 := put now k v ttlSec c in
  get now k c1 = (v, c1)
  /\ (now' <= now + ttlSec * 1000 -> get now' k c1 = (v, c1))
  /\ (now' > now + ttlSec * 1000 ->
      get now' k c1 = (JNull, Map_delete k c1)
      /\ Map_get k (Map_delete k c1) = None
      /\ forall k', k' <> k ->
                    Map_get k' (Map_delete k c1) = Map_get k' c1)
  /\ (forall k',
         (forall n v' t, ~ In (OpPut n k' v' t) ops) ->
         get now' k' c = (JNull, c)).
Proof.
  intros T c c1.
  assert (G : Map_get k c1 = Some (mkEntry v (now + ttlSec * 1000)))
    by (apply put_get_entry, run_wf).
  assert (B : forall t, t <= now + ttlSec * 1000 -> get t k c1 = (v, c1)).
  { intros t Ht. unfold get. rewrite G. simpl.
    destruct (Z.gtb_spec t (now + ttlSec * 1000)); [lia | reflexivity]. }
  split; [apply B; lia|]. split; [exact (B now')|]. split.
  - intros Ht. split; [|split].
    + unfold get. rewrite G. simpl.
      destruct (Z.gtb_spec now' (now + ttlSec * 1000)); [reflexivity | lia].
    + apply Map_get_delete_same. apply put_wf, run_wf.
    + intros k' N. now apply Map_get_delete_other.
  - intros k' H. unfold get. subst c.
    now rewrite (never_stored_absent ops k' H).
Qed.

(** The instance: an empty cache, a one hour TTL, a reading one second
    later and one a day later. *)
Lemma put_then_get_returns_value_witness :
  get 1000 "k" (put 1000 "k" (JStr "v") 3600 (run [])) =
    (JStr "v", put 1000 "k" (JStr "v") 3600 (run []))
  /\ get 90000000 "k" (put 1000 "k" (JStr "v") 3600 (run [])) =
       (JNull, Map_delete "k" (put 1000 "k" (JStr "v") 3600 (run []))).
Proof.
  assert (H : 0 <= 3600) by lia.
  destruct (put_then_get_returns_value [] 1000 90000000 "k" (JStr "v") 3600 H)
    as (A & _ & B & _).
  split; [exact A|]. apply B. lia.
Defined.

(** *** Insertion order *)

Lemma Map_has_keys k c : Map_has k c = true <-> In k (Map_keys c).
Proof.
  unfold Map_has. pose proof (Map_get_None_keys k c) as H.
  destruct (Map_get k c).
  - split; auto. intros _.
    destruct (in_dec string_dec k (Map_keys c)); auto.
    assert (Some e = None) by tauto. discriminate.
  - split; [discriminate|]. intros A. exfalso. apply H; auto.
Qed.

Lemma Map_has_false k c : Map_has k c = false <-> ~ In k (Map_keys c).
Proof.
  rewrite <- Map_has_keys. destruct (Map_has k c); split; congruence.
Qed.

Lemma Map_delete_head k e c : Map_delete k ((k, e) :: c) = c.
Proof. simpl. now rewrite String.eqb_refl. Qed.

(** The keys after an operation: the keys before, in their order, without
    at most one of them, followed by at most one new key. *)
Lemma step_shape c o :
  wf c ->
  exists d new,
    Map_keys (step c o) = (Map_keys d ++ new)%list
    /\ (d = c \/ exists x, d = Map_delete x c)
    /\ (new = [] \/ exists k, new = [k] /\ ~ In k (Map_keys c)).
Proof.
  intros W. destruct o as [now k v ttlSec|now k]; simpl.
  - destruct (put_cases now k v ttlSec c W)
      as [[_ E]|(_ & P & _ & k0 & e0 & rest & C & N & E)]; rewrite E.
    + destruct (Map_get k c) eqn:G.
      * exists c, []. rewrite Map_set_present_keys by congruence.
        rewrite app_nil_r. auto.
      * exists c, [k]. rewrite (Map_set_absent _ _ _ G).
        unfold Map_keys. rewrite map_app. simpl. split; auto. split; auto.
        right. exists k. split; auto. now apply Map_get_None_keys.
    + exists rest, [k]. unfold Map_keys. rewrite map_app. simpl.
      split; auto. split.
      * right. exists k0. subst c. now rewrite Map_delete_head.
      * right. exists k. split; auto. now apply Map_get_None_keys.
  - unfold get. destruct (Map_get k c) as [e|].
    + destruct (now >? until e); simpl.
      * exists (Map_delete k c), []. rewrite app_nil_r.
        split; [reflexivity|]. split; [right; eexists; reflexivity | auto].
      * exists c, []. rewrite app_nil_r. auto.
    + simpl. exists c, []. rewrite app_nil_r. auto.
Qed.

Lemma StronglySorted_delete (R : string -> string -> Prop) k c :
  StronglySorted R (Map_keys c) ->
  StronglySorted R (Map_keys (Map_delete k c)).
Proof.
  induction c as [|[k0 e0] c IH]; simpl; auto.
  intros S. inversion S as [|? ? S' F]; subst.
  destruct (k =? k0)%string; simpl; auto.
  constructor; auto.
  rewrite Forall_forall in *. intros x Hx. apply F.
  eapply Map_delete_keys_incl; eauto.
Qed.

Lemma StronglySorted_weaken (R R' : string -> string -> Prop) l :
  (forall x y, In x l -> In y l -> R x y -> R' x y) ->
  StronglySorted R l -> StronglySorted R' l.
Proof.
  induction l as [|a l IH]; intros H S; [constructor|].
  inversion S as [|? ? S' F]; subst. constructor.
  - apply IH; auto. intros x y Hx Hy. apply H; simpl; auto.
  - rewrite Forall_forall in *. intros x Hx. apply H; simpl; auto.
Qed.

Lemma StronglySorted_snoc (R : string -> string -> Prop) l a :
  StronglySorted R l -> Forall (fun x => R x a) l ->
  StronglySorted R (l ++ [a]).
Proof.
  induction l as [|b l IH]; simpl; intros S F.
  - constructor; constructor.
  - inversion S as [|? ? S' F']; subst. inversion F; subst.
    constructor; auto. apply Forall_app. split; auto.
Qed.


Lemma track_tracks st o : tracks st -> tracks (track st o).
Proof.
  destruct st as [[c born] i]. intros (W & B & Srt).
  set (c' := step c o).
  set (born' := fun k => if Map_has k c'
                         then (if Map_has k c then born k else Some i)
                         else None).
  change (tracks (c', born', S i)). unfold tracks.
  destruct (step_shape c o W) as (d & new & K & D & N). fold c' in K.
  assert (Dk : forall k, In k (Map_keys d) -> In k (Map_keys c)).
  { destruct D as [->|[x ->]]; auto.
    intros k. apply Map_delete_keys_incl. }
  assert (Ds : StronglySorted (insertedBefore born) (Map_keys d)).
  { destruct D as [->|[x ->]]; auto. now apply StronglySorted_delete. }
  assert (Old : forall k, In k (Map_keys d) -> born' k = born k).
  { intros k Hk. unfold born'.
    assert (A : Map_has k c' = true)
      by (apply Map_has_keys; rewrite K; apply in_or_app; auto).
    assert (A' : Map_has k c = true) by (apply Map_has_keys; auto).
    now rewrite A, A'. }
  assert (Ds' : StronglySorted (insertedBefore born') (Map_keys d)).
  { apply StronglySorted_weaken with (R := insertedBefore born); auto.
    intros x y Hx Hy (b1 & b2 & E1 & E2 & L).
    exists b1, b2. rewrite !Old; auto. }
  split; [apply step_wf, W|]. split.
  - intros k Hk. rewrite K in Hk.
    apply in_app_or in Hk. destruct Hk as [Hk|Hk].
    + rewrite Old by auto. destruct (B k (Dk k Hk)) as (b & E & L).
      exists b. split; auto.
    + destruct N as [->|(k1 & -> & Nk)]; [destruct Hk|].
      destruct Hk as [<-|[]]. exists i. split; [|lia].
      unfold born'.
      assert (A : Map_has k1 c' = true)
        by (apply Map_has_keys; rewrite K; apply in_or_app; simpl; auto).
      apply Map_has_false in Nk. now rewrite A, Nk.
  - rewrite K.
    destruct N as [->|(k1 & -> & Nk)]; [now rewrite app_nil_r|].
    apply StronglySorted_snoc; auto.
    apply Forall_forall. intros x Hx.
    destruct (B x (Dk x Hx)) as (b & E & L).
    exists b, i. rewrite Old by auto. split; auto. split; auto.
    unfold born'.
    assert (A : Map_has k1 c' = true)
      by (apply Map_has_keys; rewrite K; apply in_or_app; simpl; auto).
    apply Map_has_false in Nk. now rewrite A, Nk.
Qed.

Lemma fold_track_tracks ops st :
  tracks st -> tracks (fold_left track ops st).
Proof.
  revert st. induction ops as [|o ops IH]; simpl; auto.
  intros st T. apply IH, track_tracks, T.
Qed.

Lemma tracked_tracks ops : tracks (tracked ops).
Proof.
  apply fold_track_tracks. simpl. split; [|split].
  - split; [constructor | unfold Map_size, MAX_ENTRIES; simpl; lia].
  - intros k [].
  - constructor.
Qed.

Lemma fold_track_run ops c born i :
  fst (fst (fold_left track ops (c, born, i))) = fold_left step ops c
  /\ snd (fold_left track ops (c, born, i)) = (i + List.length ops)%nat.
Proof.
  revert c born i. induction ops as [|o ops IH]; simpl; intros c born i.
  - split; auto.
  - destruct (IH (step c o)
                 (fun k => if Map_has k (step c o)
                           then (if Map_has k c then born k else Some i)
                           else None) (S i)) as [A B].
    split; auto. rewrite B. lia.
Qed.

Lemma tracked_snoc ops o : tracked (ops ++ [o]) = track (tracked ops) o.
Proof. unfold tracked. now rewrite fold_left_app. Qed.

Lemma tracked_run ops :
  fst (fst (tracked ops)) = run ops
  /\ snd (tracked ops) = List.length ops.
Proof. exact (fold_track_run ops [] (fun _ => None) O). Qed.

(** The entries of the cache are in the order of their insertion. *)
Lemma cache_in_insertion_order ops :
  StronglySorted (insertedBefore (insertedAt ops)) (Map_keys (run ops)).
Proof.
  pose proof (tracked_tracks ops) as T.
  destruct (tracked_run ops) as [R _]. rewrite <- R.
  unfold insertedAt.
  destruct (tracked ops) as [[c born] i]. apply T.
Qed.

Lemma insertedAt_snoc ops o k :
  insertedAt (ops ++ [o]) k =
    if Map_has k (step (run ops) o)
    then (if Map_has k (run ops) then insertedAt ops k
          else Some (List.length ops))
    else None.
Proof.
  unfold insertedAt. rewrite tracked_snoc.
  destruct (tracked_run ops) as [R L].
  destruct (tracked ops) as [[c born] i]. simpl in *. now subst.
Qed.

Lemma insertedAt_present ops k :
  In k (Map_keys (run ops)) ->
  exists b, insertedAt ops k = Some b /\ (b < List.length ops)%nat.
Proof.
  pose proof (tracked_tracks ops) as T.
  destruct (tracked_run ops) as [R L]. unfold insertedAt.
  destruct (tracked ops) as [[c born] i]. simpl in *. subst.
  apply T.
Qed.

(** C3. After a [put] the cache holds at most 5000 entries.  A [put] that
    leaves the Map within the cap evicts nothing.  A [put] that pushes the
    size over the cap removes exactly one entry, the first of the Map: the
    cache afterwards is the old one without its first entry, followed by the
    new entry; the evicted entry was inserted before every entry that
    survives. *)
Theorem put_keeps_capacity_and_evicts_oldest
        (ops : list CacheOp) (now : Z) (k : string) (v : Json) (ttlSec : Z) :
  let c := run ops in
  let e := mkEntry v (now + ttlSec * 1000) in
  let c' := put now k v ttlSec c in
  Map_size c' <= MAX_ENTRIES
  /\ (Map_size (Map_set k e c) <= MAX_ENTRIES -> c' = Map_set k e c)
  /\ (Map_size (Map_set k e c) > MAX_ENTRIES ->
      exists k0 e0 rest b0,
        c = (k0, e0) :: rest
        /\ c' = (rest ++ [(k, e)])%list
        /\ Map_get k0 c' = None
        /\ insertedAt ops k0 = Some b0
        /\ forall k1, In k1 (Map_keys c') ->
             exists b1,
               insertedAt (ops ++ [OpPut now k v ttlSec]) k1 = Some b1
               /\ (b0 < b1)%nat).
Proof.
  intros c e c'.
  pose proof (run_wf ops) as W. fold c in W.
  split; [apply (put_wf now k v ttlSec c W)|].
  destruct (put_cases now k v ttlSec c W)
    as [[Sz E]|(Sz & P & _ & k0 & e0 & rest & C & N & E)];
    fold e in Sz, E; fold c' in E.
  - split; [auto | lia].
  - split; [lia|]. intros _.
    assert (In0 : In k0 (Map_keys c)) by (rewrite C; simpl; auto).
    destruct (insertedAt_present ops k0 In0) as (b0 & B0 & L0).
    assert (K' : Map_keys c' = (Map_keys rest ++ [k])%list)
      by (rewrite E; unfold Map_keys; now rewrite map_app).
    assert (ND : NoDup (k0 :: Map_keys rest))
      by (destruct W as [ND _]; now rewrite C in ND).
    inversion ND as [|? ? NI _]; subst x l.
    exists k0, e0, rest, b0. repeat split; auto.
    + apply Map_get_None_keys. rewrite K'. intros A.
      apply in_app_or in A. destruct A as [A|[A|[]]]; auto.
    + intros k1 H1. rewrite insertedAt_snoc. simpl. fold c c'.
      assert (A : Map_has k1 c' = true) by now apply Map_has_keys.
      rewrite A. rewrite K' in H1. apply in_app_or in H1.
      destruct H1 as [H1|[<-|[]]].
      * assert (A' : Map_has k1 c = true)
          by (apply Map_has_keys; rewrite C; simpl; auto).
        rewrite A'.
        pose proof (cache_in_insertion_order ops) as S. fold c in S.
        rewrite C in S. simpl in S. inversion S as [|? ? _ F]; subst.
        rewrite Forall_forall in F.
        destruct (F k1 H1) as (b0' & b1 & E0 & E1 & L).
        exists b1. split; auto. congruence.
      * assert (A' : Map_has k c = false)
          by (unfold Map_has; now rewrite P).
        rewrite A'. exists (List.length ops). auto.
Qed.

(** *** Sorting and the cache key *)

Lemma le_string_lt a b :
  le_string a b <-> a = b \/ String_as_OT.lt a b.
Proof.
  unfold le_string, String.leb.
  pose proof (String_as_OT.cmp_eq a b) as E.
  pose proof (String_as_OT.cmp_lt a b) as L.
  unfold String_as_OT.cmp in *.
  destruct (String.compare a b).
  - split; auto. intros _. left. now apply E.
  - split; auto. intros _. right. now apply L.
  - split; [discriminate|]. intros [H|H].
    + apply E in H. discriminate.
    + apply L in H. discriminate.
Qed.

Lemma le_string_trans a b c : le_string a b -> le_string b c -> le_string a c.
Proof.
  rewrite !le_string_lt. intros [->|H1] [->|H2]; auto.
  right. eapply String_as_OT.lt_trans; eauto.
Qed.

Lemma le_string_antisym a b : le_string a b -> le_string b a -> a = b.
Proof. apply String.leb_antisym. Qed.

Lemma le_string_total a b : le_string a b \/ le_string b a.
Proof. apply String.leb_total. Qed.

Lemma sort_insert_perm x l : Permutation (sort_insert x l) (x :: l).
Proof.
  induction l as [|y l IH]; simpl; auto.
  destruct (x <=? y)%string; auto.
  rewrite IH. apply perm_swap.
Qed.

Lemma sort_perm l : Permutation (sort l) l.
Proof.
  induction l as [|x l IH]; simpl; auto.
  rewrite sort_insert_perm. now constructor.
Qed.

Lemma sort_insert_sorted x l :
  StronglySorted le_string l -> StronglySorted le_string (sort_insert x l).
Proof.
  induction l as [|y l IH]; simpl; intros S.
  - repeat constructor.
  - inversion S as [|? ? S' F]; subst.
    destruct (x <=? y)%string eqn:E.
    + constructor; auto. constructor; auto.
      rewrite Forall_forall in *. intros z Hz.
      eapply le_string_trans; [exact E | auto].
    + constructor; auto.
      assert (Hyx : le_string y x)
        by (destruct (le_string_total x y) as [A|A];
            [unfold le_string in A; congruence | auto]).
      rewrite Forall_forall in *. intros z Hz.
      apply (Permutation_in _ (sort_insert_perm x l)) in Hz.
      destruct Hz as [<-|Hz]; auto.
Qed.

Lemma sort_sorted l : StronglySorted le_string (sort l).
Proof.
  induction l as [|x l IH]; simpl; [constructor|].
  now apply sort_insert_sorted.
Qed.

Lemma sorted_perm_eq l1 :
  forall l2, StronglySorted le_string l1 -> StronglySorted le_string l2 ->
             Permutation l1 l2 -> l1 = l2.
Proof.
  induction l1 as [|a l1 IH]; intros l2 S1 S2 P.
  - apply Permutation_nil in P. now subst.
  - destruct l2 as [|b l2];
      [apply Permutation_sym, Permutation_nil in P; discriminate|].
    inversion S1 as [|? ? S1' F1]; subst.
    inversion S2 as [|? ? S2' F2]; subst.
    rewrite Forall_forall in F1, F2.
    assert (E : a = b).
    { assert (Ha : In a (b :: l2))
        by (eapply Permutation_in; [exact P | simpl; auto]).
      assert (Hb : In b (a :: l1))
        by (eapply Permutation_in;
            [apply Permutation_sym; exact P | simpl; auto]).
      destruct Ha as [Ha|Ha]; [auto|].
      destruct Hb as [Hb|Hb]; [auto|].
      apply le_string_antisym; auto. }
    subst b. f_equal. apply IH; auto.
    eapply Permutation_cons_inv; eauto.
Qed.

(** The sorted array is the same for two arrays with the same elements. *)
Lemma sort_permutation l1 l2 : Permutation l1 l2 -> sort l1 = sort l2.
Proof.
  intros P. apply sorted_perm_eq; try apply sort_sorted.
  rewrite !sort_perm. exact P.
Qed.

(** Sorting a sorted array changes nothing. *)
Lemma sort_idempotent l : sort (sort l) = sort l.
Proof. apply sort_permutation, sort_perm. Qed.

(** C5. Two field lists that are permutations of each other give the same
    cache key for the same identifier, in both handler files. *)
Theorem cache_key_ignores_field_order
        (id : string) (fields1 fields2 : list string) :
  Permutation fields1 fields2 ->
  Places.cacheKeyOf id fields1 = Places.cacheKeyOf id fields2
  /\ Part000.cacheKeyOf id fields1 = Part000.cacheKeyOf id fields2.
Proof.
  intros P. unfold Places.cacheKeyOf, Part000.cacheKeyOf.
  now rewrite (sort_permutation _ _ P).
Qed.

(** The instance of the specification: [[a, b]] and [[b, a]]. *)
Lemma cache_key_ignores_field_order_witness :
  Places.cacheKeyOf "ChIJabc" ["a"; "b"] =
    Places.cacheKeyOf "ChIJabc" ["b"; "a"]
  /\ Part000.cacheKeyOf "ChIJabc" ["a"; "b"] =
       Part000.cacheKeyOf "ChIJabc" ["b"; "a"].
Proof.
  apply (cache_key_ignores_field_order "ChIJabc" ["a"; "b"] ["b"; "a"]).
  apply perm_swap.
Defined.

(** *** The dispatcher *)

Lemma dispatch_invalid_action env routes req w :
  q_method req <> "OPTIONS" ->
  ALLOWED_has (actionOf req) = false ->
  dispatch env routes req w = (Returned (errorRes 400 "invalid_action"), w).
Proof.
  intros M A. unfold dispatch.
  apply String.eqb_neq in M. rewrite M, A. reflexivity.
Qed.

Lemma dispatch_unauthorized env routes req w :
  q_method req <> "OPTIONS" ->
  ALLOWED_has (actionOf req) = true ->
  unauthorized env req = true ->
  dispatch env routes req w = (Returned (errorRes 401 "unauthorized"), w).
Proof.
  intros M A U. unfold dispatch.
  apply String.eqb_neq in M. rewrite M, A, U. reflexivity.
Qed.

Lemma dispatch_routes env routes req action key w :
  dispatched env req action key ->
  ALLOWED_has action = true ->
  action <> "health" ->
  dispatch env routes req w =
    try_catch (routes key action (bodyOf req))
              (fun message =>
                 respond 500 (JObj [("error", JStr "gateway_exception");
                                    ("message", JStr message)])) w.
Proof.
  intros (M & A & U & K & N) Al H. unfold dispatch.
  apply String.eqb_neq in M, H, N. rewrite M, A, Al, U, H, K, N. reflexivity.
Qed.

(** C7, amended.  A request that is not a CORS preflight (its method is not
    OPTIONS) and whose action is not one of the six allowed ones is
    answered 400 [invalid_action], whatever the gateway key it carries and
    whatever tokens the server holds: the action is checked before any
    credential.  Nothing is read from the cache or sent upstream.  In both
    handler files. *)
Theorem invalid_action_before_credentials
        (env : Env) (order : list nat) (req : Request) (w : World) :
  q_method req <> "OPTIONS" ->
  ALLOWED_has (actionOf req) = false ->
  Places.handler env order req w =
    (Returned (errorRes 400 "invalid_action"), w)
  /\ Part000.handler env order req w =
       (Returned (errorRes 400 "invalid_action"), w).
Proof.
  intros M A. split; apply dispatch_invalid_action; auto.
Qed.

(** The scenario of the specification: [{action:'deletePlace'}] with a
    wrong key. *)
Lemma invalid_action_before_credentials_witness :
  Places.handler (sampleEnv unreachable) []
                 (mkRequest "POST" (Some "deletePlace") (Some "wrong") None)
                 freshWorld =
    (Returned (errorRes 400 "invalid_action"), mkWorld [] 0 []).
Proof.
  apply (invalid_action_before_credentials
           (sampleEnv unreachable)
           [] (mkRequest "POST" (Some "deletePlace") (Some "wrong") None)
           freshWorld).
  - simpl. discriminate.
  - reflexivity.
Defined.

Lemma unauthorized_cases env req :
  nonEmpty (GATEWAY_TOKEN env) = false
  \/ q_gateway_key req = None
  \/ (exists k t, q_gateway_key req = Some k /\ GATEWAY_TOKEN env = Some t
                  /\ k <> t) ->
  unauthorized env req = true.
Proof.
  unfold unauthorized. intros [H|[H|(k & t & H1 & H2 & N)]].
  - now rewrite H.
  - rewrite H. destruct (GATEWAY_TOKEN env); simpl; auto.
    now rewrite orb_true_r.
  - rewrite H1, H2. simpl. apply String.eqb_neq in N. rewrite N.
    now rewrite orb_true_r.
Qed.

(** C8, amended.  A request that is not a CORS preflight (its method is not
    OPTIONS) and has an allowed action is answered 401 [unauthorized] when
    the server holds no gateway token, when the request has no
    [x-gateway-key] header, or when the header differs from the token; the
    state is left as it is, so nothing is sent upstream.  In both handler
    files. *)
Theorem unauthorized_request_rejected
        (env : Env) (order : list nat) (req : Request) (w : World) :
  q_method req <> "OPTIONS" ->
  ALLOWED_has (actionOf req) = true ->
  nonEmpty (GATEWAY_TOKEN env) = false
  \/ q_gateway_key req = None
  \/ (exists k t, q_gateway_key req = Some k /\ GATEWAY_TOKEN env = Some t
                  /\ k <> t) ->
  (Places.handler env order req w =
     (Returned (errorRes 401 "unauthorized"), w)
   /\ sent (snd (Places.handler env order req w)) = sent w)
  /\ (Part000.handler env order req w =
        (Returned (errorRes 401 "unauthorized"), w)
      /\ sent (snd (Part000.handler env order req w)) = sent w).
Proof.
  intros M A U. apply unauthorized_cases in U.
  unfold Places.handler, Part000.handler.
  rewrite !dispatch_unauthorized by auto. auto.
Qed.

(** The scenario of the specification: an allowed action without the
    header. *)
Lemma unauthorized_request_rejected_witness :
  Places.handler (sampleEnv unreachable) []
                 (mkRequest "POST" (Some "details") None None)
                 freshWorld =
    (Returned (errorRes 401 "unauthorized"), mkWorld [] 0 []).
Proof.
  apply (unauthorized_request_rejected
           (sampleEnv unreachable)
           [] (mkRequest "POST" (Some "details") None None)
           freshWorld).
  - simpl. discriminate.
  - reflexivity.
  - right. left. reflexivity.
Defined.

Lemma batchDetails_allowed : ALLOWED_has "batchDetails" = true.
Proof. reflexivity. Qed.

Lemma details_allowed : ALLOWED_has "details" = true.
Proof. reflexivity. Qed.

Lemma try_catch_returned {A : Type} (m : M A) h w a w' :
  m w = (Returned a, w') -> try_catch m h w = (Returned a, w').
Proof. unfold try_catch. now intros ->. Qed.

(** C9, amended.  A [batchDetails] request that has passed the checks made
    before the batch branch (it is not a CORS preflight, it carries the
    gateway token, the provider key is configured) is answered 400
    [too_many_placeIds_max_50] when it has more than 50 identifiers, and 400
    [placeIds_required] when [placeIds] is an empty list, is missing or is
    not an array.  In each case the state is left as it is: no callback has
    run and nothing is sent upstream.  In both handler files. *)
Theorem batch_size_checked_before_any_lookup
        (env : Env) (order : list nat) (req : Request) (key : string)
        (w : World) :
  dispatched env req "batchDetails" key ->
  (forall ids,
      b_placeIds (bodyOf req) = PlaceIds_array ids ->
      (50 < List.length ids)%nat ->
      Places.handler env order req w =
        (Returned (errorRes 400 "too_many_placeIds_max_50"), w)
      /\ Part000.handler env order req w =
           (Returned (errorRes 400 "too_many_placeIds_max_50"), w))
  /\ (b_placeIds (bodyOf req) = PlaceIds_array []
      \/ b_placeIds (bodyOf req) = PlaceIds_undefined
      \/ b_placeIds (bodyOf req) = PlaceIds_other ->
      Places.handler env order req w =
        (Returned (errorRes 400 "placeIds_required"), w)
      /\ Part000.handler env order req w =
           (Returned (errorRes 400 "placeIds_required"), w)).
Proof.
  intros D. unfold Places.handler, Part000.handler.
  rewrite !(dispatch_routes _ _ _ _ _ _ D batchDetails_allowed)
    by discriminate.
  unfold Places.routes, Part000.routes. simpl.
  unfold Places.batchDetails, Part000.batchDetails.
  split.
  - intros ids E L. rewrite E.
    assert (N : Nat.eqb (List.length ids) 0 = false)
      by (apply Nat.eqb_neq; lia).
    assert (T : Nat.ltb 50 (List.length ids) = true)
      by (apply Nat.ltb_lt; lia).
    rewrite N, T. split; reflexivity.
  - intros [E|[E|E]]; rewrite E; split; reflexivity.
Qed.

(** The scenario of the specification: 51 identifiers. *)
Lemma batch_size_checked_before_any_lookup_witness :
  Places.handler (sampleEnv unreachable) []
                 (post (batchBody (repeat "ChIJabc" 51) None)) freshWorld =
    (Returned (errorRes 400 "too_many_placeIds_max_50"), freshWorld)
  /\ Part000.handler (sampleEnv unreachable) []
                     (post (batchBody (repeat "ChIJabc" 51) None))
                     freshWorld =
       (Returned (errorRes 400 "too_many_placeIds_max_50"), freshWorld).
Proof.
  assert (D : dispatched (sampleEnv unreachable)
                         (post (batchBody (repeat "ChIJabc" 51) None))
                         "batchDetails" "gkey").
  { unfold dispatched. simpl.
    repeat split; try reflexivity; discriminate. }
  destruct (batch_size_checked_before_any_lookup
              (sampleEnv unreachable) []
              (post (batchBody (repeat "ChIJabc" 51) None)) "gkey"
              freshWorld D) as [A _].
  apply (A (repeat "ChIJabc" 51)); [reflexivity | simpl; lia].
Defined.

(** *** The detail lookup of [src/api/places.ts] and its fallback *)

Lemma cacheGet_run env k w :
  cacheGet env k w =
    (Returned (fst (get (clock env (ticks w)) k (CACHE w))), afterGet env w k).
Proof.
  unfold cacheGet, afterGet. now destruct (get (clock env (ticks w)) k (CACHE w)).
Qed.

Lemma fetch_run env n f w :
  fetch env n f w =
    match upstream env n f with
    | Resolved r => (Returned r, afterCalls w [f])
    | Rejected e => (Thrown e, afterCalls w [f])
    end.
Proof.
  unfold fetch, bind, issue, settle, afterCalls.
  now destruct (upstream env n f).
Qed.

Lemma bind_run {A B : Type} (m : M A) (k : A -> M B) w a w' :
  m w = (Returned a, w') -> bind m k w = k a w'.
Proof. unfold bind. now intros ->. Qed.

Lemma bind_thrown {A B : Type} (m : M A) (k : A -> M B) w e w' :
  m w = (Thrown e, w') -> bind m k w = (Thrown e, w').
Proof. unfold bind. now intros ->. Qed.

Lemma afterCalls_afterCalls w fs gs :
  afterCalls (afterCalls w fs) gs = afterCalls w (fs ++ gs).
Proof. unfold afterCalls. simpl. now rewrite app_assoc. Qed.

(** The [details] branch up to the first response. *)
Lemma places_details_miss env key b pid w :
  b_placeId b = Some pid -> pid <> "" ->
  let fields := orDefault Places.DEFAULT_FIELDS (b_fields b) in
  let rawId := Places.normalizeId pid in
  let cacheKey := Places.cacheKeyOf rawId fields in
  misses env w cacheKey ->
  Places.details env key b w =
    let finish (r : Response) : M Res :=
      if negb (r_ok r) then google_error (r_status r) (r_text r)
      else
        j <- json r ;;
        cachePut env cacheKey j 3600 ;;;
        respond 200 (JObj [("data", j); ("cached", JBool false)]) in
    (r <- fetch env 0 (detailsFetch key rawId fields) ;;
     if negb (r_ok r) then
       if isFieldMaskError r then
         r' <- fetch env 1 (detailsFetch key rawId Places.DEFAULT_FIELDS) ;;
         finish r'
       else google_error (r_status r) (r_text r)
     else finish r) (afterGet env w cacheKey).
Proof.
  intros P N fields rawId cacheKey Miss.
  unfold Places.details. rewrite P. simpl.
  apply String.eqb_neq in N. rewrite N. simpl.
  fold fields. fold rawId. fold cacheKey.
  rewrite (bind_run _ _ _ _ _ (cacheGet_run env cacheKey w)).
  unfold misses in Miss. rewrite Miss. reflexivity.
Qed.

Lemma places_handler_details env order req key w :
  dispatched env req "details" key ->
  Places.handler env order req w =
    try_catch (Places.details env key (bodyOf req))
              (fun message =>
                 respond 500 (JObj [("error", JStr "gateway_exception");
                                    ("message", JStr message)])) w.
Proof.
  intros D. unfold Places.handler.
  rewrite (dispatch_routes _ _ _ _ _ _ D details_allowed) by discriminate.
  reflexivity.
Qed.

(** The fallback of the [details] branch of [src/api/places.ts].  On a cache
    miss, when the first response is a field-mask error, the call is made
    once more with [DEFAULT_FIELDS] and never again: the calls sent are the
    first call and that one, whatever the second response is, and a second
    response that is not ok is passed on with its status and body.  When
    the first response fails in any other way it is passed on with its
    status and body, and the first call is the only one sent. *)
Lemma places_details_fallback_once env order req key pid w r :
  dispatched env req "details" key ->
  b_placeId (bodyOf req) = Some pid -> pid <> "" ->
  let fields := orDefault Places.DEFAULT_FIELDS (b_fields (bodyOf req)) in
  let rawId := Places.normalizeId pid in
  let cacheKey := Places.cacheKeyOf rawId fields in
  let first := detailsFetch key rawId fields in
  let again := detailsFetch key rawId Places.DEFAULT_FIELDS in
  misses env w cacheKey ->
  upstream env 0 first = Resolved r ->
  r_ok r = false ->
  (isFieldMaskError r = true ->
   sent (snd (Places.handler env order req w)) = (sent w ++ [first; again])%list
   /\ forall r', upstream env 1 again = Resolved r' -> r_ok r' = false ->
                 Places.handler env order req w =
                   (Returned (googleErrorRes (r_status r') (r_text r')),
                    afterCalls (afterGet env w cacheKey) [first; again]))
  /\ (isFieldMaskError r = false ->
      Places.handler env order req w =
        (Returned (googleErrorRes (r_status r) (r_text r)),
         afterCalls (afterGet env w cacheKey) [first])).
Proof.
  intros D P N fields rawId cacheKey first again Miss U Ok.
  remember (Places.handler env order req w) as out eqn:E.
  rewrite (places_handler_details _ _ _ _ _ D) in E.
  unfold try_catch in E.
  rewrite (places_details_miss env key (bodyOf req) pid w P N Miss) in E.
  fold fields rawId cacheKey first again in E. cbv zeta in E.
  unfold bind at 1 in E. rewrite fetch_run, U, Ok in E.
  cbn [negb] in E.
  split; intros F; rewrite F in E; cbv beta iota in E.
  - unfold bind at 1 in E. rewrite fetch_run in E.
    rewrite afterCalls_afterCalls in E. simpl app in E.
    destruct (upstream env 1 again) as [r'|e] eqn:U'.
    + split.
      * destruct (r_ok r'); simpl in E.
        -- unfold bind, json in E.
           destruct (r_json r'); subst out; reflexivity.
        -- subst out. reflexivity.
      * intros r0 E0 Ok'. inversion E0; subst r0.
        rewrite Ok' in E. exact E.
    + split; [subst out; reflexivity|].
      intros r0 E0. discriminate.
  - exact E.
Qed.

(** *** [Promise.all] *)


Lemma nth_error_update_same {A : Type} i (x : A) l :
  (i < List.length l)%nat -> nth_error (update i x l) i = Some x.
Proof.
  revert i. induction l as [|y l IH]; intros [|i]; simpl; intros H;
    try lia; auto.
  apply IH. lia.
Qed.

Lemma nth_error_update_other {A : Type} i j (x : A) l :
  i <> j -> nth_error (update i x l) j = nth_error l j.
Proof.
  revert i j. induction l as [|y l IH]; intros [|i] [|j] N; simpl; auto;
    try congruence.
Qed.

Lemma Forall2_update {A B : Type} (Q : A -> B -> Prop) i x l vs v :
  Forall2 Q l vs -> nth_error vs i = Some v -> Q x v ->
  Forall2 Q (update i x l) vs.
Proof.
  intros F. revert i. induction F as [|a b l vs Hab F IH]; intros [|i]; simpl;
    intros E H; try discriminate.
  - inversion E; subst. constructor; auto.
  - constructor; auto.
Qed.

Lemma Forall2_nth_error {A B : Type} (Q : A -> B -> Prop) l vs i a :
  Forall2 Q l vs -> nth_error l i = Some a ->
  exists b, nth_error vs i = Some b /\ Q a b.
Proof.
  intros F. revert i. induction F as [|a0 b l vs Hab F IH]; intros [|i]; simpl;
    intros E; try discriminate.
  - inversion E; subst. eauto.
  - eauto.
Qed.

(** Resuming a callback keeps what every promise yields, and rejects
    nothing. *)
Lemma resume_yields i ps w vs :
  Forall2 yields ps vs ->
  exists ps' w',
    resume i (ps, None, w) = (ps', None, w')
    /\ Forall2 yields ps' vs
    /\ (forall j v, nth_error ps j = Some (Fulfilled v) ->
                    nth_error ps' j = Some (Fulfilled v))
    /\ ((i < List.length ps)%nat ->
        exists v, nth_error ps' i = Some (Fulfilled v)).
Proof.
  intros F. unfold resume.
  destruct (nth_error ps i) as [p|] eqn:E.
  - destruct (Forall2_nth_error _ _ _ _ _ F E) as (v & Ev & [Y|(rest & Y & R)]);
      subst p.
    + exists ps, w. repeat split; auto. intros _. eauto.
    + destruct (R w) as (w' & Rw). rewrite Rw.
      exists (update i (Fulfilled v) ps), w'.
      assert (L : (i < List.length ps)%nat)
        by (apply nth_error_Some; congruence).
      repeat split.
      * eapply Forall2_update; eauto. now left.
      * intros j v0 Hj. destruct (Nat.eq_dec i j) as [->|Nij].
        -- congruence.
        -- now rewrite nth_error_update_other.
      * intros _. exists v. now apply nth_error_update_same.
  - exists ps, w. repeat split; auto.
    intros L. apply nth_error_None in E. lia.
Qed.

Lemma fold_resume_yields l ps w vs :
  Forall2 yields ps vs ->
  exists ps' w',
    fold_left (fun st i => resume i st) l (ps, None, w) = (ps', None, w')
    /\ Forall2 yields ps' vs
    /\ (forall j v, nth_error ps j = Some (Fulfilled v) ->
                    nth_error ps' j = Some (Fulfilled v))
    /\ (forall i, In i l -> (i < List.length ps)%nat ->
                  exists v, nth_error ps' i = Some (Fulfilled v)).
Proof.
  revert ps w. induction l as [|i l IH]; cbn [fold_left]; intros ps w F.
  - exists ps, w. repeat split; auto. intros i [].
  - destruct (resume_yields i ps w vs F) as (ps1 & w1 & E1 & F1 & K1 & D1).
    rewrite E1.
    destruct (IH ps1 w1 F1) as (ps2 & w2 & E2 & F2 & K2 & D2).
    exists ps2, w2. repeat split; auto.
    assert (Len : List.length ps1 = List.length ps).
    { apply Forall2_length in F, F1. congruence. }
    intros j [<-|Hj] L.
    + destruct (D1 L) as (v & Hv). exists v. auto.
    + apply D2; auto. lia.
Qed.

Lemma all_fulfilled_values ps vs :
  Forall2 yields ps vs ->
  (forall i, (i < List.length ps)%nat ->
             exists v, nth_error ps i = Some (Fulfilled v)) ->
  map value ps = vs.
Proof.
  intros F. induction F as [|p v ps vs Y F IH]; simpl; intros H; auto.
  f_equal.
  - destruct (H O) as (v0 & E0); [simpl; lia|]. simpl in E0.
    inversion E0; subst p. simpl.
    destruct Y as [Y|(rest & Y & _)]; congruence.
  - apply IH. intros i L. apply (H (S i)). simpl. lia.
Qed.

Lemma firstFailed_yields ps vs : Forall2 yields ps vs -> firstFailed ps = None.
Proof.
  intros F. unfold firstFailed.
  induction F as [|p v ps vs Y F IH]; simpl; auto.
  destruct Y as [->|(rest & -> & _)]; simpl; auto.
Qed.

(** [Promise.all] over callbacks that all yield a value resolves with the
    array of these values, in the order of the identifiers, whatever the
    order in which the callbacks finish. *)
Lemma Promise_all_yields order callback ids w ps w1 vs :
  mapCall callback ids w = (ps, w1) ->
  Forall2 yields ps vs ->
  exists w', Promise_all order callback ids w = (Returned vs, w').
Proof.
  intros E F. unfold Promise_all. rewrite E.
  rewrite (firstFailed_yields _ _ F).
  destruct (fold_resume_yields (order ++ seq 0 (List.length ids)) ps w1 vs F)
    as (ps' & w' & E' & F' & _ & D).
  rewrite E'. exists w'. f_equal. f_equal.
  apply all_fulfilled_values; auto.
  assert (Len : List.length ps = List.length ids).
  { clear -E. revert w ps w1 E.
    induction ids as [|pid ids IH]; simpl; intros w ps w1 E.
    - now inversion E.
    - destruct (call (callback pid) w) as [p w0].
      destruct (mapCall callback ids w0) as [ps0 w2] eqn:E0.
      inversion E; subst. simpl. f_equal. eapply IH; eauto. }
  intros i L.
  assert (Len' : List.length ps' = List.length ps).
  { apply Forall2_length in F, F'. congruence. }
  apply D; [|lia].
  apply in_or_app. right. apply in_seq. lia.
Qed.

(** *** The callbacks of the batch branch *)

Lemma settle_run env n f w :
  settle env n f w =
    match upstream env n f with
    | Resolved r => (Returned r, w)
    | Rejected e => (Thrown e, w)
    end.
Proof. unfold settle. now destruct (upstream env n f). Qed.

Lemma cachePut_run env k j w :
  cachePut env k j 3600 w = (Returned tt, afterPut env w k j).
Proof. reflexivity. Qed.

(** The end of a callback of [src/api/places.ts], from the response on. *)
Lemma places_item_finish env rawId cacheKey r w :
  (if negb (r_ok r)
   then ret (itemError rawId (r_status r) (r_text r))
   else
     j <- json r ;;
     cachePut env cacheKey j 3600 ;;;
     ret (itemSuccess rawId j false)) w =
    finishItem env rawId cacheKey (Resolved r) w.
Proof.
  unfold finishItem. destruct (r_ok r); simpl; auto.
  unfold bind, json. destruct (r_json r); reflexivity.
Qed.

(** A callback of [src/api/places.ts]: on a hit it returns the cached value
    at once; on a miss it issues the first call and, when resumed, ends
    with what the lookup ends with, having sent the second call if there
    is one. *)
Lemma places_batchItem_call env key fields pid w :
  let rawId := Places.normalizeId pid in
  let cacheKey := Places.cacheKeyOf rawId fields in
  let cached := fst (get (clock env (ticks w)) cacheKey (CACHE w)) in
  (truthy cached = true ->
   call (Places.batchItem env key fields pid) w =
     (Fulfilled (itemSuccess rawId cached true), afterGet env w cacheKey))
  /\ (truthy cached = false ->
      exists rest,
        call (Places.batchItem env key fields pid) w =
          (Pending rest,
           afterCalls (afterGet env w cacheKey)
                      [detailsFetch key rawId fields])
        /\ forall w2,
             rest w2 =
               finishItem env rawId cacheKey
                          (lookupPlaces env key rawId fields)
                          (afterCalls w2 (secondCalls env key rawId fields))).
Proof.
  intros rawId cacheKey cached.
  unfold call, Places.batchItem. fold rawId. fold cacheKey.
  rewrite (bind_run _ _ _ _ _ (cacheGet_run env cacheKey w)).
  fold cached. split; intros T; rewrite T.
  - reflexivity.
  - eexists. split; [reflexivity|].
    intros w2. cbv zeta. unfold bind at 1.
    rewrite settle_run. unfold lookupPlaces, secondCalls.
    fold (isFieldMaskError).
    destruct (upstream env 0 (detailsFetch key rawId fields)) as [r|e].
    + destruct (r_ok r) eqn:Ok; cbn [negb andb]; cbv beta iota.
      * rewrite <- places_item_finish. rewrite Ok. cbn [negb].
        unfold afterCalls. rewrite app_nil_r. now destruct w2.
      * change ((r_status r =? 400) && fieldsErrorTest (r_text r))%bool
          with (isFieldMaskError r).
        destruct (isFieldMaskError r).
        -- unfold bind at 1. rewrite fetch_run.
           destruct (upstream env 1
                       (detailsFetch key rawId Places.DEFAULT_FIELDS))
             as [r'|e']; [|reflexivity].
           apply places_item_finish.
        -- unfold finishItem. rewrite Ok.
           unfold afterCalls. rewrite app_nil_r. now destruct w2.
    + unfold finishItem, afterCalls. rewrite app_nil_r. now destruct w2.
Qed.

(** A callback of the second handler file: the same, without the second
    call, and with the identifier as it was received. *)
Lemma part000_batchItem_call env key fields pid w :
  let cacheKey := Part000.cacheKeyOf pid fields in
  let cached := fst (get (clock env (ticks w)) cacheKey (CACHE w)) in
  (truthy cached = true ->
   call (Part000.batchItem env key fields pid) w =
     (Fulfilled (itemSuccess pid cached true), afterGet env w cacheKey))
  /\ (truthy cached = false ->
      exists rest,
        call (Part000.batchItem env key fields pid) w =
          (Pending rest,
           afterCalls (afterGet env w cacheKey)
                      [detailsFetch key pid (sort fields)])
        /\ forall w2,
             rest w2 =
               finishItem env pid cacheKey
                          (lookupPart000 env key pid fields) w2).
Proof.
  intros cacheKey cached.
  unfold call, Part000.batchItem. fold cacheKey.
  rewrite (bind_run _ _ _ _ _ (cacheGet_run env cacheKey w)).
  fold cached. split; intros T; rewrite T.
  - reflexivity.
  - eexists. split; [reflexivity|].
    intros w2. unfold bind at 1.
    rewrite settle_run. unfold lookupPart000.
    destruct (upstream env 0 (detailsFetch key pid (sort fields))) as [r|e];
      [|reflexivity].
    apply places_item_finish.
Qed.

Lemma finishItem_answers env id cacheKey cached out :
  truthy cached = false ->
  (exists r, out = Resolved r
             /\ (r_ok r = true -> exists j, r_json r = Payload j)) ->
  exists v,
    (forall w, exists w', finishItem env id cacheKey out w = (Returned v, w'))
    /\ itemEntry id cached out v.
Proof.
  intros T (r & -> & D). unfold finishItem, itemEntry, entryOf. rewrite T.
  destruct (r_ok r) eqn:Ok.
  - destruct (D eq_refl) as (j & J). rewrite J.
    exists (itemSuccess id j false). split; [eauto | reflexivity].
  - exists (itemError id (r_status r) (r_text r)).
    split; [eauto | reflexivity].
Qed.

Lemma lookupPlaces_answers env key rawId fields :
  answers env ->
  exists r, lookupPlaces env key rawId fields = Resolved r
            /\ (r_ok r = true -> exists j, r_json r = Payload j).
Proof.
  intros A. unfold lookupPlaces.
  destruct (A O (detailsFetch key rawId fields)) as (r & -> & D).
  destruct (negb (r_ok r) && isFieldMaskError r)%bool; eauto.
Qed.

Lemma lookupPart000_answers env key id fields :
  answers env ->
  exists r, lookupPart000 env key id fields = Resolved r
            /\ (r_ok r = true -> exists j, r_json r = Payload j).
Proof. intros A. apply A. Qed.

Lemma places_mapCall_yields env key fields ids w :
  answers env ->
  exists ps w1 vs,
    mapCall (Places.batchItem env key fields) ids w = (ps, w1)
    /\ Forall2 yields ps vs
    /\ batchEntries env Places.normalizeId
         (fun pid => Places.cacheKeyOf (Places.normalizeId pid) fields)
         (fun pid => lookupPlaces env key (Places.normalizeId pid) fields)
         ids (CACHE w) (ticks w) vs.
Proof.
  intros A. revert w. induction ids as [|pid ids IH]; intros w; simpl.
  - exists [], w, []. repeat split; constructor.
  - destruct (places_batchItem_call env key fields pid w) as [Hit Miss].
    set (rawId := Places.normalizeId pid) in *.
    set (cacheKey := Places.cacheKeyOf rawId fields) in *.
    destruct (truthy (fst (get (clock env (ticks w)) cacheKey (CACHE w))))
      eqn:T.
    + rewrite (Hit eq_refl).
      destruct (IH (afterGet env w cacheKey)) as (ps & w1 & vs & E & Y & I).
      rewrite E. do 3 eexists. split; [reflexivity|]. split.
      * constructor; [left; reflexivity | exact Y].
      * split; [|exact I]. unfold itemEntry, entryOf. now rewrite T.
    + destruct (Miss eq_refl) as (rest & C & R). rewrite C.
      destruct (IH (afterCalls (afterGet env w cacheKey)
                               [detailsFetch key rawId fields]))
        as (ps & w1 & vs & E & Y & I).
      rewrite E.
      destruct (finishItem_answers env rawId cacheKey _ _ T
                  (lookupPlaces_answers env key rawId fields A))
        as (v & F & En).
      exists (Pending rest :: ps), w1, (v :: vs).
      split; [reflexivity|]. split.
      * constructor; [|exact Y]. right. exists rest. split; auto.
        intros w2. rewrite R. apply F.
      * split; [exact En | exact I].
Qed.

Lemma part000_mapCall_yields env key fields ids w :
  answers env ->
  exists ps w1 vs,
    mapCall (Part000.batchItem env key fields) ids w = (ps, w1)
    /\ Forall2 yields ps vs
    /\ batchEntries env (fun pid => pid)
         (fun pid => Part000.cacheKeyOf pid fields)
         (fun pid => lookupPart000 env key pid fields)
         ids (CACHE w) (ticks w) vs.
Proof.
  intros A. revert w. induction ids as [|pid ids IH]; intros w; simpl.
  - exists [], w, []. repeat split; constructor.
  - destruct (part000_batchItem_call env key fields pid w) as [Hit Miss].
    set (cacheKey := Part000.cacheKeyOf pid fields) in *.
    destruct (truthy (fst (get (clock env (ticks w)) cacheKey (CACHE w))))
      eqn:T.
    + rewrite (Hit eq_refl).
      destruct (IH (afterGet env w cacheKey)) as (ps & w1 & vs & E & Y & I).
      rewrite E. do 3 eexists. split; [reflexivity|]. split.
      * constructor; [left; reflexivity | exact Y].
      * split; [|exact I]. unfold itemEntry, entryOf. now rewrite T.
    + destruct (Miss eq_refl) as (rest & C & R). rewrite C.
      destruct (IH (afterCalls (afterGet env w cacheKey)
                               [detailsFetch key pid (sort fields)]))
        as (ps & w1 & vs & E & Y & I).
      rewrite E.
      destruct (finishItem_answers env pid cacheKey _ _ T
                  (lookupPart000_answers env key pid fields A))
        as (v & F & En).
      exists (Pending rest :: ps), w1, (v :: vs).
      split; [reflexivity|]. split.
      * constructor; [|exact Y]. right. exists rest. split; auto.
        intros w2. rewrite R. apply F.
      * split; [exact En | exact I].
Qed.

Lemma batchEntries_length env idOf keyOf lookup ids :
  forall c t results,
    batchEntries env idOf keyOf lookup ids c t results ->
    List.length results = List.length ids.
Proof.
  induction ids as [|pid ids IH]; intros c t [|v results] H; simpl in *;
    try tauto.
  destruct H as [_ H]. f_equal. eapply IH; eauto.
Qed.

(** With nothing in the cache for any identifier of the batch, every [get]
    returns [null] and every entry is the one of the lookup. *)
Lemma batchEntries_cold env idOf keyOf lookup ids :
  forall c t results,
    (forall pid, In pid ids -> Map_get (keyOf pid) c = None) ->
    batchEntries env idOf keyOf lookup ids c t results ->
    Forall2 (fun pid v => itemEntry (idOf pid) JNull (lookup pid) v)
            ids results.
Proof.
  induction ids as [|pid ids IH]; intros c t [|v results] N H; simpl in *;
    try tauto; [constructor|].
  destruct H as [E H].
  assert (G : get (clock env t) (keyOf pid) c = (JNull, c)).
  { unfold get. now rewrite (N pid (or_introl eq_refl)). }
  rewrite G in E, H. simpl in E, H.
  constructor; [exact E|].
  apply (IH c (S t)); auto.
Qed.

(** An entry is a success entry or an error entry; it is an error entry
    exactly when nothing truthy was cached and the lookup ended with a
    response that is not 2xx. *)
Lemma itemEntry_shape id cached out v :
  itemEntry id cached out v ->
  (isSuccessEntry id v \/ isErrorEntry id v)
  /\ (truthy cached = false ->
      forall r, out = Resolved r ->
                (r_ok r = false -> v = itemError id (r_status r) (r_text r))
                /\ (r_ok r = true -> isSuccessEntry id v)).
Proof.
  unfold itemEntry, entryOf. destruct (truthy cached).
  - intros E. injection E as <-. split; [|discriminate].
    left. now exists cached, true.
  - destruct out as [r|e]; [|discriminate].
    destruct (r_ok r) eqn:Ok.
    + destruct (r_json r) as [j|e]; [|discriminate].
      intros E. injection E as <-. split.
      * left. now exists j, false.
      * intros _ r0 R. injection R as <-. split; [congruence|].
        intros _. now exists j, false.
    + intros E. injection E as <-. split.
      * right. now exists (r_status r), (r_text r).
      * intros _ r0 R. injection R as <-. split; [reflexivity|congruence].
Qed.

(** C6, amended.  A valid [batchDetails] request with [n] identifiers,
    [1 <= n <= 50], all of whose outbound calls get a response from the
    provider, the 2xx ones with a body that decodes, is answered 200 with
    [n] entries, the [i]-th being the entry of the [i]-th identifier.  That
    entry is fixed by what [get] returns to the callback of the identifier
    and by the lookup of the identifier, and by nothing else: the cached
    value in a success entry when [get] returns a truthy value; otherwise
    the payload of the lookup in a success entry when the lookup ends with a
    2xx response, and the status and body in an error entry when it ends
    with a response that is not 2xx.  So a response that is not 2xx for one
    identifier gives the error entry of that identifier, leaves the entries
    of the others as they are, and the request does not end in the [catch]
    block.  In particular, when the cache has nothing for the identifiers of
    the batch, every entry is the one of the lookup.  In both handler files,
    and in whatever order the lookups finish. *)
Theorem batch_entries_one_per_identifier
        (env : Env) (order : list nat) (req : Request) (key : string)
        (ids : list string) (w : World) :
  dispatched env req "batchDetails" key ->
  b_placeIds (bodyOf req) = PlaceIds_array ids ->
  (1 <= List.length ids <= 50)%nat ->
  answers env ->
  (let fields := orDefault Places.DEFAULT_FIELDS (b_fields (bodyOf req)) in
   let idOf := Places.normalizeId in
   let keyOf := fun pid => Places.cacheKeyOf (Places.normalizeId pid) fields in
   let lookup :=
     fun pid => lookupPlaces env key (Places.normalizeId pid) fields in
   exists results w',
     Places.handler env order req w = (Returned (batchRes results), w')
     /\ List.length results = List.length ids
     /\ batchEntries env idOf keyOf lookup ids (CACHE w) (ticks w) results
     /\ ((forall pid, In pid ids -> Map_get (keyOf pid) (CACHE w) = None) ->
         Forall2 (fun pid v => itemEntry (idOf pid) JNull (lookup pid) v)
                 ids results))
  /\ (let fields := orDefault Part000.defaultFields (b_fields (bodyOf req)) in
      let idOf := fun pid : string => pid in
      let keyOf := fun pid => Part000.cacheKeyOf pid fields in
      let lookup := fun pid => lookupPart000 env key pid fields in
      exists results w',
        Part000.handler env order req w = (Returned (batchRes results), w')
        /\ List.length results = List.length ids
        /\ batchEntries env idOf keyOf lookup ids (CACHE w) (ticks w) results
        /\ ((forall pid, In pid ids -> Map_get (keyOf pid) (CACHE w) = None) ->
            Forall2 (fun pid v => itemEntry (idOf pid) JNull (lookup pid) v)
                    ids results)).
Proof.
  intros D P [L1 L2] A.
  assert (N : Nat.eqb (List.length ids) 0 = false)
    by (apply Nat.eqb_neq; lia).
  assert (T : Nat.ltb 50 (List.length ids) = false)
    by (apply Nat.ltb_ge; lia).
  unfold Places.handler, Part000.handler.
  rewrite !(dispatch_routes _ _ _ _ _ _ D batchDetails_allowed)
    by discriminate.
  unfold Places.routes, Part000.routes. simpl.
  unfold Places.batchDetails, Part000.batchDetails.
  rewrite P, N, T. split.
  - set (fields := orDefault Places.DEFAULT_FIELDS (b_fields (bodyOf req))).
    destruct (places_mapCall_yields env key fields ids w A)
      as (ps & w1 & vs & E & Y & I).
    destruct (Promise_all_yields order _ _ _ _ _ _ E Y) as (w' & R).
    exists vs, w'. split; [|split; [|split]].
    + apply try_catch_returned.
      rewrite (bind_run _ _ _ _ _ R). reflexivity.
    + eapply batchEntries_length; eauto.
    + exact I.
    + intros Cold.
      exact (batchEntries_cold env _ _ _ ids (CACHE w) (ticks w) vs Cold I).
  - set (fields := orDefault Part000.defaultFields (b_fields (bodyOf req))).
    destruct (part000_mapCall_yields env key fields ids w A)
      as (ps & w1 & vs & E & Y & I).
    destruct (Promise_all_yields order _ _ _ _ _ _ E Y) as (w' & R).
    exists vs, w'. split; [|split; [|split]].
    + apply try_catch_returned.
      rewrite (bind_run _ _ _ _ _ R). reflexivity.
    + eapply batchEntries_length; eauto.
    + exact I.
    + intros Cold.
      exact (batchEntries_cold env (fun pid => pid) _ _ ids (CACHE w)
               (ticks w) vs Cold I).
Qed.

Lemma oneUnknown_answers : answers (sampleEnv oneUnknown).
Proof.
  intros n f. unfold sampleEnv, oneUnknown. simpl.
  destruct (includes "/places/ChIJbad?" (f_url f)); eexists;
    (split; [reflexivity|]); simpl; intros H; [discriminate | eauto].
Qed.

(** The scenario of the specification: three identifiers, the provider
    fails for one of them, nothing is cached. *)
Lemma batch_entries_one_per_identifier_witness :
  exists results w',
    Places.handler (sampleEnv oneUnknown) [2; 0]%nat
                   (post (batchBody ["ChIJa"; "ChIJbad"; "places/ChIJc"]
                                    None))
                   freshWorld = (Returned (batchRes results), w')
    /\ List.length results = 3%nat
    /\ Forall2
         (fun pid v =>
            itemEntry (Places.normalizeId pid) JNull
              (lookupPlaces (sampleEnv oneUnknown) "gkey"
                 (Places.normalizeId pid) Places.DEFAULT_FIELDS) v)
         ["ChIJa"; "ChIJbad"; "places/ChIJc"] results.
Proof.
  assert (D : dispatched (sampleEnv oneUnknown)
                (post (batchBody ["ChIJa"; "ChIJbad"; "places/ChIJc"] None))
                "batchDetails" "gkey").
  { unfold dispatched. simpl. repeat split; try reflexivity; discriminate. }
  destruct (batch_entries_one_per_identifier
              (sampleEnv oneUnknown) [2; 0]%nat
              (post (batchBody ["ChIJa"; "ChIJbad"; "places/ChIJc"] None))
              "gkey" ["ChIJa"; "ChIJbad"; "places/ChIJc"] freshWorld
              D eq_refl)
    as [(results & w' & E & L & _ & C) _].
  - simpl. lia.
  - exact oneUnknown_answers.
  - exists results, w'. split; [exact E|]. split; [exact L|].
    apply C. intros pid _. reflexivity.
Defined.

(** The same scenario, computed: two success entries and one error entry,
    in the order of the identifiers, in both handler files. *)
Example batch_isolation_scenario :
  fst (Places.handler (sampleEnv oneUnknown) [2; 0]%nat
         (post (batchBody ["ChIJa"; "ChIJbad"; "places/ChIJc"] None))
         freshWorld) =
    Returned (batchRes
      [itemSuccess "ChIJa" (JObj [("id", JStr "x")]) false;
       itemError "ChIJbad" 404 "not found";
       itemSuccess "ChIJc" (JObj [("id", JStr "x")]) false])
  /\ fst (Part000.handler (sampleEnv oneUnknown) [2; 0]%nat
            (post (batchBody ["ChIJa"; "ChIJbad"; "ChIJc"] None))
            freshWorld) =
       Returned (batchRes
         [itemSuccess "ChIJa" (JObj [("id", JStr "x")]) false;
          itemError "ChIJbad" 404 "not found";
          itemSuccess "ChIJc" (JObj [("id", JStr "x")]) false]).
Proof. split; vm_compute; reflexivity. Qed.

(** *** Hits, and what the fallback leaves in the cache *)




(** The [details] branch of [src/api/places.ts] on a miss, in one piece:
    the first call is sent, then the second one if there is one, and the
    branch ends with what the lookup ends with. *)
Lemma places_details_run env key b pid w :
  b_placeId b = Some pid -> pid <> "" ->
  let fields := orDefault Places.DEFAULT_FIELDS (b_fields b) in
  let rawId := Places.normalizeId pid in
  let cacheKey := Places.cacheKeyOf rawId fields in
  misses env w cacheKey ->
  Places.details env key b w =
    finishDetails env cacheKey (lookupPlaces env key rawId fields)
      (afterCalls (afterGet env w cacheKey)
                  (detailsFetch key rawId fields
                     :: secondCalls env key rawId fields)).
Proof.
  intros P N fields rawId cacheKey Miss.
  rewrite (places_details_miss env key b pid w P N Miss).
  fold fields rawId cacheKey. cbv zeta.
  assert (Fin : forall r w0,
             (if negb (r_ok r) then google_error (r_status r) (r_text r)
              else
                j <- json r ;;
                cachePut env cacheKey j 3600 ;;;
                respond 200 (JObj [("data", j); ("cached", JBool false)])) w0
             = finishDetails env cacheKey (Resolved r) w0).
  { intros r0 w0. unfold finishDetails. destruct (r_ok r0); simpl; auto.
    unfold bind, json. destruct (r_json r0); reflexivity. }
  unfold bind at 1. rewrite fetch_run.
  unfold lookupPlaces, secondCalls.
  destruct (upstream env 0 (detailsFetch key rawId fields)) as [r|e];
    [|reflexivity].
  destruct (r_ok r) eqn:Ok; cbn [negb andb]; cbv beta iota.
  - rewrite <- Fin. now rewrite Ok.
  - destruct (isFieldMaskError r).
    + unfold bind at 1. rewrite fetch_run, afterCalls_afterCalls.
      destruct (upstream env 1 (detailsFetch key rawId Places.DEFAULT_FIELDS))
        as [r'|e']; [|reflexivity].
      apply Fin.
    + unfold finishDetails. now rewrite Ok.
Qed.

Lemma freshWorld_wf : wf (CACHE freshWorld).
Proof.
  split; [constructor | unfold Map_size, MAX_ENTRIES; simpl; lia].
Qed.


(** *** The fallback, call by call *)

Lemma finishItem_sent env id cacheKey out w :
  sent (snd (finishItem env id cacheKey out w)) = sent w.
Proof.
  unfold finishItem. destruct out as [r|e]; auto.
  destruct (r_ok r); auto. destruct (r_json r); auto.
Qed.

(** A detail lookup of [src/api/places.ts] sends one more call, with
    [DEFAULT_FIELDS], exactly when its first response is not ok and is a
    field-mask error; the outcome of that call does not matter. *)
Lemma secondCalls_cases env key rawId fields :
  (forall r, upstream env 0 (detailsFetch key rawId fields) = Resolved r ->
             r_ok r = false -> isFieldMaskError r = true ->
             secondCalls env key rawId fields =
               [detailsFetch key rawId Places.DEFAULT_FIELDS])
  /\ (forall r, upstream env 0 (detailsFetch key rawId fields) = Resolved r ->
                r_ok r = true \/ isFieldMaskError r = false ->
                secondCalls env key rawId fields = [])
  /\ (forall e, upstream env 0 (detailsFetch key rawId fields) = Rejected e ->
                secondCalls env key rawId fields = []).
Proof.
  unfold secondCalls. repeat split.
  - intros r -> Ok F. now rewrite Ok, F.
  - intros r -> [Ok|F]; [now rewrite Ok|].
    rewrite F. now rewrite andb_false_r.
  - now intros e ->.
Qed.

(** The fallback in a callback of the batch branch of [src/api/places.ts].
    On a miss the callback issues the first call; when resumed it sends the
    second call if the first response is a field-mask error, and no call
    otherwise; then it ends, with the error entry of the last response when
    that one is not ok. *)
Lemma places_batchItem_fallback_once env key fields pid w r :
  let rawId := Places.normalizeId pid in
  let cacheKey := Places.cacheKeyOf rawId fields in
  let first := detailsFetch key rawId fields in
  let again := detailsFetch key rawId Places.DEFAULT_FIELDS in
  misses env w cacheKey ->
  upstream env 0 first = Resolved r ->
  r_ok r = false ->
  exists rest,
    call (Places.batchItem env key fields pid) w =
      (Pending rest, afterCalls (afterGet env w cacheKey) [first])
    /\ (isFieldMaskError r = true ->
        forall w2,
          sent (snd (rest w2)) = (sent w2 ++ [again])%list
          /\ forall r', upstream env 1 again = Resolved r' ->
                        r_ok r' = false ->
                        rest w2 =
                          (Returned
                             (itemError rawId (r_status r') (r_text r')),
                           afterCalls w2 [again]))
    /\ (isFieldMaskError r = false ->
        forall w2,
          rest w2 =
            (Returned (itemError rawId (r_status r) (r_text r)), w2)).
Proof.
  intros rawId cacheKey first again Miss U Ok.
  destruct (places_batchItem_call env key fields pid w) as [_ M].
  destruct (M Miss) as (rest & C & R). fold rawId cacheKey first in C.
  exists rest. split; [exact C|].
  destruct (secondCalls_cases env key rawId fields) as (S1 & S2 & _).
  fold first again in S1, S2.
  split; intros F w2; rewrite R; fold rawId cacheKey.
  - rewrite (S1 r U Ok F). split.
    + now rewrite finishItem_sent.
    + intros r' U' Ok'. unfold lookupPlaces. fold first again.
      rewrite U, Ok, F, U'. simpl. unfold finishItem. now rewrite Ok'.
  - rewrite (S2 r U (or_intror F)).
    unfold lookupPlaces. fold first. rewrite U, Ok, F. simpl.
    unfold finishItem. rewrite Ok.
    unfold afterCalls. rewrite app_nil_r. now destruct w2.
Qed.

(** C1. The second handler file has no fallback: a [details] lookup, single
    or in a batch, whose first response is the field-mask error is not made
    again; the 400 is passed on and one call has been sent.  On the same
    request [src/api/places.ts] makes the call again with [DEFAULT_FIELDS]
    and answers with its payload. *)
Theorem part000_field_mask_error_not_retried :
  let env := sampleEnv rejectsBogus in
  let req := post (detailsBody "ChIJabc" (Some ["bogus"])) in
  let batch := post (batchBody ["ChIJabc"] (Some ["bogus"])) in
  let first := detailsFetch "gkey" "ChIJabc" ["bogus"] in
  let again := detailsFetch "gkey" "ChIJabc" Places.DEFAULT_FIELDS in
  upstream env 0 first = Resolved bogusError
  /\ r_ok bogusError = false
  /\ isFieldMaskError bogusError = true
  /\ Part000.handler env [] req freshWorld =
       (Returned (googleErrorRes 400 (r_text bogusError)),
        mkWorld [] 1 [first])
  /\ Part000.handler env [] batch freshWorld =
       (Returned (batchRes [itemError "ChIJabc" 400 (r_text bogusError)]),
        mkWorld [] 1 [first])
  /\ fst (Places.handler env [] req freshWorld) =
       Returned (dataRes place false)
  /\ sent (snd (Places.handler env [] req freshWorld)) = [first; again]
  /\ fst (Places.handler env [] batch freshWorld) =
       Returned (batchRes [itemSuccess "ChIJabc" place false])
  /\ sent (snd (Places.handler env [] batch freshWorld)) = [first; again].
Proof. repeat split; vm_compute; reflexivity. Qed.

(** *** Identifiers with the [places/] prefix *)

Lemma normalizeId_prefixed raw : Places.normalizeId ("places/" ++ raw) = raw.
Proof. destruct raw; reflexivity. Qed.

Lemma normalizeId_raw raw :
  startsWith "places/" raw = false -> Places.normalizeId raw = raw.
Proof. unfold Places.normalizeId. now intros ->. Qed.

(** In [src/api/places.ts] the raw form of an identifier and its prefixed
    form give the same cache key and the same outbound call, and the
    [details] branch and the callback of the batch branch do the same for
    both. *)
Lemma places_identifier_normalized env key raw fields :
  startsWith "places/" raw = false ->
  Places.cacheKeyOf (Places.normalizeId ("places/" ++ raw)) fields =
    Places.cacheKeyOf (Places.normalizeId raw) fields
  /\ detailsFetch key (Places.normalizeId ("places/" ++ raw)) fields =
       detailsFetch key (Places.normalizeId raw) fields
  /\ Places.batchItem env key fields ("places/" ++ raw) =
       Places.batchItem env key fields raw
  /\ (raw <> "" ->
      forall fs,
        Places.details env key (detailsBody ("places/" ++ raw) fs) =
          Places.details env key (detailsBody raw fs)).
Proof.
  intros H. unfold Places.batchItem, Places.details.
  cbn [b_placeId b_fields detailsBody orDefault nonEmpty].
  rewrite normalizeId_prefixed, (normalizeId_raw raw H).
  repeat split; auto.
  intros N fs. apply String.eqb_neq in N. rewrite N. reflexivity.
Qed.

(** C4. The second handler file uses the identifier as it is received: the
    prefixed form has another cache key than the raw form, misses the entry
    the raw form has stored, and goes upstream with the prefix in the URL.
    On the same requests [src/api/places.ts] answers the prefixed form from
    the entry of the raw form. *)
Theorem part000_prefixed_identifier_has_another_key :
  let env := sampleEnv oneUnknown in
  let raw := post (detailsBody "ChIJabc" (Some ["id"])) in
  let prefixed := post (detailsBody "places/ChIJabc" (Some ["id"])) in
  let both := post (batchBody ["ChIJabc"; "places/ChIJabc"] (Some ["id"])) in
  let w1 := snd (Part000.handler env [] raw freshWorld) in
  let w1' := snd (Places.handler env [] raw freshWorld) in
  Part000.cacheKeyOf "places/ChIJabc" ["id"] <>
    Part000.cacheKeyOf "ChIJabc" ["id"]
  /\ fst (Part000.handler env [] raw w1) = Returned (dataRes place true)
  /\ fst (Part000.handler env [] prefixed w1) =
       Returned (dataRes place false)
  /\ map f_url (sent (snd (Part000.handler env [] prefixed w1))) =
       ["https://places.googleapis.com/v1/places/ChIJabc?fields=id";
        "https://places.googleapis.com/v1/places/places%2FChIJabc?fields=id"]
  /\ fst (Part000.handler env [] both w1) =
       Returned (batchRes [itemSuccess "ChIJabc" place true;
                           itemSuccess "places/ChIJabc" place false])
  /\ fst (Places.handler env [] prefixed w1') =
       Returned (dataRes place true)
  /\ sent (snd (Places.handler env [] prefixed w1')) = sent w1'
  /\ fst (Places.handler env [] both w1') =
       Returned (batchRes [itemSuccess "ChIJabc" place true;
                           itemSuccess "ChIJabc" place true]).
Proof.
  repeat split; try (vm_compute; reflexivity).
  vm_compute. discriminate.
Qed.

(** *** Where the claims of the specification stop holding *)

(** C7 as it is stated fails on a CORS preflight: the handler answers it 204
    before it looks at the action. *)
Lemma preflight_with_invalid_action :
  Places.handler (sampleEnv unreachable) [] (preflight "deletePlace")
                 freshWorld =
    (Returned (mkRes 204 CORS None), freshWorld)
  /\ Part000.handler (sampleEnv unreachable) [] (preflight "deletePlace")
                     freshWorld =
       (Returned (mkRes 204 CORS None), freshWorld)
  /\ ALLOWED_has (actionOf (preflight "deletePlace")) = false
  /\ fst (Places.handler (sampleEnv unreachable) [] (preflight "deletePlace")
                         freshWorld) <>
       Returned (errorRes 400 "invalid_action").
Proof. repeat split; try reflexivity. vm_compute. discriminate. Qed.

(** C8 as it is stated fails on a CORS preflight, which carries no gateway
    key: the handler answers it 204 before it looks at the key. *)
Lemma preflight_without_gateway_key :
  Places.handler (sampleEnv unreachable) [] (preflight "details")
                 freshWorld =
    (Returned (mkRes 204 CORS None), freshWorld)
  /\ Part000.handler (sampleEnv unreachable) [] (preflight "details")
                     freshWorld =
       (Returned (mkRes 204 CORS None), freshWorld)
  /\ ALLOWED_has (actionOf (preflight "details")) = true
  /\ q_gateway_key (preflight "details") = None
  /\ fst (Places.handler (sampleEnv unreachable) [] (preflight "details")
                         freshWorld) <>
       Returned (errorRes 401 "unauthorized").
Proof. repeat split; try reflexivity. vm_compute. discriminate. Qed.

(** C9 as it is stated fails on a [batchDetails] request with 51
    identifiers that stops at an earlier check: without the gateway key it
    is answered 401, on a server without provider key 500, and as a
    preflight 204. *)
Lemma oversized_batch_stopped_earlier :
  let b := batchBody (repeat "ChIJabc" 51) None in
  fst (Places.handler (sampleEnv unreachable) []
         (mkRequest "POST" None None (Some b)) freshWorld) =
    Returned (errorRes 401 "unauthorized")
  /\ fst (Places.handler noProviderKey [] (post b) freshWorld) =
       Returned (errorRes 500 "missing_google_api_key")
  /\ fst (Places.handler (sampleEnv unreachable) []
            (mkRequest "OPTIONS" None None (Some b)) freshWorld) =
       Returned (mkRes 204 CORS None)
  /\ fst (Places.handler (sampleEnv unreachable) []
            (mkRequest "POST" None None (Some b)) freshWorld) <>
       Returned (errorRes 400 "too_many_placeIds_max_50").
Proof. repeat split; try reflexivity. vm_compute. discriminate. Qed.

(** C6 as it is stated fails when a lookup throws, which ends the whole
    batch in the [catch] block: with a provider that cannot be reached for
    one of three identifiers, or whose 200 for it does not decode, the
    response is 500 [gateway_exception] and has no entry at all. *)
Lemma batch_lookup_that_throws_fails_the_request :
  let req := post (batchBody ["ChIJa"; "ChIJbad"; "ChIJc"] None) in
  fst (Places.handler (sampleEnv oneUnreachable) [] req freshWorld) =
    Returned (exceptionRes "request to https://places.googleapis.com failed")
  /\ fst (Part000.handler (sampleEnv oneUnreachable) [] req freshWorld) =
       Returned
         (exceptionRes "request to https://places.googleapis.com failed")
  /\ fst (Places.handler (sampleEnv oneGarbled) [] req freshWorld) =
       Returned (exceptionRes "Unexpected token <")
  /\ ~ (exists results,
           fst (Places.handler (sampleEnv oneUnreachable) [] req freshWorld) =
             Returned (batchRes results)).
Proof.
  repeat split; try (vm_compute; reflexivity).
  intros (results & H). vm_compute in H. discriminate.
Qed.

(** Every request gets a response: no exception leaves the handler. *)
Lemma dispatch_returns env routes req w :
  exists res w', dispatch env routes req w = (Returned res, w').
Proof.
  unfold dispatch.
  destruct (q_method req =? "OPTIONS")%string; [unfold ret; eauto|].
  destruct (negb (ALLOWED_has (actionOf req))); [unfold error, respond, ret; eauto|].
  destruct (unauthorized env req); [unfold error, respond, ret; eauto|].
  destruct (actionOf req =? "health")%string;
    [unfold bind, cacheSize, respond, ret; eauto|].
  destruct (GOOGLE_PLACES_API_KEY env) as [k|];
    [|unfold error, respond, ret; eauto].
  destruct (k =? "")%string; [unfold error, respond, ret; eauto|].
  unfold try_catch.
  destruct (routes k (actionOf req) (orDefault noBody (q_body req)) w)
    as [[res|e] w']; [eauto|].
  unfold respond, ret. eauto.
Qed.

(** *** How many calls a batch sends *)

Lemma pendingCount_update_settled i p ps rest :
  nth_error ps i = Some (Pending rest) ->
  match p with Pending _ => False | _ => True end ->
  S (pendingCount (update i p ps)) = pendingCount ps.
Proof.
  unfold pendingCount. revert i.
  induction ps as [|q ps IH]; intros [|i]; simpl; try discriminate.
  - intros E Hp. inversion E; subst q. destruct p; simpl; tauto.
  - intros E Hp. destruct q; simpl; auto using f_equal.
Qed.

Lemma Forall_update {A : Type} (P : A -> Prop) i x l :
  Forall P l -> P x -> Forall P (update i x l).
Proof.
  intros F. revert i. induction F as [|a l Ha F IH]; intros [|i] Hx; simpl;
    constructor; auto.
Qed.

Lemma resume_calls k i ps err w :
  Forall (sendsAtMost k) ps ->
  Forall (sendsAtMost k) (fst (fst (resume i (ps, err, w))))
  /\ (List.length (sent (snd (resume i (ps, err, w))))
      + k * pendingCount (fst (fst (resume i (ps, err, w))))
      <= List.length (sent w) + k * pendingCount ps)%nat.
Proof.
  intros F. unfold resume.
  destruct (nth_error ps i) as [[rest|v|e]|] eqn:E; simpl; auto.
  assert (B : sendsAtMost k (Pending rest)).
  { rewrite Forall_forall in F. apply F. eapply nth_error_In; eauto. }
  simpl in B. specialize (B w).
  destruct (rest w) as [[v|e] w'] eqn:R; simpl in *.
  - split; [apply Forall_update; simpl; auto|].
    pose proof (pendingCount_update_settled i (Fulfilled v) ps rest E I).
    nia.
  - split; [apply Forall_update; simpl; auto|].
    pose proof (pendingCount_update_settled i (Failed e) ps rest E I).
    nia.
Qed.

Lemma fold_resume_calls k l ps err w :
  Forall (sendsAtMost k) ps ->
  (List.length
     (sent (snd (fold_left (fun st i => resume i st) l (ps, err, w))))
   <= List.length (sent w) + k * pendingCount ps)%nat.
Proof.
  revert ps err w. induction l as [|i l IH]; cbn [fold_left];
    intros ps err w F.
  - simpl. lia.
  - destruct (resume_calls k i ps err w F) as [F' B].
    destruct (resume i (ps, err, w)) as [[ps' err'] w']. simpl in *.
    specialize (IH ps' err' w' F'). lia.
Qed.

Lemma Promise_all_calls k order callback ids w :
  (forall pid w0,
      sendsAtMost k (fst (call (callback pid) w0))
      /\ (List.length (sent (snd (call (callback pid) w0)))
          <= List.length (sent w0)
             + match fst (call (callback pid) w0) with
               | Pending _ => 1
               | _ => 0
               end)%nat) ->
  (List.length (sent (snd (Promise_all order callback ids w)))
   <= List.length (sent w) + (1 + k) * List.length ids)%nat.
Proof.
  intros H. unfold Promise_all.
  assert (M : forall w0,
             Forall (sendsAtMost k) (fst (mapCall callback ids w0))
             /\ (List.length (sent (snd (mapCall callback ids w0)))
                 + k * pendingCount (fst (mapCall callback ids w0))
                 <= List.length (sent w0) + (1 + k) * List.length ids)%nat).
  { induction ids as [|pid ids IH]; intros w0; simpl.
    - split; [apply Forall_nil | unfold pendingCount; simpl; lia].
    - destruct (H pid w0) as [S1 L1].
      destruct (call (callback pid) w0) as [p w1]. simpl in S1, L1.
      destruct (IH w1) as [S2 L2].
      destruct (mapCall callback ids w1) as [ps w2]. simpl in *.
      split; [constructor; auto|].
      unfold pendingCount in *. simpl.
      destruct p; simpl; nia. }
  destruct (M w) as [F L].
  destruct (mapCall callback ids w) as [ps w1]. simpl in F, L.
  pose proof (fold_resume_calls k (order ++ seq 0 (List.length ids))
                ps (firstFailed ps) w1 F) as B.
  destruct (fold_left (fun st i => resume i st)
                      (order ++ seq 0 (List.length ids))
                      (ps, firstFailed ps, w1)) as [[ps' err] w2].
  simpl in B. destruct err; simpl; lia.
Qed.

Lemma secondCalls_length env key rawId fields :
  (List.length (secondCalls env key rawId fields) <= 1)%nat.
Proof.
  unfold secondCalls.
  destruct (upstream env 0 (detailsFetch key rawId fields)) as [r|e]; auto.
  destruct (negb (r_ok r) && isFieldMaskError r)%bool; simpl; lia.
Qed.

(** A batch of [src/api/places.ts] sends at most two calls for each
    identifier, the first one and the one made again, whatever the provider
    answers and in whatever order the lookups finish; a batch of the second
    handler file sends at most one. *)
Lemma batch_calls_bounded env order key fields ids w :
  (List.length
     (sent (snd (Promise_all order (Places.batchItem env key fields) ids w)))
   <= List.length (sent w) + 2 * List.length ids)%nat
  /\ (List.length
        (sent (snd (Promise_all order (Part000.batchItem env key fields)
                                ids w)))
      <= List.length (sent w) + 1 * List.length ids)%nat.
Proof.
  split.
  - apply (Promise_all_calls 1). intros pid w0.
    destruct (places_batchItem_call env key fields pid w0) as [Hit Miss].
    destruct (truthy (fst (get (clock env (ticks w0))
                (Places.cacheKeyOf (Places.normalizeId pid) fields)
                (CACHE w0)))).
    + rewrite (Hit eq_refl). simpl. split; [exact I | lia].
    + destruct (Miss eq_refl) as (rest & C & R). rewrite C. simpl. split.
      * intros w2. rewrite R, finishItem_sent. simpl.
        rewrite length_app.
        pose proof (secondCalls_length env key (Places.normalizeId pid)
                      fields). lia.
      * rewrite length_app. simpl. lia.
  - apply (Promise_all_calls 0). intros pid w0.
    destruct (part000_batchItem_call env key fields pid w0) as [Hit Miss].
    destruct (truthy (fst (get (clock env (ticks w0))
                (Part000.cacheKeyOf pid fields) (CACHE w0)))).
    + rewrite (Hit eq_refl). simpl. split; [exact I | lia].
    + destruct (Miss eq_refl) as (rest & C & R). rewrite C. simpl. split.
      * intros w2. rewrite R, finishItem_sent. lia.
      * rewrite length_app. simpl. lia.
Qed.

(** *** The handlers keep the cache well formed *)

Lemma keeps_ret {A : Type} (a : A) : keeps (ret a).
Proof. intros w W. exact W. Qed.

Lemma keeps_throw {A : Type} e : keeps (@throw A e).
Proof. intros w W. exact W. Qed.

Lemma keeps_bind {A B : Type} (m : M A) (k : A -> M B) :
  keeps m -> (forall a, keeps (k a)) -> keeps (bind m k).
Proof.
  intros Hm Hk w W. unfold bind. specialize (Hm w W).
  destruct (m w) as [[a|e] w']; simpl in *; auto. now apply Hk.
Qed.

Lemma keeps_try_catch {A : Type} (m : M A) h :
  keeps m -> (forall e, keeps (h e)) -> keeps (try_catch m h).
Proof.
  intros Hm Hh w W. unfold try_catch. specialize (Hm w W).
  destruct (m w) as [[a|e] w']; simpl in *; auto. now apply Hh.
Qed.

Lemma keeps_cacheGet env k : keeps (cacheGet env k).
Proof.
  intros w W. rewrite cacheGet_run. simpl. now apply get_wf.
Qed.

Lemma keeps_cachePut env k j ttl : keeps (cachePut env k j ttl).
Proof. intros w W. simpl. now apply put_wf. Qed.

Lemma keeps_issue f : keeps (issue f).
Proof. intros w W. exact W. Qed.

Lemma keeps_settle env n f : keeps (settle env n f).
Proof. intros w W. unfold settle. now destruct (upstream env n f). Qed.

Lemma keeps_fetch env n f : keeps (fetch env n f).
Proof.
  apply keeps_bind; [apply keeps_issue | intros _; apply keeps_settle].
Qed.

Lemma keeps_json r : keeps (json r).
Proof. intros w W. unfold json. now destruct (r_json r). Qed.

Lemma keeps_respond code body : keeps (respond code body).
Proof. apply keeps_ret. Qed.

Lemma keeps_error code name : keeps (error code name).
Proof. apply keeps_ret. Qed.

Lemma keeps_google_error status bodyText :
  keeps (google_error status bodyText).
Proof. apply keeps_ret. Qed.

Lemma keeps_cacheSize : keeps cacheSize.
Proof. intros w W. exact W. Qed.

Create HintDb keeps.

#[local] Hint Resolve keeps_ret keeps_throw keeps_cacheGet keeps_cachePut
  keeps_issue keeps_settle keeps_fetch keeps_json keeps_respond keeps_error
  keeps_google_error keeps_cacheSize : keeps.

Ltac keeps_step :=
  match goal with
  | |- keeps (bind _ _) => apply keeps_bind; [|intro]
  | |- keeps (try_catch _ _) => apply keeps_try_catch; [|intro]
  | |- keeps (if ?b then _ else _) => destruct b
  | |- keeps (match ?x with _ => _ end) => destruct x
  | |- keeps _ => solve [auto with keeps]
  end.

Lemma keeps_passThrough r : keeps (passThrough r).
Proof. unfold passThrough. repeat keeps_step. Qed.

Lemma keeps_searchText env key b : keeps (searchText env key b).
Proof.
  unfold searchText. destruct (negb (nonEmpty (b_textQuery b)));
    [auto with keeps|].
  apply keeps_bind; [auto with keeps | intro; apply keeps_passThrough].
Qed.

Lemma keeps_nearbySearch env key b : keeps (nearbySearch env key b).
Proof.
  unfold nearbySearch. destruct (isNullish (b_lat b) || isNullish (b_lng b))%bool;
    [auto with keeps|].
  apply keeps_bind; [auto with keeps | intro; apply keeps_passThrough].
Qed.

Lemma keeps_autocomplete env key b : keeps (autocomplete env key b).
Proof.
  unfold autocomplete. destruct (negb (nonEmpty (b_input b)));
    [auto with keeps|].
  apply keeps_bind; [auto with keeps | intro; apply keeps_passThrough].
Qed.

Lemma keeps_places_details env key b : keeps (Places.details env key b).
Proof. unfold Places.details. cbv zeta. repeat keeps_step. Qed.

Lemma keeps_part000_details env key b : keeps (Part000.details env key b).
Proof. unfold Part000.details. cbv zeta. repeat keeps_step. Qed.

Lemma keepsAsync_places_batchItem env key fields pid :
  keepsAsync (Places.batchItem env key fields pid).
Proof.
  intros w W.
  destruct (places_batchItem_call env key fields pid w) as [Hit Miss].
  destruct (truthy (fst (get (clock env (ticks w))
              (Places.cacheKeyOf (Places.normalizeId pid) fields)
              (CACHE w)))).
  - rewrite (Hit eq_refl). simpl. split; [now apply get_wf | exact I].
  - destruct (Miss eq_refl) as (rest & C & R). rewrite C. simpl.
    split; [now apply get_wf|].
    intros w2 W2. rewrite R. unfold finishItem.
    destruct (lookupPlaces _ _ _ _) as [r|e]; simpl; auto.
    destruct (r_ok r); simpl; auto.
    destruct (r_json r); simpl; auto. now apply put_wf.
Qed.

Lemma keepsAsync_part000_batchItem env key fields pid :
  keepsAsync (Part000.batchItem env key fields pid).
Proof.
  intros w W.
  destruct (part000_batchItem_call env key fields pid w) as [Hit Miss].
  destruct (truthy (fst (get (clock env (ticks w))
              (Part000.cacheKeyOf pid fields) (CACHE w)))).
  - rewrite (Hit eq_refl). simpl. split; [now apply get_wf | exact I].
  - destruct (Miss eq_refl) as (rest & C & R). rewrite C. simpl.
    split; [now apply get_wf|].
    intros w2 W2. rewrite R. unfold finishItem.
    destruct (lookupPart000 _ _ _ _) as [r|e]; simpl; auto.
    destruct (r_ok r); simpl; auto.
    destruct (r_json r); simpl; auto. now apply put_wf.
Qed.

Lemma keeps_Promise_all order callback ids :
  (forall pid, keepsAsync (callback pid)) ->
  keeps (Promise_all order callback ids).
Proof.
  intros H w W. unfold Promise_all.
  assert (M : forall w0, wf (CACHE w0) ->
                         wf (CACHE (snd (mapCall callback ids w0)))
                         /\ Forall keepsPromise (fst (mapCall callback ids w0))).
  { induction ids as [|pid ids IH]; intros w0 W0; simpl.
    - split; [exact W0 | constructor].
    - destruct (H pid w0 W0) as [W1 K1].
      destruct (call (callback pid) w0) as [p w1]. simpl in W1, K1.
      destruct (IH w1 W1) as [W2 K2].
      destruct (mapCall callback ids w1) as [ps w2]. simpl in *.
      split; auto. }
  destruct (M w W) as [W1 F].
  destruct (mapCall callback ids w) as [ps w1]. simpl in W1, F.
  assert (R : forall l ps0 err w0,
             wf (CACHE w0) -> Forall keepsPromise ps0 ->
             wf (CACHE (snd (fold_left (fun st i => resume i st) l
                                       (ps0, err, w0))))).
  { induction l as [|i l IH]; cbn [fold_left]; intros ps0 err w0 W0 F0.
    - exact W0.
    - unfold resume at 2.
      destruct (nth_error ps0 i) as [[rest|v|e]|] eqn:E; auto.
      assert (K : keeps rest).
      { rewrite Forall_forall in F0.
        apply (F0 (Pending rest)). eapply nth_error_In; eauto. }
      specialize (K w0 W0).
      destruct (rest w0) as [[v|e] w']; simpl in K;
        apply IH; auto; apply Forall_update; simpl; auto. }
  specialize (R (order ++ seq 0 (List.length ids))%list ps (firstFailed ps)
                w1 W1 F).
  destruct (fold_left (fun st i => resume i st)
                      (order ++ seq 0 (List.length ids))
                      (ps, firstFailed ps, w1)) as [[ps' err] w2].
  simpl in R. destruct err; exact R.
Qed.

(** Every state a handler reaches from a state with a well-formed cache has
    a well-formed cache: no key twice, at most 5000 entries. *)
Lemma handler_keeps_cache_well_formed env order req :
  keeps (Places.handler env order req)
  /\ keeps (Part000.handler env order req).
Proof.
  split.
  - unfold Places.handler, dispatch. repeat keeps_step.
    unfold Places.routes. repeat keeps_step;
      auto using keeps_places_details, keeps_searchText, keeps_nearbySearch,
        keeps_autocomplete.
    unfold Places.batchDetails. repeat keeps_step.
    apply keeps_Promise_all. apply keepsAsync_places_batchItem.
  - unfold Part000.handler, dispatch. repeat keeps_step.
    unfold Part000.routes. repeat keeps_step;
      auto using keeps_part000_details, keeps_searchText, keeps_nearbySearch,
        keeps_autocomplete.
    unfold Part000.batchDetails. repeat keeps_step.
    apply keeps_Promise_all. apply keepsAsync_part000_batchItem.
Qed.

(** *** Field order, at the level of requests *)

(** A [details] request is answered from the entry that a request with the
    same fields in another order has stored, in both handler files. *)
Example field_order_shares_entry :
  let first := post (detailsBody "ChIJabc" (Some ["rating"; "id"])) in
  let second := post (detailsBody "ChIJabc" (Some ["id"; "rating"])) in
  fst (Places.handler (sampleEnv oneUnknown) [] second
         (snd (Places.handler (sampleEnv oneUnknown) [] first freshWorld))) =
    Returned (dataRes place true)
  /\ fst (Part000.handler (sampleEnv oneUnknown) [] second
            (snd (Part000.handler (sampleEnv oneUnknown) [] first
                    freshWorld))) =
       Returned (dataRes place true).
Proof. split; vm_compute; reflexivity. Qed.

(** *** A cache at its capacity *)

Lemma Map_size_keys c : Map_size c = Z.of_nat (List.length (Map_keys c)).
Proof. unfold Map_size, Map_keys. now rewrite length_map. Qed.

Lemma keyOf_injective n m : keyOf n = keyOf m -> n = m.
Proof.
  revert m. induction n as [|n IH]; intros [|m]; simpl; try discriminate; auto.
  intros E. inversion E. f_equal. auto.
Qed.

Lemma keyOf_not_new n : keyOf n <> "new".
Proof. destruct n; simpl; discriminate. Qed.

Lemma fill_succ n :
  run (fill (S n)) = put 0 (keyOf n) JNull 3600 (run (fill n)).
Proof.
  unfold run, fill. rewrite seq_S, map_app, fold_left_app. reflexivity.
Qed.

(** Filling the cache with [n <= 5000] new keys evicts nothing. *)
Lemma fill_keys n :
  Z.of_nat n <= MAX_ENTRIES ->
  Map_keys (run (fill n)) = map keyOf (seq 0 n).
Proof.
  induction n as [|n IH]; intros L; [reflexivity|].
  rewrite fill_succ.
  assert (K : Map_keys (run (fill n)) = map keyOf (seq 0 n))
    by (apply IH; lia).
  assert (G : Map_get (keyOf n) (run (fill n)) = None).
  { apply Map_get_None_keys. rewrite K. intros H.
    apply in_map_iff in H. destruct H as (i & E & Hi).
    apply keyOf_injective in E. apply in_seq in Hi. lia. }
  unfold put. rewrite (Map_set_absent _ _ _ G).
  rewrite Map_size_app, Map_size_keys, K, length_map, length_seq.
  destruct (Z.gtb_spec (Z.of_nat n + 1) MAX_ENTRIES); [lia|].
  unfold Map_keys in *. rewrite map_app, K, seq_S, map_app. reflexivity.
Qed.

(** In a well-formed cache at its capacity, a new key evicts the first key
    and no other. *)
Lemma put_new_key_at_the_cap now k v ttlSec c k0 ks :
  wf c ->
  Map_keys c = k0 :: ks ->
  Map_size c = MAX_ENTRIES ->
  ~ In k (Map_keys c) ->
  Map_keys (put now k v ttlSec c) = (ks ++ [k])%list
  /\ Map_size (put now k v ttlSec c) = MAX_ENTRIES.
Proof.
  intros W K S N. apply Map_get_None_keys in N.
  destruct (put_cases now k v ttlSec c W)
    as [[Sz _]|(_ & _ & _ & k1 & e1 & rest & C & _ & E)].
  - exfalso. rewrite (Map_set_absent _ _ _ N), Map_size_app in Sz. lia.
  - rewrite E. subst c. simpl in K. inversion K; subst.
    split.
    + unfold Map_keys. now rewrite map_app.
    + rewrite Map_size_app. unfold Map_size in *. simpl in S. lia.
Qed.

(** The cache can get to its capacity, and the next new key then evicts
    the first key inserted and no other. *)
Lemma eviction_at_the_cap :
  exists cap,
    Z.of_nat (S cap) = MAX_ENTRIES
    /\ Map_size (run (fill (S cap))) = MAX_ENTRIES
    /\ Map_keys (run (fill (S cap))) = map keyOf (seq 0 (S cap))
    /\ Map_size (put 0 "new" JNull 3600 (run (fill (S cap)))) = MAX_ENTRIES
    /\ Map_keys (put 0 "new" JNull 3600 (run (fill (S cap)))) =
         (map keyOf (seq 1 cap) ++ ["new"])%list.
Proof.
  remember (Z.to_nat (MAX_ENTRIES - 1)) as cap eqn:Hcap.
  exists cap.
  assert (Cap : Z.of_nat (S cap) = MAX_ENTRIES)
    by (unfold MAX_ENTRIES in Hcap; unfold MAX_ENTRIES; lia).
  clear Hcap.
  assert (K : Map_keys (run (fill (S cap))) = map keyOf (seq 0 (S cap)))
    by (apply fill_keys; lia).
  assert (S0 : Map_size (run (fill (S cap))) = MAX_ENTRIES).
  { rewrite Map_size_keys, K, length_map, length_seq. exact Cap. }
  assert (N : ~ In "new" (Map_keys (run (fill (S cap))))).
  { rewrite K. intros H. apply in_map_iff in H. destruct H as (i & E & _).
    exact (keyOf_not_new i E). }
  destruct (put_new_key_at_the_cap 0 "new" JNull 3600 (run (fill (S cap)))
              (keyOf 0) (map keyOf (seq 1 cap)) (run_wf _) K S0 N)
    as [K' S'].
  repeat split; auto.
Qed.

(** *** The CORS preflight, and the calls of a single lookup *)

(** An OPTIONS request is answered 204 before anything else is looked at,
    in both handler files. *)
Lemma preflight_answered env order req w :
  q_method req = "OPTIONS" ->
  Places.handler env order req w = (Returned (mkRes 204 CORS None), w)
  /\ Part000.handler env order req w = (Returned (mkRes 204 CORS None), w).
Proof.
  intros E. unfold Places.handler, Part000.handler, dispatch.
  rewrite E. split; reflexivity.
Qed.

Lemma finishDetails_sent env cacheKey out w :
  sent (snd (finishDetails env cacheKey out w)) = sent w.
Proof.
  unfold finishDetails. destruct out as [r|e]; auto.
  destruct (r_ok r); auto. destruct (r_json r); auto.
Qed.

(** The [details] branch of [src/api/places.ts] sends at most two calls,
    whatever the provider answers. *)
Lemma places_details_calls_bounded env key b w :
  (List.length (sent (snd (Places.details env key b w)))
   <= List.length (sent w) + 2)%nat.
Proof.
  destruct (b_placeId b) as [pid|] eqn:P.
  - destruct (string_dec pid "") as [->|N].
    + unfold Places.details. rewrite P. simpl. lia.
    + destruct (truthy (fst (get (clock env (ticks w))
                  (Places.cacheKeyOf (Places.normalizeId pid)
                     (orDefault Places.DEFAULT_FIELDS (b_fields b)))
                  (CACHE w)))) eqn:T.
      * unfold Places.details. rewrite P. simpl.
        apply String.eqb_neq in N. rewrite N. simpl.
        rewrite (bind_run _ _ _ _ _ (cacheGet_run env _ w)), T. simpl. lia.
      * rewrite (places_details_run env key b pid w P N T).
        rewrite finishDetails_sent. simpl. rewrite length_app. simpl.
        pose proof (secondCalls_length env key (Places.normalizeId pid)
                      (orDefault Places.DEFAULT_FIELDS (b_fields b))).
        lia.
  - unfold Places.details. rewrite P. simpl. lia.
Qed.

(** The [details] branch of the second handler file sends at most one. *)
Lemma part000_details_calls_bounded env key b w :
  (List.length (sent (snd (Part000.details env key b w)))
   <= List.length (sent w) + 1)%nat.
Proof.
  unfold Part000.details.
  destruct (negb (nonEmpty (b_placeId b))); [simpl; lia|].
  cbv zeta.
  rewrite (bind_run _ _ _ _ _ (cacheGet_run env _ w)).
  destruct (truthy _); [simpl; lia|].
  unfold bind at 1. rewrite fetch_run.
  destruct (upstream env 0 _) as [r|e]; [|simpl; rewrite length_app; simpl; lia].
  destruct (negb (r_ok r)); [simpl; rewrite length_app; simpl; lia|].
  unfold bind, json. destruct (r_json r); simpl; rewrite length_app; simpl; lia.
Qed.

(** *** The fallback in a batch, at the level of requests *)

(** A batch of [src/api/places.ts] whose field list is rejected is answered
    with the payload of the call made again; the same batch made again is
    answered from the cache, under the key of the rejected field list, and
    sends nothing. *)
Example fallback_in_a_batch_scenario :
  let env := sampleEnv rejectsBogus in
  let req := post (batchBody ["ChIJabc"; "places/ChIJxyz"] (Some ["bogus"])) in
  let w1 := snd (Places.handler env [1]%nat req freshWorld) in
  fst (Places.handler env [1]%nat req freshWorld) =
    Returned (batchRes [itemSuccess "ChIJabc" place false;
                        itemSuccess "ChIJxyz" place false])
  /\ Map_keys (CACHE w1) =
       ["details:ChIJxyz:bogus"; "details:ChIJabc:bogus"]
  /\ List.length (sent w1) = 4%nat
  /\ fst (Places.handler env [] req w1) =
       Returned (batchRes [itemSuccess "ChIJabc" place true;
                           itemSuccess "ChIJxyz" place true])
  /\ sent (snd (Places.handler env [] req w1)) = sent w1.
Proof. repeat split; vm_compute; reflexivity. Qed.

(** ** Further properties of the handlers *)

(** *** Every request gets a response, with the CORS headers *)

Lemma returnsOnly_ret {A : Type} (Q : A -> Prop) a :
  Q a -> returnsOnly Q (ret a).
Proof. intros H w. exact H. Qed.

Lemma returnsOnly_bind {A B : Type} (Q : B -> Prop) (m : M A) (k : A -> M B) :
  (forall a, returnsOnly Q (k a)) -> returnsOnly Q (bind m k).
Proof.
  intros H w. unfold bind. destruct (m w) as [[a|e] w']; simpl; auto.
  apply H.
Qed.

Lemma returnsOnly_try_catch {A : Type} (Q : A -> Prop) (m : M A) h :
  returnsOnly Q m -> (forall e, returnsOnly Q (h e)) ->
  returnsOnly Q (try_catch m h).
Proof.
  intros Hm Hh w. unfold try_catch. specialize (Hm w).
  destruct (m w) as [[a|e] w']; simpl in *; auto. apply Hh.
Qed.

Ltac shaped :=
  match goal with
  | |- returnsOnly _ (bind _ _) => apply returnsOnly_bind; intro
  | |- returnsOnly _ (try_catch _ _) => apply returnsOnly_try_catch; [|intro]
  | |- returnsOnly _ (if ?b then _ else _) => destruct b
  | |- returnsOnly _ (match ?x with _ => _ end) => destruct x
  | |- returnsOnly wellShaped _ =>
      apply returnsOnly_ret; split;
      [reflexivity | unfold handled; simpl; discriminate]
  end.

Lemma wellShaped_passThrough r : returnsOnly wellShaped (passThrough r).
Proof. unfold passThrough, google_error, respond. repeat shaped. Qed.

Lemma wellShaped_searchText env key b :
  returnsOnly wellShaped (searchText env key b).
Proof.
  unfold searchText, error, respond.
  destruct (negb (nonEmpty (b_textQuery b))); [shaped|].
  apply returnsOnly_bind. intro. apply wellShaped_passThrough.
Qed.

Lemma wellShaped_nearbySearch env key b :
  returnsOnly wellShaped (nearbySearch env key b).
Proof.
  unfold nearbySearch, error, respond.
  destruct (isNullish (b_lat b) || isNullish (b_lng b))%bool; [shaped|].
  apply returnsOnly_bind. intro. apply wellShaped_passThrough.
Qed.

Lemma wellShaped_autocomplete env key b :
  returnsOnly wellShaped (autocomplete env key b).
Proof.
  unfold autocomplete, error, respond.
  destruct (negb (nonEmpty (b_input b))); [shaped|].
  apply returnsOnly_bind. intro. apply wellShaped_passThrough.
Qed.

Lemma wellShaped_places_details env key b :
  returnsOnly wellShaped (Places.details env key b).
Proof.
  unfold Places.details, error, google_error, respond. cbv zeta.
  repeat shaped.
Qed.

Lemma wellShaped_part000_details env key b :
  returnsOnly wellShaped (Part000.details env key b).
Proof.
  unfold Part000.details, error, google_error, respond. cbv zeta.
  repeat shaped.
Qed.

Lemma wellShaped_places_batchDetails env order key b :
  returnsOnly wellShaped (Places.batchDetails env order key b).
Proof.
  unfold Places.batchDetails, error, respond. cbv zeta. repeat shaped.
Qed.

Lemma wellShaped_part000_batchDetails env order key b :
  returnsOnly wellShaped (Part000.batchDetails env order key b).
Proof.
  unfold Part000.batchDetails, error, respond. cbv zeta. repeat shaped.
Qed.

(** An allowed action other than [health] is one of the five that the [try]
    block handles. *)
Lemma allowed_action_cases action :
  ALLOWED_has action = true -> (action =? "health")%string = false ->
  (action =? "batchDetails")%string = true
  \/ (action =? "details")%string = true
  \/ (action =? "searchText")%string = true
  \/ (action =? "nearbySearch")%string = true
  \/ (action =? "autocomplete")%string = true.
Proof.
  unfold ALLOWED_has, ALLOWED. simpl. intros H N. rewrite N in H.
  destruct (action =? "searchText")%string; auto.
  destruct (action =? "nearbySearch")%string; auto.
  destruct (action =? "details")%string; auto.
  destruct (action =? "autocomplete")%string; auto.
  destruct (action =? "batchDetails")%string; auto; try discriminate.
Qed.

Lemma wellShaped_places_routes env order key action b :
  ALLOWED_has action = true -> (action =? "health")%string = false ->
  returnsOnly wellShaped (Places.routes env order key action b).
Proof.
  intros A N. unfold Places.routes.
  destruct (action =? "batchDetails")%string eqn:E1;
    [apply wellShaped_places_batchDetails|].
  destruct (action =? "details")%string eqn:E2;
    [apply wellShaped_places_details|].
  destruct (action =? "searchText")%string eqn:E3;
    [apply wellShaped_searchText|].
  destruct (action =? "nearbySearch")%string eqn:E4;
    [apply wellShaped_nearbySearch|].
  destruct (action =? "autocomplete")%string eqn:E5;
    [apply wellShaped_autocomplete|].
  exfalso. destruct (allowed_action_cases action A N) as [H|[H|[H|[H|H]]]];
    congruence.
Qed.

Lemma wellShaped_part000_routes env order key action b :
  ALLOWED_has action = true -> (action =? "health")%string = false ->
  returnsOnly wellShaped (Part000.routes env order key action b).
Proof.
  intros A N. unfold Part000.routes.
  destruct (action =? "batchDetails")%string eqn:E1;
    [apply wellShaped_part000_batchDetails|].
  destruct (action =? "details")%string eqn:E2;
    [apply wellShaped_part000_details|].
  destruct (action =? "searchText")%string eqn:E3;
    [apply wellShaped_searchText|].
  destruct (action =? "nearbySearch")%string eqn:E4;
    [apply wellShaped_nearbySearch|].
  destruct (action =? "autocomplete")%string eqn:E5;
    [apply wellShaped_autocomplete|].
  exfalso. destruct (allowed_action_cases action A N) as [H|[H|[H|[H|H]]]];
    congruence.
Qed.

Lemma wellShaped_dispatch env routes req :
  (forall key action b,
      ALLOWED_has action = true -> (action =? "health")%string = false ->
      returnsOnly wellShaped (routes key action b)) ->
  returnsOnly wellShaped (dispatch env routes req).
Proof.
  intros H. unfold dispatch, error, respond.
  destruct (q_method req =? "OPTIONS")%string; [shaped|].
  destruct (ALLOWED_has (actionOf req)) eqn:A; simpl; [|shaped].
  destruct (unauthorized env req); [shaped|].
  destruct (actionOf req =? "health")%string eqn:N; [repeat shaped|].
  destruct (GOOGLE_PLACES_API_KEY env) as [k|]; [|shaped].
  destruct (k =? "")%string; [shaped|].
  apply returnsOnly_try_catch; [now apply H | intro; shaped].
Qed.

(** X1. Every request that [Request] describes gets a response, in both
    handler files: no exception leaves the handler, the response carries the
    three CORS headers, and it is never the [unhandled_action] of the last
    line of the [try] block, which no such request reaches.  In [Request]
    the action, the identifiers and the field names are strings or missing,
    as the specification and the annotations of the source have them.
    [toString()] is called on the action before the [try] block, so a body
    whose [action] is an object with a property [toString] that cannot be
    called makes the handler throw; such a body is no value of [Request]
    and the statement does not cover it. *)
Theorem every_request_is_answered
        (env : Env) (order : list nat) (req : Request) (w : World) :
  (exists res w',
      Places.handler env order req w = (Returned res, w')
      /\ res_headers res = CORS
      /\ res_body res <> Some (JObj [("error", JStr "unhandled_action")]))
  /\ (exists res w',
         Part000.handler env order req w = (Returned res, w')
         /\ res_headers res = CORS
         /\ res_body res <> Some (JObj [("error", JStr "unhandled_action")])).
Proof.
  split.
  - destruct (dispatch_returns env (Places.routes env order) req w)
      as (res & w' & E).
    pose proof (wellShaped_dispatch env (Places.routes env order) req
                  (wellShaped_places_routes env order) w) as S.
    unfold Places.handler. rewrite E in *. simpl in S.
    exists res, w'. destruct S. auto.
  - destruct (dispatch_returns env (Part000.routes env order) req w)
      as (res & w' & E).
    pose proof (wellShaped_dispatch env (Part000.routes env order) req
                  (wellShaped_part000_routes env order) w) as S.
    unfold Part000.handler. rewrite E in *. simpl in S.
    exists res, w'. destruct S. auto.
Qed.

(** *** The handler's own errors come before anything is read or sent *)

Lemma rejectsEarly_ret res : rejectsEarly (ret res).
Proof. intros w. simpl. auto. Qed.

Lemma rejectsEarly_bind {A : Type} (m : M A) (k : A -> M Res) :
  (forall a, returnsOnly (fun res => ~ ownError res) (k a)) ->
  rejectsEarly (bind m k).
Proof.
  intros H w. unfold bind. destruct (m w) as [[a|e] w1]; auto.
  specialize (H a w1). destruct (k a w1) as [[res|e] w2]; simpl in *; auto.
  intros O. contradiction.
Qed.

Lemma rejectsEarly_try_catch m h :
  rejectsEarly m ->
  (forall e, returnsOnly (fun res => ~ ownError res) (h e)) ->
  rejectsEarly (try_catch m h).
Proof.
  intros Hm Hh w. unfold try_catch. specialize (Hm w).
  destruct (m w) as [[res|e] w1]; auto.
  specialize (Hh e w1). destruct (h e w1) as [[res|e'] w2]; simpl in *; auto.
  intros O. contradiction.
Qed.

Ltac notOwn :=
  match goal with
  | |- returnsOnly _ (bind _ _) => apply returnsOnly_bind; intro
  | |- returnsOnly _ (if ?b then _ else _) => destruct b
  | |- returnsOnly _ (match ?x with _ => _ end) => destruct x
  | |- returnsOnly _ _ =>
      apply returnsOnly_ret; intros [? ?]; simpl in *; discriminate
  end.

Ltac early :=
  match goal with
  | |- rejectsEarly (if ?b then _ else _) => destruct b
  | |- rejectsEarly (match ?x with _ => _ end) => destruct x
  | |- rejectsEarly (bind _ _) => apply rejectsEarly_bind; intro
  | |- rejectsEarly (ret _) => apply rejectsEarly_ret
  end.

Lemma notOwn_passThrough r :
  returnsOnly (fun res => ~ ownError res) (passThrough r).
Proof. unfold passThrough, google_error, respond. repeat notOwn. Qed.

Lemma rejectsEarly_places_routes env order key action b :
  rejectsEarly (Places.routes env order key action b).
Proof.
  unfold Places.routes, Places.batchDetails, Places.details, searchText,
    nearbySearch, autocomplete, error, google_error, respond.
  cbv zeta.
  repeat early; try apply notOwn_passThrough; repeat notOwn.
Qed.

Lemma rejectsEarly_part000_routes env order key action b :
  rejectsEarly (Part000.routes env order key action b).
Proof.
  unfold Part000.routes, Part000.batchDetails, Part000.details, searchText,
    nearbySearch, autocomplete, error, google_error, respond.
  cbv zeta.
  repeat early; try apply notOwn_passThrough; repeat notOwn.
Qed.

Lemma rejectsEarly_dispatch env routes req :
  (forall key action b, rejectsEarly (routes key action b)) ->
  rejectsEarly (dispatch env routes req).
Proof.
  intros H. unfold dispatch, error, respond.
  repeat early; try (repeat notOwn).
  apply rejectsEarly_try_catch; [apply H | intro; notOwn].
Qed.

(** X2. Whenever a handler answers with one of its own errors, a body
    [{ error: name }] and nothing else ([invalid_action], [unauthorized],
    [missing_google_api_key], [placeIds_required],
    [too_many_placeIds_max_50], [placeId_required], [textQuery_required],
    [lat_lng_required], [input_required]), it has left the state as it was:
    the cache has not been read and nothing has been sent upstream.  In both
    handler files. *)
Theorem own_errors_leave_the_state
        (env : Env) (order : list nat) (req : Request) (w w' : World)
        (res : Res) (name : string) :
  res_body res = Some (JObj [("error", JStr name)]) ->
  (Places.handler env order req w = (Returned res, w') -> w' = w)
  /\ (Part000.handler env order req w = (Returned res, w') -> w' = w).
Proof.
  intros B. split; intros E.
  - pose proof (rejectsEarly_dispatch env (Places.routes env order) req
                  (rejectsEarly_places_routes env order) w) as R.
    unfold Places.handler in E. rewrite E in R. apply R. now exists name.
  - pose proof (rejectsEarly_dispatch env (Part000.routes env order) req
                  (rejectsEarly_part000_routes env order) w) as R.
    unfold Part000.handler in E. rewrite E in R. apply R. now exists name.
Qed.

(** The instance: a [searchText] request without text. *)
Lemma own_errors_leave_the_state_witness :
  snd (Places.handler (sampleEnv unreachable) []
         (mkRequest "POST" (Some "searchText") (Some "tok") None)
         freshWorld) = freshWorld.
Proof.
  apply (own_errors_leave_the_state (sampleEnv unreachable) []
           (mkRequest "POST" (Some "searchText") (Some "tok") None)
           freshWorld _ (errorRes 400 "textQuery_required")
           "textQuery_required" eq_refl).
  reflexivity.
Defined.

(** *** The checks before and at the head of the branches *)

(** X3. [health] needs the gateway key and nothing else: an accepted
    [health] request is answered [{ ok: true, cacheEntries }] with the
    number of entries the Map holds, expired ones included, with or without
    provider key, and the state is left as it is (nothing is purged).  Every
    other accepted request, whatever its body, is answered 500
    [missing_google_api_key] when the provider key is unset or empty, the
    state being left as it is.  In both handler files. *)
Theorem provider_key_needed_except_for_health
        (env : Env) (order : list nat) (req : Request) (w : World) :
  (accepted env req "health" ->
   Places.handler env order req w =
     (Returned (healthRes (Map_size (CACHE w))), w)
   /\ Part000.handler env order req w =
        (Returned (healthRes (Map_size (CACHE w))), w))
  /\ (forall action,
         accepted env req action ->
         ALLOWED_has action = true -> action <> "health" ->
         nonEmpty (GOOGLE_PLACES_API_KEY env) = false ->
         Places.handler env order req w =
           (Returned (errorRes 500 "missing_google_api_key"), w)
         /\ Part000.handler env order req w =
              (Returned (errorRes 500 "missing_google_api_key"), w)).
Proof.
  unfold Places.handler, Part000.handler, dispatch. split.
  - intros (M & A & U). apply String.eqb_neq in M.
    rewrite M, A, U. simpl. split; destruct w; reflexivity.
  - intros action (M & A & U) Al H K.
    apply String.eqb_neq in M, H. rewrite M, A, Al, U, H. simpl.
    destruct (GOOGLE_PLACES_API_KEY env) as [k|]; [|split; reflexivity].
    simpl in K. destruct (k =? "")%string; [split; reflexivity | discriminate].
Qed.

(** The instances: a health check on a server without provider key, and a
    detail lookup on the same server. *)
Lemma provider_key_needed_except_for_health_witness :
  Places.handler noProviderKey [] healthRequest freshWorld =
    (Returned (healthRes 0), freshWorld)
  /\ Places.handler noProviderKey [] (post (detailsBody "ChIJabc" None))
                    freshWorld =
       (Returned (errorRes 500 "missing_google_api_key"), freshWorld).
Proof.
  destruct (provider_key_needed_except_for_health noProviderKey []
              healthRequest freshWorld) as [H _].
  destruct (provider_key_needed_except_for_health noProviderKey []
              (post (detailsBody "ChIJabc" None)) freshWorld) as [_ K].
  split.
  - apply H. unfold accepted. simpl. repeat split; try reflexivity.
    discriminate.
  - apply (K "details"); try reflexivity; try discriminate.
    unfold accepted. simpl. repeat split; try reflexivity. discriminate.
Defined.

Lemma routes_ignore_body_action env order key action a b :
  let b' := mkBody a (b_placeId b) (b_placeIds b) (b_fields b)
                   (b_textQuery b) (b_regionCode b) (b_pageSize b)
                   (b_languageCode b) (b_includedType b) (b_lat b)
                   (b_lng b) (b_radius b) (b_maxResultCount b)
                   (b_input b) (b_types b) in
  Places.routes env order key action b' = Places.routes env order key action b
  /\ Part000.routes env order key action b' =
       Part000.routes env order key action b.
Proof. destruct b. split; reflexivity. Qed.

(** X4. The action of the query string wins over the action of the body:
    when [req.query.action] is a non-empty string, the property [action] of
    the body plays no part in what the handler does.  In both handler
    files. *)
Theorem query_action_overrides_body_action
        (env : Env) (order : list nat) (req : Request) (a : option string) :
  nonEmpty (q_action req) = true ->
  Places.handler env order (withBodyAction a req) =
    Places.handler env order req
  /\ Part000.handler env order (withBodyAction a req) =
       Part000.handler env order req.
Proof.
  intros Q.
  assert (A : actionOf (withBodyAction a req) = actionOf req).
  { unfold actionOf, withBodyAction, orElse. simpl. now rewrite Q. }
  unfold Places.handler, Part000.handler, dispatch.
  rewrite A.
  change (q_method (withBodyAction a req)) with (q_method req).
  change (unauthorized env (withBodyAction a req)) with (unauthorized env req).
  destruct (q_body req) as [b|] eqn:B.
  - assert (Bd : q_body (withBodyAction a req) =
                 Some (mkBody a (b_placeId b) (b_placeIds b) (b_fields b)
                         (b_textQuery b) (b_regionCode b) (b_pageSize b)
                         (b_languageCode b) (b_includedType b) (b_lat b)
                         (b_lng b) (b_radius b) (b_maxResultCount b)
                         (b_input b) (b_types b)))
      by (unfold withBodyAction; simpl; now rewrite B).
    rewrite Bd. simpl orDefault.
    destruct (GOOGLE_PLACES_API_KEY env) as [k|]; [|split; reflexivity].
    destruct (routes_ignore_body_action env order k (actionOf req) a b)
      as [R1 R2].
    cbv zeta in R1, R2. rewrite R1, R2. split; reflexivity.
  - assert (Bd : q_body (withBodyAction a req) = None)
      by (unfold withBodyAction; simpl; now rewrite B).
    rewrite Bd. split; reflexivity.
Qed.

(** The instance: [?action=health] with [{ action: 'deletePlace' }] in the
    body is a health check. *)
Lemma query_action_overrides_body_action_witness :
  Places.handler (sampleEnv unreachable) []
    (withBodyAction (Some "deletePlace")
       (mkRequest "POST" (Some "health") (Some "tok") (Some noBody)))
    freshWorld = (Returned (healthRes 0), freshWorld).
Proof.
  destruct (query_action_overrides_body_action (sampleEnv unreachable) []
              (mkRequest "POST" (Some "health") (Some "tok") (Some noBody))
              (Some "deletePlace") eq_refl) as [E _].
  rewrite E. reflexivity.
Defined.

(** *** The three searches *)

Lemma passThrough_run r w :
  try_catch (passThrough r)
    (fun message =>
       respond 500 (JObj [("error", JStr "gateway_exception");
                          ("message", JStr message)])) w =
    (Returned (relayRes (Resolved r)), w).
Proof.
  unfold try_catch, passThrough, relayRes.
  destruct (r_ok r); simpl; [|reflexivity].
  unfold bind, json. destruct (r_json r); reflexivity.
Qed.

(** A branch that makes one call and passes the outcome on. *)
Lemma relay_run env f w :
  try_catch (r <- fetch env 0 f ;; passThrough r)
    (fun message =>
       respond 500 (JObj [("error", JStr "gateway_exception");
                          ("message", JStr message)])) w =
    (Returned (relayRes (upstream env 0 f)), afterCalls w [f]).
Proof.
  pose proof (passThrough_run) as P. unfold try_catch in *.
  unfold bind at 1. rewrite fetch_run.
  destruct (upstream env 0 f) as [r|e]; [|reflexivity].
  apply P.
Qed.

Lemma searchText_allowed : ALLOWED_has "searchText" = true.
Proof. reflexivity. Qed.

Lemma nearbySearch_allowed : ALLOWED_has "nearbySearch" = true.
Proof. reflexivity. Qed.

Lemma autocomplete_allowed : ALLOWED_has "autocomplete" = true.
Proof. reflexivity. Qed.

(** X5. [searchText], in both handler files.  Without a non-empty
    [textQuery] the request is answered 400 [textQuery_required] and nothing
    is sent.  Otherwise exactly one call is sent, a POST to [/text:search]
    with the provider key in a header and a JSON body that has the
    [textQuery], a [pageSize] that is 10 when the caller gives none, and the
    optional properties only when the caller gives them; the answer is what
    that call ends with (payload, or status and body, or 500
    [gateway_exception]); the cache is not touched, so a search is never
    served from it. *)
Theorem searchText_relays_one_call
        (env : Env) (order : list nat) (req : Request) (key : string)
        (w : World) :
  dispatched env req "searchText" key ->
  (nonEmpty (b_textQuery (bodyOf req)) = false ->
   Places.handler env order req w =
     (Returned (errorRes 400 "textQuery_required"), w)
   /\ Part000.handler env order req w =
        (Returned (errorRes 400 "textQuery_required"), w))
  /\ (nonEmpty (b_textQuery (bodyOf req)) = true ->
      exists f body,
        (Places.handler env order req w =
           (Returned (relayRes (upstream env 0 f)), afterCalls w [f])
         /\ Part000.handler env order req w =
              (Returned (relayRes (upstream env 0 f)), afterCalls w [f]))
        /\ f_method f = "POST"
        /\ f_url f = "https://places.googleapis.com/v1/text:search"
        /\ In ("X-Goog-Api-Key", key) (f_headers f)
        /\ f_body f = Some body
        /\ prop "textQuery" body = optStr (b_textQuery (bodyOf req))
        /\ prop "pageSize" body =
             Some (orDefault (JNum 10) (b_pageSize (bodyOf req)))
        /\ prop "regionCode" body = optStr (b_regionCode (bodyOf req))
        /\ prop "languageCode" body = optStr (b_languageCode (bodyOf req))
        /\ prop "includedType" body = optStr (b_includedType (bodyOf req))).
Proof.
  intros D. unfold Places.handler, Part000.handler.
  rewrite !(dispatch_routes _ _ _ _ _ _ D searchText_allowed)
    by discriminate.
  unfold Places.routes, Part000.routes. simpl.
  unfold searchText. split; intros T; rewrite T; simpl.
  - split; reflexivity.
  - eexists. eexists. split; [split; apply relay_run|].
    simpl. repeat split; auto.
    all: destruct (b_textQuery (bodyOf req)), (b_regionCode (bodyOf req)),
           (b_languageCode (bodyOf req)), (b_includedType (bodyOf req));
           try discriminate; reflexivity.
Qed.

(** The instance: a text search against a provider that cannot be
    reached. *)
Lemma searchText_relays_one_call_witness :
  fst (Places.handler (sampleEnv unreachable) []
         (post (searchBody "searchText" (Some "pizza") None None None))
         freshWorld) = Returned (exceptionRes "down").
Proof.
  assert (D : dispatched (sampleEnv unreachable)
                (post (searchBody "searchText" (Some "pizza") None None None))
                "searchText" "gkey").
  { unfold dispatched. simpl. repeat split; try reflexivity; discriminate. }
  destruct (searchText_relays_one_call (sampleEnv unreachable) []
              (post (searchBody "searchText" (Some "pizza") None None None))
              "gkey" freshWorld D) as [_ H].
  destruct (H eq_refl) as (f & body & [E _] & _).
  rewrite E. reflexivity.
Defined.

(** X6. [nearbySearch], in both handler files.  The coordinates are checked
    with [== null]: when [lat] or [lng] is missing or null the answer is 400
    [lat_lng_required] and nothing is sent; any other value, zero included,
    passes.  Then exactly one call is sent, a POST to [/places:searchNearby]
    whose body carries the two coordinates as the centre of the circle, a
    radius that is 1000 and a [maxResultCount] that is 20 when the caller
    gives none, and [includedTypes] only for a non-empty [includedType]; the
    answer is what that call ends with and the cache is not touched. *)
Theorem nearbySearch_relays_one_call
        (env : Env) (order : list nat) (req : Request) (key : string)
        (w : World) :
  dispatched env req "nearbySearch" key ->
  ((isNullish (b_lat (bodyOf req)) = true
    \/ isNullish (b_lng (bodyOf req)) = true) ->
   Places.handler env order req w =
     (Returned (errorRes 400 "lat_lng_required"), w)
   /\ Part000.handler env order req w =
        (Returned (errorRes 400 "lat_lng_required"), w))
  /\ (isNullish (b_lat (bodyOf req)) = false ->
      isNullish (b_lng (bodyOf req)) = false ->
      exists f body,
        (Places.handler env order req w =
           (Returned (relayRes (upstream env 0 f)), afterCalls w [f])
         /\ Part000.handler env order req w =
              (Returned (relayRes (upstream env 0 f)), afterCalls w [f]))
        /\ f_method f = "POST"
        /\ f_url f = "https://places.googleapis.com/v1/places:searchNearby"
        /\ In ("X-Goog-Api-Key", key) (f_headers f)
        /\ f_body f = Some body
        /\ path ["locationRestriction"; "circle"; "center"; "latitude"] body
           = b_lat (bodyOf req)
        /\ path ["locationRestriction"; "circle"; "center"; "longitude"] body
           = b_lng (bodyOf req)
        /\ path ["locationRestriction"; "circle"; "radius"] body
           = Some (orDefault (JNum 1000) (b_radius (bodyOf req)))
        /\ prop "maxResultCount" body
           = Some (orDefault (JNum 20) (b_maxResultCount (bodyOf req)))
        /\ prop "includedTypes" body
           = (if nonEmpty (b_includedType (bodyOf req))
              then option_map (fun t => JArr [JStr t])
                     (b_includedType (bodyOf req))
              else None)).
Proof.
  intros D. unfold Places.handler, Part000.handler.
  rewrite !(dispatch_routes _ _ _ _ _ _ D nearbySearch_allowed)
    by discriminate.
  unfold Places.routes, Part000.routes. simpl.
  unfold nearbySearch. split.
  - intros N.
    assert (E : (isNullish (b_lat (bodyOf req))
                 || isNullish (b_lng (bodyOf req)))%bool = true)
      by (apply orb_true_iff; exact N).
    rewrite E. split; reflexivity.
  - intros Hlat Hlng. rewrite Hlat, Hlng. simpl orb. cbv iota.
    eexists. eexists. split; [split; apply relay_run|].
    simpl f_method. simpl f_url. simpl f_headers. simpl f_body.
    split; [reflexivity|]. split; [reflexivity|].
    split; [left; reflexivity|]. split; [reflexivity|].
    destruct (b_lat (bodyOf req)) as [lat|]; [|discriminate].
    destruct (b_lng (bodyOf req)) as [lng|]; [|discriminate].
    destruct (b_includedType (bodyOf req)) as [t|];
      [destruct (nonEmpty (Some t)) eqn:T|];
      repeat split; reflexivity.
Qed.

(** The instance: a search around latitude 0, longitude 0. *)
Lemma nearbySearch_relays_one_call_witness :
  fst (Places.handler (sampleEnv unreachable) []
         (post (searchBody "nearbySearch" None (Some (JNum 0))
                  (Some (JNum 0)) None))
         freshWorld) = Returned (exceptionRes "down").
Proof.
  assert (D : dispatched (sampleEnv unreachable)
                (post (searchBody "nearbySearch" None (Some (JNum 0))
                         (Some (JNum 0)) None))
                "nearbySearch" "gkey").
  { unfold dispatched. simpl. repeat split; try reflexivity; discriminate. }
  destruct (nearbySearch_relays_one_call (sampleEnv unreachable) []
              (post (searchBody "nearbySearch" None (Some (JNum 0))
                       (Some (JNum 0)) None))
              "gkey" freshWorld D) as [_ H].
  destruct (H eq_refl eq_refl) as (f & body & [E _] & _).
  rewrite E. reflexivity.
Defined.

Lemma queryParam_spread name x :
  formEncode name = name ->
  map (fun p => formEncode (fst p) ++ "=" ++ formEncode (snd p))
      (spreadIf name x) =
  (if nonEmpty x then [name ++ "=" ++ formEncode (orDefault "" x)] else []).
Proof.
  intros N. unfold spreadIf. destruct (nonEmpty x); simpl; [|reflexivity].
  rewrite N. reflexivity.
Qed.

Lemma append_assoc (a b c : string) : ((a ++ b) ++ c = a ++ (b ++ c))%string.
Proof. induction a; simpl; congruence. Qed.

Lemma append_nil_r (a : string) : (a ++ "" = a)%string.
Proof. induction a; simpl; congruence. Qed.

(** X7. [autocomplete], in both handler files.  Without a non-empty [input]
    the answer is 400 [input_required] and nothing is sent.  Otherwise exactly
    one call is sent, a GET with the provider key in a header and no body,
    whose URL is the autocomplete endpoint followed by the form-encoded
    [input] and then, in this order, [languageCode], [regionCode] and [types],
    each only when it is a non-empty string; the answer is what that call
    ends with and the cache is not touched. *)
Theorem autocomplete_relays_one_call
        (env : Env) (order : list nat) (req : Request) (key : string)
        (w : World) :
  dispatched env req "autocomplete" key ->
  (nonEmpty (b_input (bodyOf req)) = false ->
   Places.handler env order req w =
     (Returned (errorRes 400 "input_required"), w)
   /\ Part000.handler env order req w =
        (Returned (errorRes 400 "input_required"), w))
  /\ (forall input,
      b_input (bodyOf req) = Some input -> input <> "" ->
      exists f,
        (Places.handler env order req w =
           (Returned (relayRes (upstream env 0 f)), afterCalls w [f])
         /\ Part000.handler env order req w =
              (Returned (relayRes (upstream env 0 f)), afterCalls w [f]))
        /\ f_method f = "GET"
        /\ f_headers f = [("X-Goog-Api-Key", key)]
        /\ f_body f = None
        /\ f_url f =
             "https://places.googleapis.com/v1/places:autocomplete?input="
               ++ formEncode input
               ++ queryParam "languageCode" (b_languageCode (bodyOf req))
               ++ queryParam "regionCode" (b_regionCode (bodyOf req))
               ++ queryParam "types" (b_types (bodyOf req))).
Proof.
  intros D. unfold Places.handler, Part000.handler.
  rewrite !(dispatch_routes _ _ _ _ _ _ D autocomplete_allowed)
    by discriminate.
  unfold Places.routes, Part000.routes. simpl.
  unfold autocomplete. split.
  - intros T. rewrite T. split; reflexivity.
  - intros input I NE.
    assert (T : nonEmpty (b_input (bodyOf req)) = true).
    { rewrite I. destruct input; [congruence|reflexivity]. }
    rewrite T. simpl negb. cbv iota.
    eexists. split; [split; apply relay_run|].
    repeat (split; [reflexivity|]).
    cbn [f_url].
    assert (P : URLSearchParams_toString
                  ([("input", orDefault "" (b_input (bodyOf req)))]
                     ++ spreadIf "languageCode" (b_languageCode (bodyOf req))
                     ++ spreadIf "regionCode" (b_regionCode (bodyOf req))
                     ++ spreadIf "types" (b_types (bodyOf req)))%list
                = "input=" ++ formEncode input
                    ++ queryParam "languageCode" (b_languageCode (bodyOf req))
                    ++ queryParam "regionCode" (b_regionCode (bodyOf req))
                    ++ queryParam "types" (b_types (bodyOf req))).
    { rewrite I. unfold URLSearchParams_toString, join.
      rewrite !map_app, !queryParam_spread by reflexivity.
      unfold queryParam. cbn [orDefault map].
      change (formEncode (fst ("input", input)) ++ "="
                ++ formEncode (snd ("input", input)))
        with ("input=" ++ formEncode input).
      destruct (nonEmpty (b_languageCode (bodyOf req)));
        destruct (nonEmpty (b_regionCode (bodyOf req)));
        destruct (nonEmpty (b_types (bodyOf req)));
        cbn [app concat];
        rewrite ?append_assoc, ?append_nil_r; reflexivity. }
    rewrite P. reflexivity.
Qed.

(** The instance: completing ["caf"] against a provider that cannot be
    reached. *)
Lemma autocomplete_relays_one_call_witness :
  fst (Places.handler (sampleEnv unreachable) []
         (post (searchBody "autocomplete" None None None (Some "caf")))
         freshWorld) = Returned (exceptionRes "down").
Proof.
  assert (D : dispatched (sampleEnv unreachable)
                (post (searchBody "autocomplete" None None None (Some "caf")))
                "autocomplete" "gkey").
  { unfold dispatched. simpl. repeat split; try reflexivity; discriminate. }
  destruct (autocomplete_relays_one_call (sampleEnv unreachable) []
              (post (searchBody "autocomplete" None None None (Some "caf")))
              "gkey" freshWorld D) as [_ H].
  destruct (H "caf" eq_refl ltac:(discriminate)) as (f & [E _] & _).
  rewrite E. reflexivity.
Defined.

(** *** Where the calls go *)

Section Traffic.

Variable P : Fetch -> Prop.

Lemma adds_nothing {A : Type} (m : M A) :
  (forall w, sent (snd (m w)) = sent w) -> adds P m.
Proof.
  intros H w. exists []. rewrite H, app_nil_r. split; [reflexivity|constructor].
Qed.

Lemma adds_ret {A : Type} (a : A) : adds P (ret a).
Proof. now apply adds_nothing. Qed.

Lemma adds_throw {A : Type} e : adds P (@throw A e).
Proof. now apply adds_nothing. Qed.

Lemma adds_bind {A B : Type} (m : M A) (k : A -> M B) :
  adds P m -> (forall a, adds P (k a)) -> adds P (bind m k).
Proof.
  intros Hm Hk w. unfold bind. destruct (Hm w) as (c1 & E1 & F1).
  destruct (m w) as [[a|e] w']; simpl in *; [|eauto].
  destruct (Hk a w') as (c2 & E2 & F2).
  exists (c1 ++ c2)%list. rewrite E2, E1, app_assoc.
  split; [reflexivity | now apply Forall_app].
Qed.

Lemma adds_try_catch {A : Type} (m : M A) h :
  adds P m -> (forall e, adds P (h e)) -> adds P (try_catch m h).
Proof.
  intros Hm Hh w. unfold try_catch. destruct (Hm w) as (c1 & E1 & F1).
  destruct (m w) as [[a|e] w']; simpl in *; [eauto|].
  destruct (Hh e w') as (c2 & E2 & F2).
  exists (c1 ++ c2)%list. rewrite E2, E1, app_assoc.
  split; [reflexivity | now apply Forall_app].
Qed.

Lemma adds_cacheGet env k : adds P (cacheGet env k).
Proof. apply adds_nothing. intros w. now rewrite cacheGet_run. Qed.

Lemma adds_cachePut env k j ttl : adds P (cachePut env k j ttl).
Proof. now apply adds_nothing. Qed.

Lemma adds_issue f : P f -> adds P (issue f).
Proof. intros H w. exists [f]. split; [reflexivity | now constructor]. Qed.

Lemma adds_settle env n f : adds P (settle env n f).
Proof.
  apply adds_nothing. intros w. unfold settle.
  now destruct (upstream env n f).
Qed.

Lemma adds_fetch env n f : P f -> adds P (fetch env n f).
Proof.
  intros H. apply adds_bind; [now apply adds_issue|].
  intros _. apply adds_settle.
Qed.

Lemma adds_json r : adds P (json r).
Proof. apply adds_nothing. intros w. unfold json. now destruct (r_json r). Qed.

Lemma adds_respond code body : adds P (respond code body).
Proof. apply adds_ret. Qed.

Lemma adds_error code name : adds P (error code name).
Proof. apply adds_ret. Qed.

Lemma adds_google_error status bodyText :
  adds P (google_error status bodyText).
Proof. apply adds_ret. Qed.

Lemma adds_cacheSize : adds P cacheSize.
Proof. now apply adds_nothing. Qed.

Lemma adds_passThrough r : adds P (passThrough r).
Proof.
  unfold passThrough. destruct (negb (r_ok r));
    [apply adds_google_error|].
  apply adds_bind; [apply adds_json | intro; apply adds_respond].
Qed.

Lemma adds_resume_all l :
  forall ps err w,
    Forall (addsPromise P) ps ->
    exists calls,
      sent (snd (fold_left (fun st i => resume i st) l (ps, err, w)))
      = (sent w ++ calls)%list
      /\ Forall P calls.
Proof.
  induction l as [|i l IH]; cbn [fold_left]; intros ps0 err w0 F0.
  - exists []. simpl. rewrite app_nil_r. split; [reflexivity|constructor].
  - unfold resume at 2.
    destruct (nth_error ps0 i) as [[rest|v|e]|] eqn:E; auto.
    assert (K : adds P rest).
    { rewrite Forall_forall in F0.
      apply (F0 (Pending rest)). eapply nth_error_In; eauto. }
    destruct (K w0) as (c & Ec & Fc).
    destruct (rest w0) as [[v|e] w']; simpl in Ec.
    + destruct (IH (update i (Fulfilled v) ps0) err w') as (c' & E' & F');
        [apply Forall_update; simpl; auto|].
      exists (c ++ c')%list. rewrite E', Ec, app_assoc.
      split; [reflexivity | now apply Forall_app].
    + destruct (IH (update i (Failed e) ps0) (noteFailure err e) w')
        as (c' & E' & F'); [apply Forall_update; simpl; auto|].
      exists (c ++ c')%list. rewrite E', Ec, app_assoc.
      split; [reflexivity | now apply Forall_app].
Qed.

Lemma adds_Promise_all order callback ids :
  (forall pid, addsAsync P (callback pid)) ->
  adds P (Promise_all order callback ids).
Proof.
  intros H w. unfold Promise_all.
  assert (M : forall w0,
             (exists calls,
                 sent (snd (mapCall callback ids w0)) = (sent w0 ++ calls)%list
                 /\ Forall P calls)
             /\ Forall (addsPromise P) (fst (mapCall callback ids w0))).
  { induction ids as [|pid ids IH]; intros w0; simpl.
    - split; [|constructor]. exists []. rewrite app_nil_r.
      split; [reflexivity|constructor].
    - destruct (H pid w0) as [(c1 & E1 & F1) K1].
      destruct (call (callback pid) w0) as [p w1]. simpl in E1, K1.
      destruct (IH w1) as [(c2 & E2 & F2) K2].
      destruct (mapCall callback ids w1) as [ps w2]. simpl in *.
      split; [|now constructor].
      exists (c1 ++ c2)%list. rewrite E2, E1, app_assoc.
      split; [reflexivity | now apply Forall_app]. }
  destruct (M w) as [(c1 & E1 & F1) F].
  destruct (mapCall callback ids w) as [ps w1]. simpl in E1, F.
  destruct (adds_resume_all (order ++ seq 0 (List.length ids))%list ps
              (firstFailed ps) w1 F) as (c2 & E2 & F2).
  destruct (fold_left (fun st i => resume i st)
                      (order ++ seq 0 (List.length ids))
                      (ps, firstFailed ps, w1)) as [[ps' err] w2].
  simpl in E2.
  exists (c1 ++ c2)%list.
  split; [|now apply Forall_app].
  destruct err; simpl; rewrite E2, E1, app_assoc; reflexivity.
Qed.

End Traffic.

Lemma outbound_detailsFetch key id fields :
  outbound key (detailsFetch key id fields).
Proof.
  unfold outbound, detailsFetch. simpl.
  split; [reflexivity|]. split; [now left|]. now left.
Qed.

Ltac adds_step :=
  match goal with
  | |- adds _ (bind _ _) => apply adds_bind; [|intro]
  | |- adds _ (try_catch _ _) => apply adds_try_catch; [|intro]
  | |- adds _ (if ?c then _ else _) => destruct c
  | |- adds _ (match ?c with _ => _ end) => destruct c
  | |- adds _ (fetch _ _ _) => apply adds_fetch
  | |- adds _ (issue _) => apply adds_issue
  | |- adds _ _ =>
      first [ apply adds_ret | apply adds_throw | apply adds_cacheGet
            | apply adds_cachePut | apply adds_settle | apply adds_json
            | apply adds_respond | apply adds_error | apply adds_google_error
            | apply adds_cacheSize | apply adds_passThrough ]
  | |- outbound _ (detailsFetch _ _ _) => apply outbound_detailsFetch
  end.

Lemma adds_searchText env key b : adds (outbound key) (searchText env key b).
Proof.
  unfold searchText. cbv zeta. repeat adds_step.
  unfold outbound. simpl. split; [reflexivity|]. split; [now left|].
  right. split; [reflexivity|discriminate].
Qed.

Lemma adds_nearbySearch env key b :
  adds (outbound key) (nearbySearch env key b).
Proof.
  unfold nearbySearch. cbv zeta.
  destruct (isNullish (b_lat b) || isNullish (b_lng b))%bool;
    [apply adds_error|].
  apply adds_bind; [|intro; apply adds_passThrough].
  apply adds_fetch.
  unfold outbound. cbn [f_url f_headers f_method f_body].
  split; [reflexivity|]. split; [now left|].
  right. split; [reflexivity|discriminate].
Qed.

Lemma adds_autocomplete env key b :
  adds (outbound key) (autocomplete env key b).
Proof.
  unfold autocomplete. cbv zeta.
  destruct (negb (nonEmpty (b_input b))); [apply adds_error|].
  apply adds_bind; [|intro; apply adds_passThrough].
  apply adds_fetch.
  unfold outbound. cbn [f_url f_headers f_method f_body].
  split; [reflexivity|]. split; [now left|]. now left.
Qed.

Lemma adds_places_details env key b :
  adds (outbound key) (Places.details env key b).
Proof. unfold Places.details. cbv zeta. repeat adds_step. Qed.

Lemma adds_part000_details env key b :
  adds (outbound key) (Part000.details env key b).
Proof. unfold Part000.details. cbv zeta. repeat adds_step. Qed.

Lemma Forall_outbound_secondCalls env key rawId fields :
  Forall (outbound key) (secondCalls env key rawId fields).
Proof.
  unfold secondCalls.
  destruct (upstream env 0 (detailsFetch key rawId fields)) as [r|e];
    [|constructor].
  destruct (negb (r_ok r) && isFieldMaskError r)%bool; constructor;
    [apply outbound_detailsFetch | constructor].
Qed.

Lemma addsAsync_places_batchItem env key fields pid :
  addsAsync (outbound key) (Places.batchItem env key fields pid).
Proof.
  intros w.
  destruct (places_batchItem_call env key fields pid w) as [Hit Miss].
  destruct (truthy (fst (get (clock env (ticks w))
              (Places.cacheKeyOf (Places.normalizeId pid) fields)
              (CACHE w)))).
  - rewrite (Hit eq_refl). simpl. split; [|exact I].
    exists []. rewrite app_nil_r. split; [reflexivity|constructor].
  - destruct (Miss eq_refl) as (rest & C & R). rewrite C. simpl.
    split.
    + eexists. split; [reflexivity|].
      constructor; [apply outbound_detailsFetch|constructor].
    + intros w2. rewrite R, finishItem_sent. simpl.
      eexists. split; [reflexivity|]. apply Forall_outbound_secondCalls.
Qed.

Lemma addsAsync_part000_batchItem env key fields pid :
  addsAsync (outbound key) (Part000.batchItem env key fields pid).
Proof.
  intros w.
  destruct (part000_batchItem_call env key fields pid w) as [Hit Miss].
  destruct (truthy (fst (get (clock env (ticks w))
              (Part000.cacheKeyOf pid fields) (CACHE w)))).
  - rewrite (Hit eq_refl). simpl. split; [|exact I].
    exists []. rewrite app_nil_r. split; [reflexivity|constructor].
  - destruct (Miss eq_refl) as (rest & C & R). rewrite C. simpl.
    split.
    + eexists. split; [reflexivity|].
      constructor; [apply outbound_detailsFetch|constructor].
    + intros w2. rewrite R, finishItem_sent.
      exists []. rewrite app_nil_r. split; [reflexivity|constructor].
Qed.

Lemma adds_places_routes env order key action b :
  adds (outbound key) (Places.routes env order key action b).
Proof.
  unfold Places.routes.
  repeat match goal with
         | |- adds _ (if (?a =? ?b)%string then _ else _) =>
             destruct (a =? b)%string
         end;
    auto using adds_places_details, adds_searchText, adds_nearbySearch,
      adds_autocomplete, adds_error.
  unfold Places.batchDetails. cbv zeta. repeat adds_step.
  all: apply adds_Promise_all; apply addsAsync_places_batchItem.
Qed.

Lemma adds_part000_routes env order key action b :
  adds (outbound key) (Part000.routes env order key action b).
Proof.
  unfold Part000.routes.
  repeat match goal with
         | |- adds _ (if (?a =? ?b)%string then _ else _) =>
             destruct (a =? b)%string
         end;
    auto using adds_part000_details, adds_searchText, adds_nearbySearch,
      adds_autocomplete, adds_error.
  unfold Part000.batchDetails. cbv zeta. repeat adds_step.
  all: apply adds_Promise_all; apply addsAsync_part000_batchItem.
Qed.

Lemma adds_weaken {A : Type} (P Q : Fetch -> Prop) (m : M A) :
  (forall f, P f -> Q f) -> adds P m -> adds Q m.
Proof.
  intros PQ H w. destruct (H w) as (c & E & F). exists c.
  split; [exact E|]. eapply Forall_impl; eauto.
Qed.

Lemma adds_dispatch env routes req :
  (forall key action b, adds (outbound key) (routes key action b)) ->
  adds (outboundOf env) (dispatch env routes req).
Proof.
  intros H. unfold dispatch.
  destruct (q_method req =? "OPTIONS")%string; [apply adds_ret|].
  cbv zeta.
  destruct (negb (ALLOWED_has (actionOf req))); [apply adds_error|].
  destruct (unauthorized env req); [apply adds_error|].
  destruct (actionOf req =? "health")%string.
  { apply adds_bind; [apply adds_cacheSize | intro; apply adds_respond]. }
  destruct (GOOGLE_PLACES_API_KEY env) as [key|] eqn:K; [|apply adds_error].
  destruct (key =? "")%string eqn:N; [apply adds_error|].
  apply String.eqb_neq in N.
  apply adds_try_catch; [|intro; apply adds_respond].
  apply (adds_weaken (outbound key)); [|apply H].
  intros f O. exists key. auto.
Qed.

(** X8. Every call a handler sends goes to the provider.  Whatever the
    request and the state, the log of the calls sent only grows, and each
    call a request adds has a URL below [https://places.googleapis.com/v1/],
    carries the configured, non-empty provider key in the [X-Goog-Api-Key]
    header, and is a GET without a body or a POST with one.  In particular
    the gateway token and the caller's [x-gateway-key] never decide where a
    call goes, and no call is sent without a provider key.  In both handler
    files. *)
Theorem calls_go_to_the_provider
        (env : Env) (order : list nat) (req : Request) (w : World) :
  (exists calls,
      sent (snd (Places.handler env order req w)) = (sent w ++ calls)%list
      /\ Forall (outboundOf env) calls)
  /\ (exists calls,
         sent (snd (Part000.handler env order req w)) = (sent w ++ calls)%list
         /\ Forall (outboundOf env) calls).
Proof.
  split.
  - apply (adds_dispatch env (Places.routes env order) req).
    intros key action b. apply adds_places_routes.
  - apply (adds_dispatch env (Part000.routes env order) req).
    intros key action b. apply adds_part000_routes.
Qed.

(** *** How many calls a request sends *)

Lemma relay_sent env f w :
  sent (snd ((r <- fetch env 0 f ;; passThrough r) w)) = (sent w ++ [f])%list.
Proof.
  unfold bind at 1. rewrite fetch_run.
  destruct (upstream env 0 f) as [r|e]; [|reflexivity].
  unfold passThrough. destruct (negb (r_ok r)); [reflexivity|].
  unfold bind, json. destruct (r_json r); reflexivity.
Qed.

Lemma search_calls_bounded env key b w :
  (List.length (sent (snd (searchText env key b w)))
   <= List.length (sent w) + 1)%nat
  /\ (List.length (sent (snd (nearbySearch env key b w)))
      <= List.length (sent w) + 1)%nat
  /\ (List.length (sent (snd (autocomplete env key b w)))
      <= List.length (sent w) + 1)%nat.
Proof.
  unfold searchText, nearbySearch, autocomplete. cbv zeta.
  repeat split.
  - destruct (negb (nonEmpty (b_textQuery b))); [simpl; lia|].
    rewrite relay_sent, length_app. simpl. lia.
  - destruct (isNullish (b_lat b) || isNullish (b_lng b))%bool; [simpl; lia|].
    rewrite relay_sent, length_app. simpl. lia.
  - destruct (negb (nonEmpty (b_input b))); [simpl; lia|].
    rewrite relay_sent, length_app. simpl. lia.
Qed.

Lemma bind_respond_sent {A : Type} (m : M A) (k : A -> Z * Json) w :
  sent (snd ((a <- m ;; respond (fst (k a)) (snd (k a))) w))
  = sent (snd (m w)).
Proof. unfold bind. destruct (m w) as [[a|e] w']; reflexivity. Qed.

Lemma places_batchDetails_calls_bounded env order key b w :
  (List.length (sent (snd (Places.batchDetails env order key b w)))
   <= List.length (sent w) + 100)%nat.
Proof.
  unfold Places.batchDetails. cbv zeta.
  destruct (match b_placeIds b with
            | PlaceIds_undefined => PlaceIds_array []
            | p => p
            end) as [|ids|]; try (simpl; lia).
  destruct (Nat.eqb (List.length ids) 0); [simpl; lia|].
  destruct (Nat.ltb 50 (List.length ids)) eqn:L; [simpl; lia|].
  apply Nat.ltb_ge in L.
  rewrite (bind_respond_sent _
             (fun results => (200, JObj [("results", JArr results)]))).
  pose proof (proj1 (batch_calls_bounded env order key
                       (orDefault Places.DEFAULT_FIELDS (b_fields b)) ids w)).
  lia.
Qed.

Lemma part000_batchDetails_calls_bounded env order key b w :
  (List.length (sent (snd (Part000.batchDetails env order key b w)))
   <= List.length (sent w) + 50)%nat.
Proof.
  unfold Part000.batchDetails. cbv zeta.
  destruct (match b_placeIds b with
            | PlaceIds_undefined => PlaceIds_array []
            | p => p
            end) as [|ids|]; try (simpl; lia).
  destruct (Nat.eqb (List.length ids) 0); [simpl; lia|].
  destruct (Nat.ltb 50 (List.length ids)) eqn:L; [simpl; lia|].
  apply Nat.ltb_ge in L.
  rewrite (bind_respond_sent _
             (fun results => (200, JObj [("results", JArr results)]))).
  pose proof (proj2 (batch_calls_bounded env order key
                       (orDefault Part000.defaultFields (b_fields b)) ids w)).
  lia.
Qed.

Lemma dispatch_calls_bounded env routes req k w :
  (forall key action b w0,
      (List.length (sent (snd (routes key action b w0)))
       <= List.length (sent w0) + k)%nat) ->
  (List.length (sent (snd (dispatch env routes req w)))
   <= List.length (sent w) + k)%nat.
Proof.
  intros H. unfold dispatch.
  destruct (q_method req =? "OPTIONS")%string; [simpl; lia|].
  cbv zeta.
  destruct (negb (ALLOWED_has (actionOf req))); [simpl; lia|].
  destruct (unauthorized env req); [simpl; lia|].
  destruct (actionOf req =? "health")%string; [simpl; lia|].
  destruct (GOOGLE_PLACES_API_KEY env) as [key|]; [|simpl; lia].
  destruct (key =? "")%string; [simpl; lia|].
  unfold try_catch.
  specialize (H key (actionOf req) (orDefault noBody (q_body req)) w).
  destruct (routes key (actionOf req) (orDefault noBody (q_body req)) w)
    as [[res|e] w']; exact H.
Qed.

(** X9. One request sends a bounded number of calls to the provider,
    whatever the request, the answers of the provider and the order in which
    the lookups of a batch finish: at most 100 in [src/api/places.ts] (50
    identifiers, each looked up at most twice), at most 50 in the second
    handler file. *)
Theorem calls_of_a_request_bounded
        (env : Env) (order : list nat) (req : Request) (w : World) :
  (List.length (sent (snd (Places.handler env order req w)))
   <= List.length (sent w) + 100)%nat
  /\ (List.length (sent (snd (Part000.handler env order req w)))
      <= List.length (sent w) + 50)%nat.
Proof.
  split.
  - apply dispatch_calls_bounded. intros key action b w0.
    unfold Places.routes.
    pose proof (places_batchDetails_calls_bounded env order key b w0).
    pose proof (places_details_calls_bounded env key b w0).
    destruct (search_calls_bounded env key b w0) as (? & ? & ?).
    repeat match goal with
           | |- context [if (?a =? ?b)%string then _ else _] =>
               destruct (a =? b)%string
           end; simpl; lia.
  - apply dispatch_calls_bounded. intros key action b w0.
    unfold Part000.routes.
    pose proof (part000_batchDetails_calls_bounded env order key b w0).
    pose proof (part000_details_calls_bounded env key b w0).
    destruct (search_calls_bounded env key b w0) as (? & ? & ?).
    repeat match goal with
           | |- context [if (?a =? ?b)%string then _ else _] =>
               destruct (a =? b)%string
           end; simpl; lia.
Qed.

(** *** The cache over a sequence of requests *)

Lemma serve_keeps_wf handler :
  (forall env order req, keeps (handler env order req)) ->
  forall reqs w, wf (CACHE w) -> wf (CACHE (serve handler reqs w)).
Proof.
  intros H reqs. induction reqs as [|[[env order] req] reqs IH]; intros w W.
  - exact W.
  - simpl. apply IH. now apply H.
Qed.

(** X10. The cache stays within its capacity.  Starting with an empty cache,
    after any sequence of requests, served under any configuration, clock and
    provider and with the lookups of each batch finishing in any order, the
    cache holds no key twice and at most 5000 entries.  In both handler
    files. *)
Theorem cache_stays_within_capacity
        (reqs : list (Env * list nat * Request)) :
  (NoDup (Map_keys (CACHE (serve Places.handler reqs freshWorld)))
   /\ Map_size (CACHE (serve Places.handler reqs freshWorld)) <= 5000)
  /\ (NoDup (Map_keys (CACHE (serve Part000.handler reqs freshWorld)))
      /\ Map_size (CACHE (serve Part000.handler reqs freshWorld)) <= 5000).
Proof.
  split.
  - apply (serve_keeps_wf Places.handler); [|apply freshWorld_wf].
    intros env order req.
    apply (handler_keeps_cache_well_formed env order req).
  - apply (serve_keeps_wf Part000.handler); [|apply freshWorld_wf].
    intros env order req.
    apply (handler_keeps_cache_well_formed env order req).
Qed.

(** *** Failed lookups are not cached *)

Lemma get_atMostDeleted now k c : atMostDeleted c (snd (get now k c)).
Proof.
  unfold get. destruct (Map_get k c) as [e|]; [|now left].
  destruct (now >? until e); [right; now exists k | now left].
Qed.

Lemma not_ok_status r : r_ok r = false -> r_status r <> 200.
Proof.
  unfold r_ok. intros H E. rewrite E in H. discriminate.
Qed.

Lemma writesOnSuccess_error code name :
  code <> 200 -> writesOnSuccess (error code name).
Proof. intros _ w. simpl. intros _. now left. Qed.

Lemma writesOnSuccess_relay env f :
  writesOnSuccess (r <- fetch env 0 f ;; passThrough r).
Proof.
  intros w. unfold bind at 1. rewrite fetch_run.
  destruct (upstream env 0 f) as [r|e]; [|now left].
  unfold passThrough. destruct (r_ok r) eqn:Ok; simpl.
  - unfold bind, json. destruct (r_json r); simpl; [intros _|]; now left.
  - intros _. now left.
Qed.

Lemma writesOnSuccess_searches env key b :
  writesOnSuccess (searchText env key b)
  /\ writesOnSuccess (nearbySearch env key b)
  /\ writesOnSuccess (autocomplete env key b).
Proof.
  unfold searchText, nearbySearch, autocomplete. cbv zeta. repeat split.
  - destruct (negb (nonEmpty (b_textQuery b)));
      [now apply writesOnSuccess_error | apply writesOnSuccess_relay].
  - destruct (isNullish (b_lat b) || isNullish (b_lng b))%bool;
      [now apply writesOnSuccess_error | apply writesOnSuccess_relay].
  - destruct (negb (nonEmpty (b_input b)));
      [now apply writesOnSuccess_error | apply writesOnSuccess_relay].
Qed.

Lemma writesOnSuccess_finish env cacheKey c r w :
  atMostDeleted c (CACHE w) ->
  match
    (if negb (r_ok r) then google_error (r_status r) (r_text r)
     else
       j <- json r ;;
       cachePut env cacheKey j 3600 ;;;
       respond 200 (JObj [("data", j); ("cached", JBool false)])) w
  with
  | (Returned res, w') => res_status res <> 200 -> atMostDeleted c (CACHE w')
  | (Thrown _, w') => atMostDeleted c (CACHE w')
  end.
Proof.
  intros L. destruct (r_ok r) eqn:Ok; simpl.
  - unfold bind, json. destruct (r_json r); simpl; [|exact L].
    intros H. now elim H.
  - intros _. exact L.
Qed.

Lemma writesOnSuccess_places_details env key b :
  writesOnSuccess (Places.details env key b).
Proof.
  intros w. unfold Places.details. cbv zeta.
  destruct (negb (nonEmpty (b_placeId b)));
    [now apply writesOnSuccess_error|].
  rewrite (bind_run _ _ _ _ _ (cacheGet_run env _ w)).
  destruct (truthy _); [simpl; intros H; now elim H|].
  unfold bind at 1. rewrite fetch_run.
  pose proof (get_atMostDeleted (clock env (ticks w))
                (Places.cacheKeyOf
                   (Places.normalizeId (orDefault "" (b_placeId b)))
                   (orDefault Places.DEFAULT_FIELDS (b_fields b)))
                (CACHE w)) as L.
  destruct (upstream env 0 _) as [r|e]; [|exact L].
  destruct (negb (r_ok r)) eqn:Ok.
  - destruct ((r_status r =? 400) && fieldsErrorTest (r_text r))%bool.
    + unfold bind at 1. rewrite fetch_run.
      destruct (upstream env 1 _) as [r'|e']; [|exact L].
      apply writesOnSuccess_finish. exact L.
    + simpl. intros _. exact L.
  - pose proof (writesOnSuccess_finish env
                  (Places.cacheKeyOf
                     (Places.normalizeId (orDefault "" (b_placeId b)))
                     (orDefault Places.DEFAULT_FIELDS (b_fields b)))
                  (CACHE w) r
                  (afterCalls
                     (afterGet env w
                        (Places.cacheKeyOf
                           (Places.normalizeId (orDefault "" (b_placeId b)))
                           (orDefault Places.DEFAULT_FIELDS (b_fields b))))
                     [detailsFetch key
                        (Places.normalizeId (orDefault "" (b_placeId b)))
                        (orDefault Places.DEFAULT_FIELDS (b_fields b))]) L)
      as F.
    rewrite Ok in F. exact F.
Qed.

Lemma writesOnSuccess_part000_details env key b :
  writesOnSuccess (Part000.details env key b).
Proof.
  intros w. unfold Part000.details. cbv zeta.
  destruct (negb (nonEmpty (b_placeId b)));
    [now apply writesOnSuccess_error|].
  rewrite (bind_run _ _ _ _ _ (cacheGet_run env _ w)).
  destruct (truthy _); [simpl; intros H; now elim H|].
  unfold bind at 1. rewrite fetch_run.
  pose proof (get_atMostDeleted (clock env (ticks w))
                (Part000.cacheKeyOf (orDefault "" (b_placeId b))
                   (orDefault Part000.defaultFields (b_fields b)))
                (CACHE w)) as L.
  destruct (upstream env 0 _) as [r|e]; [|exact L].
  apply writesOnSuccess_finish. exact L.
Qed.

Lemma writesOnSuccess_dispatch env routes req w res w' :
  actionOf req <> "batchDetails" ->
  (forall key b, writesOnSuccess (routes key (actionOf req) b)) ->
  res_status res <> 200 ->
  dispatch env routes req w = (Returned res, w') ->
  atMostDeleted (CACHE w) (CACHE w').
Proof.
  intros A H S. unfold dispatch.
  destruct (q_method req =? "OPTIONS")%string;
    [intros E; inversion E; now left|].
  cbv zeta.
  destruct (negb (ALLOWED_has (actionOf req)));
    [intros E; inversion E; now left|].
  destruct (unauthorized env req); [intros E; inversion E; now left|].
  destruct (actionOf req =? "health")%string;
    [intros E; inversion E; now left|].
  destruct (GOOGLE_PLACES_API_KEY env) as [key|];
    [|intros E; inversion E; now left].
  destruct (key =? "")%string; [intros E; inversion E; now left|].
  unfold try_catch.
  specialize (H key (orDefault noBody (q_body req)) w).
  destruct (routes key (actionOf req) (orDefault noBody (q_body req)) w)
    as [[res0|e] w0]; intros E; inversion E; subst; auto.
Qed.

(** X11. Failed lookups are not cached.  When a request other than a batch
    is answered with a status that is not 200 (an error of the gateway, a
    status passed on from the provider, or 500 after an exception), nothing
    has been written into the cache: the cache is the one before the
    request, or that one without one entry, the expired entry the lookup
    found.  In both handler files. *)
Theorem failed_lookups_are_not_cached
        (env : Env) (order : list nat) (req : Request) (w : World)
        (res : Res) (w' : World) :
  actionOf req <> "batchDetails" ->
  res_status res <> 200 ->
  (Places.handler env order req w = (Returned res, w') ->
   atMostDeleted (CACHE w) (CACHE w'))
  /\ (Part000.handler env order req w = (Returned res, w') ->
      atMostDeleted (CACHE w) (CACHE w')).
Proof.
  intros A S. apply String.eqb_neq in A as A'. split.
  - apply writesOnSuccess_dispatch; auto. intros key b.
    unfold Places.routes. rewrite A'.
    destruct (writesOnSuccess_searches env key b) as (? & ? & ?).
    repeat match goal with
           | |- writesOnSuccess (if ?c then _ else _) => destruct c
           end;
      auto using writesOnSuccess_places_details.
    now apply writesOnSuccess_error.
  - apply writesOnSuccess_dispatch; auto. intros key b.
    unfold Part000.routes. rewrite A'.
    destruct (writesOnSuccess_searches env key b) as (? & ? & ?).
    repeat match goal with
           | |- writesOnSuccess (if ?c then _ else _) => destruct c
           end;
      auto using writesOnSuccess_part000_details.
    now apply writesOnSuccess_error.
Qed.

(** The instance: a detail lookup against a provider that cannot be
    reached. *)
Lemma failed_lookups_are_not_cached_witness :
  atMostDeleted (CACHE freshWorld)
    (CACHE (snd (Places.handler (sampleEnv unreachable) []
                   (post (detailsBody "ChIJabc" None)) freshWorld))).
Proof.
  apply (proj1 (failed_lookups_are_not_cached (sampleEnv unreachable) []
                  (post (detailsBody "ChIJabc" None)) freshWorld
                  (exceptionRes "down")
                  (snd (Places.handler (sampleEnv unreachable) []
                          (post (detailsBody "ChIJabc" None)) freshWorld))
                  ltac:(discriminate) ltac:(discriminate))).
  reflexivity.
Defined.

(** *** The [details] branch of the second handler file *)

Lemma part000_handler_details env order req key w :
  dispatched env req "details" key ->
  Part000.handler env order req w =
    try_catch (Part000.details env key (bodyOf req))
              (fun message =>
                 respond 500 (JObj [("error", JStr "gateway_exception");
                                    ("message", JStr message)])) w.
Proof.
  intros D. unfold Part000.handler.
  rewrite (dispatch_routes _ _ _ _ _ _ D details_allowed) by discriminate.
  reflexivity.
Qed.


(** On a miss the branch sends one call, with the sorted field list, and
    ends with what that call ends with. *)
Lemma part000_details_run env key b pid w :
  b_placeId b = Some pid -> pid <> "" ->
  let fields := orDefault Part000.defaultFields (b_fields b) in
  let cacheKey := Part000.cacheKeyOf pid fields in
  misses env w cacheKey ->
  Part000.details env key b w =
    finishDetails env cacheKey (lookupPart000 env key pid fields)
      (afterCalls (afterGet env w cacheKey)
                  [detailsFetch key pid (sort fields)]).
Proof.
  intros P N fields cacheKey Miss.
  unfold Part000.details. rewrite P. simpl.
  apply String.eqb_neq in N. rewrite N. simpl.
  fold fields. fold cacheKey.
  rewrite (bind_run _ _ _ _ _ (cacheGet_run env cacheKey w)).
  unfold misses in Miss. rewrite Miss.
  unfold bind at 1. rewrite fetch_run. unfold lookupPart000.
  destruct (upstream env 0 (detailsFetch key pid (sort fields))) as [r|e];
    [|reflexivity].
  unfold finishDetails. destruct (r_ok r); simpl; auto.
  unfold bind, json. destruct (r_json r); reflexivity.
Qed.

(** An entry whose payload is not truthy counts as a miss, fresh or not. *)
Lemma falsy_entry_misses env w cacheKey j u :
  Map_get cacheKey (CACHE w) = Some (mkEntry j u) ->
  truthy j = false ->
  misses env w cacheKey.
Proof.
  intros G T. unfold misses, get. rewrite G. simpl.
  destruct (clock env (ticks w) >? u); [reflexivity | exact T].
Qed.



(** *** Payloads that are not truthy *)

Lemma try_catch_respond_sent (m : M Res) w :
  sent (snd (try_catch m
               (fun message =>
                  respond 500 (JObj [("error", JStr "gateway_exception");
                                     ("message", JStr message)])) w))
  = sent (snd (m w)).
Proof. unfold try_catch. destruct (m w) as [[res|e] w']; reflexivity. Qed.

(** X13. A cached payload that is not truthy is never served.  The handlers
    test the cached value with [if (cached)], so an entry whose payload is
    [null], [false], [0] or the empty string counts as a miss: a [details]
    request for it sends the lookup upstream again, however fresh the entry
    is, and a callback of a batch does not finish at once but waits for its
    call.  In both handler files. *)
Theorem falsy_payload_is_fetched_again
        (env : Env) (order : list nat) (req : Request) (key pid : string)
        (w : World) (j : Json) (u : Z) :
  dispatched env req "details" key ->
  b_placeId (bodyOf req) = Some pid -> pid <> "" ->
  truthy j = false ->
  (let fields := orDefault Places.DEFAULT_FIELDS (b_fields (bodyOf req)) in
   let rawId := Places.normalizeId pid in
   Map_get (Places.cacheKeyOf rawId fields) (CACHE w) = Some (mkEntry j u) ->
   sent (snd (Places.handler env order req w)) =
     (sent w ++ detailsFetch key rawId fields
             :: secondCalls env key rawId fields)%list
   /\ exists rest,
        fst (call (Places.batchItem env key fields pid) w) = Pending rest)
  /\ (let fields := orDefault Part000.defaultFields (b_fields (bodyOf req)) in
      Map_get (Part000.cacheKeyOf pid fields) (CACHE w)
        = Some (mkEntry j u) ->
      sent (snd (Part000.handler env order req w)) =
        (sent w ++ [detailsFetch key pid (sort fields)])%list
      /\ exists rest,
           fst (call (Part000.batchItem env key fields pid) w)
             = Pending rest).
Proof.
  intros D P N T. split; cbv zeta; intros G.
  - pose proof (falsy_entry_misses env w _ j u G T) as Miss. split.
    + rewrite (places_handler_details _ _ _ _ _ D), try_catch_respond_sent.
      rewrite (places_details_run env key (bodyOf req) pid w P N Miss).
      rewrite finishDetails_sent. reflexivity.
    + destruct (places_batchItem_call env key
                  (orDefault Places.DEFAULT_FIELDS (b_fields (bodyOf req)))
                  pid w) as [_ M].
      destruct (M Miss) as (rest & C & _). exists rest. now rewrite C.
  - pose proof (falsy_entry_misses env w _ j u G T) as Miss. split.
    + rewrite (part000_handler_details _ _ _ _ _ D), try_catch_respond_sent.
      rewrite (part000_details_run env key (bodyOf req) pid w P N Miss).
      rewrite finishDetails_sent. reflexivity.
    + destruct (part000_batchItem_call env key
                  (orDefault Part000.defaultFields (b_fields (bodyOf req)))
                  pid w) as [_ M].
      destruct (M Miss) as (rest & C & _). exists rest. now rewrite C.
Qed.

(** The instance: a cache that holds [null]. *)
Lemma falsy_payload_is_fetched_again_witness :
  sent (snd (Part000.handler (sampleEnv unreachable) []
               (post (detailsBody "ChIJabc" (Some ["a"]))) holdsNull)) =
    [detailsFetch "gkey" "ChIJabc" ["a"]].
Proof.
  assert (D : dispatched (sampleEnv unreachable)
                (post (detailsBody "ChIJabc" (Some ["a"])))
                "details" "gkey").
  { unfold dispatched. simpl. repeat split; try reflexivity; discriminate. }
  assert (N : "ChIJabc" <> "") by discriminate.
  destruct (falsy_payload_is_fetched_again (sampleEnv unreachable) []
              (post (detailsBody "ChIJabc" (Some ["a"])))
              "gkey" "ChIJabc" holdsNull JNull 100 D eq_refl N eq_refl)
    as [_ H].
  cbv zeta in H. destruct (H eq_refl) as [E _].
  rewrite E. reflexivity.
Defined.

(** *** What an identifier can do to the URL of a lookup *)

Lemma allChars_append p s1 s2 :
  allChars p (s1 ++ s2) = (allChars p s1 && allChars p s2)%bool.
Proof.
  unfold allChars. induction s1 as [|a s1 IH]; simpl; [reflexivity|].
  rewrite IH. now rewrite andb_assoc.
Qed.

Lemma allChars_flat_map p f s :
  (forall a, allChars p (f a) = true) ->
  allChars p (string_flat_map f s) = true.
Proof.
  intros H. induction s as [|a s IH]; simpl; [reflexivity|].
  now rewrite allChars_append, H, IH.
Qed.

Lemma encodeURIComponent_safe s : allChars urlSafe (encodeURIComponent s) = true.
Proof.
  apply allChars_flat_map.
  intros a. destruct a as [[] [] [] [] [] [] [] []]; reflexivity.
Qed.

Lemma formEncode_safe s : allChars formSafe (formEncode s) = true.
Proof.
  apply allChars_flat_map.
  intros a. destruct a as [[] [] [] [] [] [] [] []]; reflexivity.
Qed.

Lemma allChars_excludes p s c :
  allChars p s = true -> p c = false -> inString c s = false.
Proof.
  unfold allChars, inString. intros A N.
  induction (list_ascii_of_string s) as [|a l IH]; simpl in *; [reflexivity|].
  apply andb_true_iff in A. destruct A as [Pa A].
  rewrite (IH A), orb_false_r.
  destruct (Ascii.eqb_spec c a) as [->|]; [congruence | reflexivity].
Qed.

(** Text made of unreserved characters is not changed by the encoding. *)
Lemma encodeURIComponent_unreserved s :
  allChars unreserved s = true -> encodeURIComponent s = s.
Proof.
  unfold allChars, encodeURIComponent.
  induction s as [|a s IH]; simpl; [reflexivity|].
  intros H. apply andb_true_iff in H. destruct H as [Ha Hs].
  unfold unreserved in Ha. rewrite Ha. simpl. now rewrite (IH Hs).
Qed.

(** X14. The delimiters of a URL do not occur in the encoded parts of a
    lookup.  The URL of a detail lookup is
    [https://places.googleapis.com/v1/places/], the encoded identifier,
    [?fields=] and the encoded field mask; whatever the identifier and the
    field names are (strings of code units below 256), the two encoded parts
    contain none of the characters [/ ? # & = +] and no space, so that an
    identifier adds no path separator and no query parameter.  The same
    holds for the values the autocomplete query is made of, where a space
    becomes [+].  The encoding leaves letters, digits and the marks
    [- _ . ! ~ * ' ( )] as they are: an identifier made of these, the dot
    segments [.] and [..] among them, is sent unchanged, and what the
    provider makes of such a path is not part of this statement. *)
Theorem encoded_parts_have_no_delimiter
        (key id : string) (fields : list string) (s : string) (c : ascii) :
  inString c "/?#&= " = true ->
  (f_url (detailsFetch key id fields) =
     "https://places.googleapis.com/v1/places/" ++ encodeURIComponent id
       ++ "?fields=" ++ encodeURIComponent (join "," fields)
   /\ inString c (encodeURIComponent id) = false
   /\ inString c (encodeURIComponent (join "," fields)) = false
   /\ inString "+"%char (encodeURIComponent id) = false
   /\ inString "+"%char (encodeURIComponent (join "," fields)) = false)
  /\ inString c (formEncode s) = false
  /\ (allChars unreserved id = true ->
      f_url (detailsFetch key id fields) =
        "https://places.googleapis.com/v1/places/" ++ id
          ++ "?fields=" ++ encodeURIComponent (join "," fields)).
Proof.
  intros R.
  assert (U : urlSafe c = false /\ formSafe c = false).
  { unfold inString in R. simpl in R.
    repeat (apply orb_true_iff in R;
            destruct R as [R|R];
            [apply Ascii.eqb_eq in R; subst c; split; reflexivity|]).
    discriminate. }
  destruct U as [U F]. split; [|split].
  - split; [reflexivity|].
    repeat split;
      eapply allChars_excludes;
      try apply encodeURIComponent_safe; auto.
  - eapply allChars_excludes; [apply formEncode_safe | exact F].
  - intros A. unfold detailsFetch. simpl f_url.
    now rewrite (encodeURIComponent_unreserved id A).
Qed.

(** The instance: an identifier with a slash and a question mark, and the
    identifier [..]. *)
Lemma encoded_parts_have_no_delimiter_witness :
  inString "/"%char (encodeURIComponent "../x?y") = false
  /\ f_url (detailsFetch "gkey" ".." ["id"]) =
       "https://places.googleapis.com/v1/places/..?fields=id".
Proof.
  split.
  - destruct (encoded_parts_have_no_delimiter
                "gkey" "../x?y" [] "" "/"%char eq_refl)
      as [(_ & H & _) _].
    exact H.
  - destruct (encoded_parts_have_no_delimiter
                "gkey" ".." ["id"] "" "/"%char eq_refl)
      as (_ & _ & H).
    rewrite (H eq_refl). reflexivity.
Defined.

(** *** The calls of a batch that finds nothing in the cache *)

Section Cold.

Variable callback : string -> Async.
Variable keyOfId : string -> string.
Variable first : string -> Fetch.
Variable P : Fetch -> Prop.

Hypothesis callback_miss :
  forall pid w,
    Map_get (keyOfId pid) (CACHE w) = None ->
    exists rest w',
      call (callback pid) w = (Pending rest, w')
      /\ CACHE w' = CACHE w
      /\ sent w' = (sent w ++ [first pid])%list
      /\ adds P rest.

Lemma mapCall_cold (ids : list string) :
  forall w,
    (forall pid, In pid ids -> Map_get (keyOfId pid) (CACHE w) = None) ->
    CACHE (snd (mapCall callback ids w)) = CACHE w
    /\ sent (snd (mapCall callback ids w)) = (sent w ++ map first ids)%list
    /\ Forall (addsPromise P) (fst (mapCall callback ids w)).
Proof.
  induction ids as [|pid ids IH]; intros w H; simpl.
  - rewrite app_nil_r. repeat split. constructor.
  - destruct (callback_miss pid w (H pid (or_introl eq_refl)))
      as (rest & w1 & C & Ec & Es & A).
    rewrite C.
    destruct (IH w1) as (Ec2 & Es2 & F2).
    { intros pid' I. rewrite Ec. apply H. now right. }
    destruct (mapCall callback ids w1) as [ps w2]. simpl in *.
    split; [congruence|]. split.
    + rewrite Es2, Es, <- app_assoc. reflexivity.
    + constructor; auto.
Qed.

Lemma Promise_all_cold (order : list nat) (ids : list string) (w : World) :
  (forall pid, In pid ids -> Map_get (keyOfId pid) (CACHE w) = None) ->
  exists calls,
    sent (snd (Promise_all order callback ids w)) =
      (sent w ++ map first ids ++ calls)%list
    /\ Forall P calls.
Proof.
  intros H. unfold Promise_all.
  destruct (mapCall_cold ids w H) as (_ & Es & F).
  destruct (mapCall callback ids w) as [ps w1]. simpl in Es, F.
  destruct (adds_resume_all P (order ++ seq 0 (List.length ids))%list ps
              (firstFailed ps) w1 F) as (c & E & Fc).
  destruct (fold_left (fun st i => resume i st)
                      (order ++ seq 0 (List.length ids))
                      (ps, firstFailed ps, w1)) as [[ps' err] w2].
  simpl in E. exists c. split; [|exact Fc].
  destruct err; simpl; rewrite E, Es, <- app_assoc; reflexivity.
Qed.

End Cold.

Lemma absent_misses env w cacheKey :
  Map_get cacheKey (CACHE w) = None ->
  misses env w cacheKey /\ afterGet env w cacheKey
                           = mkWorld (CACHE w) (S (ticks w)) (sent w).
Proof.
  intros G. unfold misses, afterGet, get. rewrite G. split; reflexivity.
Qed.

Lemma places_batchItem_cold env key fields pid w :
  Map_get (Places.cacheKeyOf (Places.normalizeId pid) fields) (CACHE w)
    = None ->
  exists rest w',
    call (Places.batchItem env key fields pid) w = (Pending rest, w')
    /\ CACHE w' = CACHE w
    /\ sent w' =
         (sent w ++ [detailsFetch key (Places.normalizeId pid) fields])%list
    /\ adds (madeAgain key) rest.
Proof.
  intros G. destruct (absent_misses env w _ G) as [Miss A].
  destruct (places_batchItem_call env key fields pid w) as [_ M].
  destruct (M Miss) as (rest & C & R).
  exists rest. eexists. split; [exact C|]. rewrite A.
  split; [reflexivity|]. split; [reflexivity|].
  intros w2. rewrite R, finishItem_sent. simpl.
  eexists. split; [reflexivity|].
  unfold secondCalls.
  destruct (upstream env 0 _) as [r|e]; [|constructor].
  destruct (negb (r_ok r) && isFieldMaskError r)%bool; constructor;
    [now eexists | constructor].
Qed.

Lemma part000_batchItem_cold env key fields pid w :
  Map_get (Part000.cacheKeyOf pid fields) (CACHE w) = None ->
  exists rest w',
    call (Part000.batchItem env key fields pid) w = (Pending rest, w')
    /\ CACHE w' = CACHE w
    /\ sent w' = (sent w ++ [detailsFetch key pid (sort fields)])%list
    /\ adds noCall rest.
Proof.
  intros G. destruct (absent_misses env w _ G) as [Miss A].
  destruct (part000_batchItem_call env key fields pid w) as [_ M].
  destruct (M Miss) as (rest & C & R).
  exists rest. eexists. split; [exact C|]. rewrite A.
  split; [reflexivity|]. split; [reflexivity|].
  intros w2. rewrite R, finishItem_sent.
  exists []. rewrite app_nil_r. split; [reflexivity|constructor].
Qed.

Lemma Forall_noCall calls : Forall noCall calls -> calls = [].
Proof. intros F. destruct F as [|f l H _]; [reflexivity | destruct H]. Qed.

Lemma batch_size_accepted (ids : list string) :
  ids <> [] -> (List.length ids <= 50)%nat ->
  Nat.eqb (List.length ids) 0 = false
  /\ Nat.ltb 50 (List.length ids) = false.
Proof.
  intros N L. split.
  - apply Nat.eqb_neq. destruct ids; [congruence | simpl; lia].
  - now apply Nat.ltb_ge.
Qed.

(** X15. A batch that finds nothing in the cache looks every identifier up.
    When the cache has no entry for any identifier of an accepted batch of 1
    to 50 identifiers, the handler first sends one call for each identifier,
    in the order of [placeIds] and with an identifier that occurs twice
    looked up twice, before any answer is awaited.  In the second handler
    file these calls carry the sorted field list and are all the calls of
    the request; in [src/api/places.ts] they carry the identifier without
    its [places/] prefix and the fields as given, and the only calls after
    them are lookups made again with [DEFAULT_FIELDS]. *)
Theorem cold_batch_sends_one_call_per_identifier
        (env : Env) (order : list nat) (req : Request) (key : string)
        (ids : list string) (w : World) :
  dispatched env req "batchDetails" key ->
  b_placeIds (bodyOf req) = PlaceIds_array ids ->
  ids <> [] -> (List.length ids <= 50)%nat ->
  (let fields := orDefault Places.DEFAULT_FIELDS (b_fields (bodyOf req)) in
   (forall pid, In pid ids ->
                Map_get (Places.cacheKeyOf (Places.normalizeId pid) fields)
                        (CACHE w) = None) ->
   exists again,
     sent (snd (Places.handler env order req w)) =
       (sent w
          ++ map (fun pid => detailsFetch key (Places.normalizeId pid) fields)
                 ids
          ++ again)%list
     /\ Forall (madeAgain key) again)
  /\ (let fields := orDefault Part000.defaultFields (b_fields (bodyOf req)) in
      (forall pid, In pid ids ->
                   Map_get (Part000.cacheKeyOf pid fields) (CACHE w) = None) ->
      sent (snd (Part000.handler env order req w)) =
        (sent w
           ++ map (fun pid => detailsFetch key pid (sort fields)) ids)%list).
Proof.
  intros D B N L. destruct (batch_size_accepted ids N L) as [Z50 L50].
  split; cbv zeta; intros H.
  - unfold Places.handler.
    rewrite (dispatch_routes _ _ _ _ _ _ D batchDetails_allowed)
      by discriminate.
    rewrite try_catch_respond_sent.
    unfold Places.routes. simpl. unfold Places.batchDetails.
    rewrite B. cbv zeta. rewrite Z50, L50.
    rewrite (bind_respond_sent _
               (fun results => (200, JObj [("results", JArr results)]))).
    apply (Promise_all_cold _
             (fun pid => Places.cacheKeyOf (Places.normalizeId pid)
                           (orDefault Places.DEFAULT_FIELDS
                                      (b_fields (bodyOf req))))
             _ (madeAgain key)); [|exact H].
    intros pid w0. apply places_batchItem_cold.
  - unfold Part000.handler.
    rewrite (dispatch_routes _ _ _ _ _ _ D batchDetails_allowed)
      by discriminate.
    rewrite try_catch_respond_sent.
    unfold Part000.routes. simpl. unfold Part000.batchDetails.
    rewrite B. cbv zeta. rewrite Z50, L50.
    rewrite (bind_respond_sent _
               (fun results => (200, JObj [("results", JArr results)]))).
    destruct (Promise_all_cold
                (Part000.batchItem env key
                   (orDefault Part000.defaultFields (b_fields (bodyOf req))))
                (fun pid => Part000.cacheKeyOf pid
                              (orDefault Part000.defaultFields
                                         (b_fields (bodyOf req))))
                (fun pid => detailsFetch key pid
                              (sort (orDefault Part000.defaultFields
                                               (b_fields (bodyOf req)))))
                noCall
                (fun pid w0 => part000_batchItem_cold env key _ pid w0)
                order ids w H) as (c & E & F).
    rewrite E, (Forall_noCall c F), app_nil_r. reflexivity.
Qed.

(** The instance: the same identifier twice. *)
Lemma cold_batch_sends_one_call_per_identifier_witness :
  sent (snd (Part000.handler (sampleEnv unreachable) []
               (post (batchBody ["ChIJabc"; "ChIJabc"] (Some ["b"; "a"])))
               freshWorld)) =
    [detailsFetch "gkey" "ChIJabc" ["a"; "b"];
     detailsFetch "gkey" "ChIJabc" ["a"; "b"]].
Proof.
  assert (D : dispatched (sampleEnv unreachable)
                (post (batchBody ["ChIJabc"; "ChIJabc"] (Some ["b"; "a"])))
                "batchDetails" "gkey").
  { unfold dispatched. simpl. repeat split; try reflexivity; discriminate. }
  destruct (cold_batch_sends_one_call_per_identifier
              (sampleEnv unreachable) []
              (post (batchBody ["ChIJabc"; "ChIJabc"] (Some ["b"; "a"])))
              "gkey" ["ChIJabc"; "ChIJabc"] freshWorld D eq_refl
              ltac:(discriminate) ltac:(simpl; lia)) as [_ H].
  cbv zeta in H. rewrite H; [reflexivity|].
  intros pid _. reflexivity.
Defined.

(** *** Where the two handler files agree *)

Lemma routes_agree env order key action b :
  action <> "details" -> action <> "batchDetails" ->
  Places.routes env order key action b
  = Part000.routes env order key action b.
Proof.
  intros D B. apply String.eqb_neq in D, B.
  unfold Places.routes, Part000.routes. now rewrite D, B.
Qed.

Lemma dispatch_agree env routes1 routes2 req w :
  (forall key,
      routes1 key (actionOf req) (orDefault noBody (q_body req)) w
      = routes2 key (actionOf req) (orDefault noBody (q_body req)) w) ->
  dispatch env routes1 req w = dispatch env routes2 req w.
Proof.
  intros H. unfold dispatch.
  destruct (q_method req =? "OPTIONS")%string; [reflexivity|].
  cbv zeta.
  destruct (negb (ALLOWED_has (actionOf req))); [reflexivity|].
  destruct (unauthorized env req); [reflexivity|].
  destruct (actionOf req =? "health")%string; [reflexivity|].
  destruct (GOOGLE_PLACES_API_KEY env) as [key|]; [|reflexivity].
  destruct (key =? "")%string; [reflexivity|].
  unfold try_catch. now rewrite H.
Qed.

Lemma details_agree env key b pid fields w :
  b_placeId b = Some pid ->
  b_fields b = Some fields ->
  startsWith "places/" pid = false ->
  sort fields = fields ->
  (forall r, upstream env 0 (detailsFetch key pid fields) = Resolved r ->
             isFieldMaskError r = false) ->
  Places.details env key b w = Part000.details env key b w.
Proof.
  intros P F R S H.
  unfold Places.details, Part000.details. rewrite P, F. cbn [orDefault].
  rewrite (normalizeId_raw pid R). cbv zeta. rewrite S.
  change (Part000.cacheKeyOf pid fields) with (Places.cacheKeyOf pid fields).
  destruct (negb (nonEmpty (Some pid))); [reflexivity|].
  rewrite !(bind_run _ _ _ _ _ (cacheGet_run env _ w)).
  destruct (truthy _); [reflexivity|].
  pose proof (fetch_run env 0 (detailsFetch key pid fields)
                (afterGet env w (Places.cacheKeyOf pid fields))) as FR.
  destruct (upstream env 0 (detailsFetch key pid fields)) as [r|e] eqn:U.
  - rewrite !(bind_run _ _ _ _ _ FR).
    specialize (H r eq_refl). unfold isFieldMaskError in H. rewrite H.
    destruct (negb (r_ok r)); reflexivity.
  - now rewrite !(bind_thrown _ _ _ _ _ FR).
Qed.

(** X16. Where the two handler files agree.  On every request whose action
    is neither [details] nor [batchDetails] the handler of
    [src/api/places.ts] and the one of the second handler file give the same
    response and the same state.  On a [details] request they agree when
    the caller gives the fields, in sorted order, the identifier has no
    [places/] prefix, and the provider does not answer the lookup with a
    field-mask error: the second file differs from the first by the default
    fields, the order of the field mask it sends, the missing normalization
    and the missing fallback, and by nothing else. *)
Theorem handlers_agree_outside_the_fallback
        (env : Env) (order : list nat) (req : Request) (w : World) :
  (actionOf req <> "details" -> actionOf req <> "batchDetails" ->
   Places.handler env order req w = Part000.handler env order req w)
  /\ (forall key pid fields,
         dispatched env req "details" key ->
         b_placeId (bodyOf req) = Some pid ->
         b_fields (bodyOf req) = Some fields ->
         startsWith "places/" pid = false ->
         sort fields = fields ->
         (forall r,
             upstream env 0 (detailsFetch key pid fields) = Resolved r ->
             isFieldMaskError r = false) ->
         Places.handler env order req w = Part000.handler env order req w).
Proof.
  split.
  - intros D B. unfold Places.handler, Part000.handler.
    apply dispatch_agree. intros key. now rewrite routes_agree.
  - intros key pid fields D P F R S H.
    rewrite (places_handler_details _ _ _ _ _ D),
      (part000_handler_details _ _ _ _ _ D).
    unfold try_catch.
    now rewrite (details_agree env key (bodyOf req) pid fields w P F R S H).
Qed.

(** The instance: a lookup of [ChIJabc] with the fields [[a; b]]. *)
Lemma handlers_agree_outside_the_fallback_witness :
  Places.handler (sampleEnv rejectsBogus) []
    (post (detailsBody "ChIJabc" (Some ["a"; "b"]))) freshWorld
  = Part000.handler (sampleEnv rejectsBogus) []
      (post (detailsBody "ChIJabc" (Some ["a"; "b"]))) freshWorld.
Proof.
  assert (D : dispatched (sampleEnv rejectsBogus)
                (post (detailsBody "ChIJabc" (Some ["a"; "b"])))
                "details" "gkey").
  { unfold dispatched. simpl. repeat split; try reflexivity; discriminate. }
  apply (proj2 (handlers_agree_outside_the_fallback
                  (sampleEnv rejectsBogus) []
                  (post (detailsBody "ChIJabc" (Some ["a"; "b"])))
                  freshWorld)
               "gkey" "ChIJabc" ["a"; "b"] D eq_refl eq_refl eq_refl eq_refl).
  intros r E. injection E as <-. reflexivity.
Defined.

(** *** Which lookups share a cache entry *)

Lemma colon_splits id1 :
  forall id2 s1 s2,
    inString ":"%char id1 = false -> inString ":"%char id2 = false ->
    id1 ++ ":" ++ s1 = id2 ++ ":" ++ s2 ->
    id1 = id2 /\ s1 = s2.
Proof.
  unfold inString.
  induction id1 as [|a id1 IH]; intros [|b id2] s1 s2 N1 N2 E; simpl in *.
  - injection E as E. auto.
  - injection E as Eb E. subst b. discriminate.
  - injection E as Ea E. subst a. discriminate.
  - injection E as Eab E. subst b.
    apply orb_false_iff in N1, N2.
    destruct (IH id2 s1 s2 (proj2 N1) (proj2 N2) E) as [-> ->]. auto.
Qed.

(** X17. Which lookups share a cache entry.  The cache key is the text
    [details:], the identifier, a colon, and the sorted field names joined by
    commas.  For identifiers without a colon, two lookups have the same key
    only if they have the same identifier and the same joined sorted field
    list, so that a cached payload is never served for another place; in
    [src/api/places.ts] the identifier is the one without its [places/]
    prefix.  The restriction is needed: with a colon in the identifier, two
    different lookups can have the same key. *)
Theorem cache_key_separates_identifiers
        (id1 id2 : string) (fields1 fields2 : list string) :
  (inString ":"%char id1 = false -> inString ":"%char id2 = false ->
   Part000.cacheKeyOf id1 fields1 = Part000.cacheKeyOf id2 fields2 ->
   id1 = id2 /\ join "," (sort fields1) = join "," (sort fields2))
  /\ (inString ":"%char (Places.normalizeId id1) = false ->
      inString ":"%char (Places.normalizeId id2) = false ->
      Places.cacheKeyOf (Places.normalizeId id1) fields1
        = Places.cacheKeyOf (Places.normalizeId id2) fields2 ->
      Places.normalizeId id1 = Places.normalizeId id2
      /\ join "," (sort fields1) = join "," (sort fields2))
  /\ Places.cacheKeyOf "a:b" ["c"] = Places.cacheKeyOf "a" ["b:c"]
  /\ Part000.cacheKeyOf "a:b" ["c"] = Part000.cacheKeyOf "a" ["b:c"].
Proof.
  unfold Part000.cacheKeyOf, Places.cacheKeyOf.
  split; [|split; [|split; reflexivity]].
  - intros N1 N2 E. injection E as E. now apply colon_splits.
  - intros N1 N2 E. injection E as E. now apply colon_splits.
Qed.

(** The instance: two identifiers that have the same key have to be the
    same. *)
Lemma cache_key_separates_identifiers_witness :
  "ChIJabc" = "ChIJabc"
  /\ join "," (sort ["b"; "a"]) = join "," (sort ["a"; "b"]).
Proof.
  exact (proj1 (cache_key_separates_identifiers
                  "ChIJabc" "ChIJabc" ["b"; "a"] ["a"; "b"])
               eq_refl eq_refl eq_refl).
Defined.

(** *** Recognising a field-mask error *)

Lemma string_map_append f s1 s2 :
  string_map f (s1 ++ s2) = string_map f s1 ++ string_map f s2.
Proof. induction s1 as [|a s1 IH]; simpl; congruence. Qed.

Lemma prefix_append p s : prefix p (p ++ s) = true.
Proof.
  induction p as [|a p IH]; simpl; [now destruct s|].
  destruct (ascii_dec a a); [exact IH | congruence].
Qed.

Lemma includes_prefix p s : prefix p s = true -> includes p s = true.
Proof. intros H. destruct s; cbn [includes]; now rewrite H. Qed.

Lemma includes_append p a s : includes p (a ++ p ++ s) = true.
Proof.
  induction a as [|c a IH].
  - change ("" ++ p ++ s) with (p ++ s).
    apply includes_prefix, prefix_append.
  - cbn [append includes]. rewrite IH. apply orb_true_r.
Qed.

(** X18. How a field-mask error is recognised in [src/api/places.ts].  The
    body of the response is tested with an unanchored, case-insensitive
    pattern: a response with status 400 is a field-mask error whenever its
    body contains the text [Error expanding 'fields' parameter] anywhere, in
    any mix of upper and lower case; a response with another status never
    is, whatever its body. *)
Theorem field_mask_error_recognised_anywhere
        (r : Response) (before text after : string) :
  (r_status r = 400 ->
   string_map canonicalize text =
     string_map canonicalize "Error expanding 'fields' parameter" ->
   r_text r = before ++ text ++ after ->
   isFieldMaskError r = true)
  /\ (r_status r <> 400 -> isFieldMaskError r = false).
Proof.
  unfold isFieldMaskError, fieldsErrorTest. split.
  - intros S T B. rewrite S, B, !string_map_append, T.
    now rewrite includes_append.
  - intros S. apply Z.eqb_neq in S. now rewrite S.
Qed.

(** The instance: the text in upper case, in the middle of the body. *)
Lemma field_mask_error_recognised_anywhere_witness :
  isFieldMaskError
    (mkResponse 400 "{ERROR EXPANDING 'FIELDS' PARAMETER.}"
                (SyntaxError "Unexpected token")) = true.
Proof.
  apply (proj1 (field_mask_error_recognised_anywhere
                  (mkResponse 400 "{ERROR EXPANDING 'FIELDS' PARAMETER.}"
                              (SyntaxError "Unexpected token"))
                  "{" "ERROR EXPANDING 'FIELDS' PARAMETER" ".}"));
    reflexivity.
Defined.

(** *** The fallback payload in the cache *)


















Section Stores.

Variable env : Env.
Variables key cacheKey pid : string.
Variable fields : list string.
Variable ids : list string.
Variable i0 : nat.
Variable r' : Response.
Variable j : Json.

Hypothesis at_i0 : nth_error ids i0 = Some pid.
Hypothesis key_of_pid :
  Places.cacheKeyOf (Places.normalizeId pid) fields = cacheKey.
Hypothesis lookup_of_pid :
  lookupPlaces env key (Places.normalizeId pid) fields = Resolved r'.
Hypothesis ok' : r_ok r' = true.
Hypothesis payload' : r_json r' = Payload j.
Hypothesis at_most_50 : (List.length ids <= 50)%nat.



End Stores.








